(** * RoboEyes: eye-animation engine, scheduler and rasterizer

    Shallow embedding of [src/roboeyes.py] and [src/new/roboeyes_fast.py].
    Both files carry the same state machine (mutators, [draw_eyes],
    [update], [Sequence]); the NumPy variant also carries its own
    rasterizer ([draw_rounded_rect], [_draw_circle_corner],
    [fill_triangle]).  Python integers are [Z], [//] is [Z.div] (floor),
    [int(a / b)] on integers is [Z.quot] (truncation), attributes that hold
    [True]/[False] are [bool], optional arguments are [option].  The clock
    ([time.time()]) and the generator ([random.randint]) are inputs: every
    method that reads them takes the values read as arguments. *)

From Stdlib Require Import ZArith List Bool Lia QArith.
Import ListNotations.
Local Open Scope Z_scope.

(* ===================================================================== *)
(** ** Exceptions and outcomes                                            *)
(* ===================================================================== *)

(** The exceptions the modelled code can raise. *)
Inductive exn : Set :=
| ValueError
| IndexError
| ZeroDivisionError
| TypeError
| OverflowError.

(** A method call on a mutable object either returns, leaving the object in
    state [s], or raises [e], leaving the object in the state [s] it had
    reached when the exception left the method. *)
Inductive outcome (S : Type) : Type :=
| Ok (s : S)
| Raise (e : exn) (s : S).

Arguments Ok {S} s.
Arguments Raise {S} e s.

Definition final {S : Type} (o : outcome S) : S :=
  match o with
  | Ok s => s
  | Raise _ s => s
  end.

Definition returns {S : Type} (o : outcome S) : bool :=
  match o with
  | Ok _ => true
  | Raise _ _ => false
  end.

Definition bind {S : Type} (o : outcome S) (k : S -> outcome S) : outcome S :=
  match o with
  | Ok s => k s
  | Raise e s => Raise e s
  end.

Notation "m >>= k" := (bind m k) (at level 50, left associativity).

(** Run a method of a component [T] stored inside a larger object [S]. *)
Definition within {S T : Type} (put : T -> S) (o : outcome T) : outcome S :=
  match o with
  | Ok t => Ok (put t)
  | Raise e t => Raise e (put t)
  end.

(* ===================================================================== *)
(** ** The pixel buffer (NumPy array of shape (height, width, 3))         *)
(* ===================================================================== *)

Definition color : Type := Z * Z * Z.

(** Row-major grid of RGB triples. *)
Definition grid : Type := list (list color).

Definition len {A : Type} (l : list A) : Z := Z.of_nat (length l).

(** A buffer of shape [(H, W)]. *)
Definition shaped (H W : Z) (b : grid) : Prop :=
  len b = H /\ Forall (fun row => len row = W) b.

(** Python/NumPy slice bound normalisation on an axis of length [n]:
    negative bounds count from the end, and all bounds are clipped. *)
Definition slice_index (n i : Z) : Z :=
  if i <? 0 then Z.max 0 (i + n) else Z.min i n.

(** Apply [f] to the elements whose index (counted from [i]) is in
    [lo, hi). *)
Fixpoint update_span {A : Type} (f : A -> A) (lo hi i : Z) (l : list A)
  : list A :=
  match l with
  | [] => []
  | a :: t =>
      (if (lo <=? i) && (i <? hi) then f a else a)
        :: update_span f lo hi (i + 1) t
  end.

(** [l[a:b] = ...] on one axis. *)
Definition assign_slice {A : Type} (f : A -> A) (a b : Z) (l : list A)
  : list A :=
  update_span f (slice_index (len l) a) (slice_index (len l) b) 0 l.

(** [buffer[y1:y2, x1:x2] = c]: slices never raise. *)
Definition assign_block (c : color) (y1 y2 x1 x2 : Z) (b : grid) : grid :=
  assign_slice (assign_slice (fun _ => c) x1 x2) y1 y2 b.

(** [buffer[py, x1:x2] = c]: the integer index [py] raises [IndexError]
    outside [-H, H) and wraps around when negative. *)
Definition assign_row (c : color) (py x1 x2 : Z) (b : grid)
  : outcome grid :=
  if (py <? - len b) || (len b <=? py) then Raise IndexError b
  else
    let r := if py <? 0 then py + len b else py in
    Ok (update_span (assign_slice (fun _ => c) x1 x2) r (r + 1) 0 b).

(** [buffer[:] = c]. *)
Definition clear (c : color) (b : grid) : grid :=
  map (map (fun _ => c)) b.

(** One buffer assignment statement, with the index values it is executed
    with. *)
Inductive store : Set :=
| Block (y1 y2 x1 x2 : Z)
| Row (py x1 x2 : Z).

(** The assignment stays inside a [(H, W)] buffer: every index is a plain
    non-negative in-range index (no wrap-around, nothing clipped away). *)
Definition in_screen (H W : Z) (s : store) : Prop :=
  match s with
  | Block y1 y2 x1 x2 => 0 <= y1 < y2 /\ y2 <= H /\ 0 <= x1 < x2 /\ x2 <= W
  | Row py x1 x2 => 0 <= py < H /\ 0 <= x1 < x2 /\ x2 <= W
  end.

(** The pixel [(py, px)] is among those the assignment names, read as plain
    indices. *)
Definition covers (s : store) (py px : Z) : bool :=
  match s with
  | Block y1 y2 x1 x2 =>
      (y1 <=? py) && (py <? y2) && (x1 <=? px) && (px <? x2)
  | Row y x1 x2 => (y =? py) && (x1 <=? px) && (px <? x2)
  end.

Definition painted (l : list store) (py px : Z) : bool :=
  existsb (fun s => covers s py px) l.

Definition perform (c : color) (b : grid) (s : store) : outcome grid :=
  match s with
  | Block y1 y2 x1 x2 => Ok (assign_block c y1 y2 x1 x2 b)
  | Row py x1 x2 => assign_row c py x1 x2 b
  end.

Fixpoint perform_all (c : color) (l : list store) (b : grid)
  : outcome grid :=
  match l with
  | [] => Ok b
  | s :: t => perform c b s >>= perform_all c t
  end.

(** [range(lo, hi)]. *)
Definition range (lo hi : Z) : list Z :=
  map (fun i => lo + Z.of_nat i) (seq 0 (Z.to_nat (hi - lo))).

(** [range(hi, lo - 1, -1)]: from [hi] down to [lo]. *)
Definition range_down (hi lo : Z) : list Z :=
  map (fun i => hi - Z.of_nat i) (seq 0 (Z.to_nat (hi - lo + 1))).

(* ===================================================================== *)
(** ** Rasterizer: rounded rectangle (new/roboeyes_fast.py, 463-538)      *)
(* ===================================================================== *)

(** The corner tags ['tl'], ['tr'], ['bl'], ['br']. *)
Inductive corner : Set := TL | TR | BL | BR.

(** [if x2 > x1 and y2 > y1: self.buffer[y1:y2, x1:x2] = color]. *)
Definition guarded_block (y1 y2 x1 x2 : Z) : list store :=
  if (x2 >? x1) && (y2 >? y1) then [Block y1 y2 x1 x2] else [].

(** One iteration of the loop of [_draw_circle_corner], for the radii of
    the engine: [int(np.sqrt(n))] is taken to be the integer square root
    [Z.sqrt n], which it is for [0 <= n < 2 ** 52], that is for a radius
    below [2 ** 26].  Beyond that the double rounds, and from [2 ** 64] on
    [np.sqrt] raises: [corner_scanline_run] below is the iteration with
    these. *)
Definition corner_scanline (W H cx cy r : Z) (k : corner) (dy : Z)
  : list store :=
  let py := cy + dy in
  if (py <? 0) || (py >=? H) then []
  else
    let dx_max := Z.sqrt (Z.max 0 (r * r - dy * dy)) in
    let '(x_start, x_end) :=
      match k with
      | TL => (Z.max 0 (cx - dx_max), Z.min W (cx + 1))
      | TR => (Z.max 0 cx, Z.min W (cx + dx_max + 1))
      | BL => (Z.max 0 (cx - dx_max), Z.min W (cx + 1))
      | BR => (Z.max 0 cx, Z.min W (cx + dx_max + 1))
      end in
    if x_end >? x_start then [Row py x_start x_end] else [].

(** [_draw_circle_corner]: the assignments it executes, in order, when the
    root is the integer root. *)
Definition _draw_circle_corner (W H cx cy r : Z) (k : corner) : list store :=
  flat_map (corner_scanline W H cx cy r k) (range (- r) (r + 1)).

(** The radius [draw_rounded_rect] works with: [r = min(r, w // 2, h // 2)]. *)
Definition clamp_radius (w h r : Z) : Z := Z.min (Z.min r (w / 2)) (h / 2).

(** [draw_rounded_rect]: the assignments it executes, in order, on a screen
    of [W] by [H] pixels, when the root is the integer root
    ([draw_rounded_rect_run_exact] below: a clamped radius below
    [2 ** 26]).  The engine draws with these. *)
Definition draw_rounded_rect_stores (W H x y w h r : Z) : list store :=
  let r := clamp_radius w h r in
  if (r <=? 0) || (w <=? 0) || (h <=? 0) then
    guarded_block (Z.max 0 y) (Z.min H (y + h)) (Z.max 0 x) (Z.min W (x + w))
  else
    guarded_block (Z.max 0 y) (Z.min H (y + r))
                  (Z.max 0 (x + r)) (Z.min W (x + w - r))
    ++ guarded_block (Z.max 0 (y + r)) (Z.min H (y + h - r))
                     (Z.max 0 x) (Z.min W (x + w))
    ++ guarded_block (Z.max 0 (y + h - r)) (Z.min H (y + h))
                     (Z.max 0 (x + r)) (Z.min W (x + w - r))
    ++ _draw_circle_corner W H (x + r) (y + r) r TL
    ++ _draw_circle_corner W H (x + w - r) (y + r) r TR
    ++ _draw_circle_corner W H (x + r) (y + h - r) r BL
    ++ _draw_circle_corner W H (x + w - r) (y + h - r) r BR.

(* ===================================================================== *)
(** ** Rasterizer: triangle (new/roboeyes_fast.py, 540-602)               *)
(* ===================================================================== *)

(** The double-precision operations the rasterizer uses.  What is proved
    over this interface holds for every implementation of the operations,
    IEEE rounding included.  [milli] is the literal [0.001]; the arithmetic
    ([+], [-], [*], [/] by a divisor that is not zero) never raises, it
    overflows to an infinity.  The two conversions do raise:
    - [float(z)], implicit where an [int] meets a [float], raises
      [OverflowError] unless [converts z]; [of_int z] is its value when it
      returns;
    - [int(f)] raises [ValueError] when [nan f] and [OverflowError] when
      [infinite f]; [trunc f] is its value when it returns.
    [isqrt n] is [int(np.sqrt(n))] for a Python integer [0 <= n < 2 ** 64]
    (from [2 ** 64] on [np.sqrt] raises [TypeError], see [int_np_sqrt]). *)
Class FloatOps (F : Type) : Type := {
  of_int : Z -> F;
  fadd : F -> F -> F;
  fsub : F -> F -> F;
  fmul : F -> F -> F;
  fdiv : F -> F -> F;
  trunc : F -> Z;
  milli : F;
  converts : Z -> bool;
  nan : F -> bool;
  infinite : F -> bool;
  isqrt : Z -> Z
}.

(** Exact rational arithmetic, to run the model: no rounding, no infinity
    and no NaN; the integers that convert are those a double can round,
    below [2 ** 1024 - 2 ** 970] in magnitude. *)
Definition Qtrunc (q : Q) : Z := Z.quot (Qnum q) (Zpos (Qden q)).

#[export] Instance QFloat : FloatOps Q := {
  of_int := inject_Z;
  fadd := fun a b => Qred (Qplus a b);
  fsub := fun a b => Qred (Qminus a b);
  fmul := fun a b => Qred (Qmult a b);
  fdiv := fun a b => Qred (Qdiv a b);
  trunc := Qtrunc;
  milli := Qmake 1 1000;
  converts := fun z => Z.abs z <? 2 ^ 1024 - 2 ^ 970;
  nan := fun _ => false;
  infinite := fun _ => false;
  isqrt := Z.sqrt
}.

Section Triangle.
Context {F : Type} {FO : FloatOps F}.

(** Body of the scanline loops: one row, clipped to the screen.  This and
    the definitions that follow, down to [fill_triangle_stores], are the
    triangle of the engine: the assignments executed when no conversion
    raises, the edge positions being floats from the first row on.
    [fill_triangle_run] below is the call with the conversions that
    raise. *)
Definition scanline (W H : Z) (scanlineY : Z) (curx1 curx2 : F)
  : list store :=
  if (0 <=? scanlineY) && (scanlineY <? H) then
    let x_start := Z.max 0 (Z.min (trunc curx1) (trunc curx2)) in
    let x_end := Z.min W (Z.max (trunc curx1) (trunc curx2) + 1) in
    if x_start <? x_end then [Row scanlineY x_start x_end] else []
  else [].

(** The loop over the rows [ys], the two edge positions advancing by
    [step] each row. *)
Fixpoint scanlines (W H : Z) (advance : F -> F -> F) (invslope1 invslope2 : F)
         (ys : list Z) (curx1 curx2 : F) : list store :=
  match ys with
  | [] => []
  | scanlineY :: ys' =>
      scanline W H scanlineY curx1 curx2
        ++ scanlines W H advance invslope1 invslope2 ys'
             (advance curx1 invslope1) (advance curx2 invslope2)
  end.

(** [(a - b) / (c - d + 0.001)]. *)
Definition invslope (a b c d : Z) : F :=
  fdiv (of_int (a - b)) (fadd (of_int (c - d)) milli).

Definition _fill_bottom_flat_triangle (W H x0 y0 x1 y1 x2 y2 : Z)
  : list store :=
  if y1 =? y0 then []
  else
    scanlines W H fadd (invslope x1 x0 y1 y0) (invslope x2 x0 y2 y0)
              (range y0 (y1 + 1)) (of_int x0) (of_int x0).

Definition _fill_top_flat_triangle (W H x0 y0 x1 y1 x2 y2 : Z)
  : list store :=
  if y2 =? y0 then []
  else
    scanlines W H fsub (invslope x2 x0 y2 y0) (invslope x2 x1 y2 y1)
              (range_down y2 y0) (of_int x2) (of_int x2).

(** The three conditional swaps that sort the vertices by [y]. *)
Definition sort_vertices (x0 y0 x1 y1 x2 y2 : Z)
  : (Z * Z) * (Z * Z) * (Z * Z) :=
  let '(x0, y0, x1, y1) :=
    if y0 >? y1 then (x1, y1, x0, y0) else (x0, y0, x1, y1) in
  let '(x0, y0, x2, y2) :=
    if y0 >? y2 then (x2, y2, x0, y0) else (x0, y0, x2, y2) in
  let '(x1, y1, x2, y2) :=
    if y1 >? y2 then (x2, y2, x1, y1) else (x1, y1, x2, y2) in
  ((x0, y0), (x1, y1), (x2, y2)).

(** [fill_triangle]: the assignments it executes, in order, when no
    conversion raises. *)
Definition fill_triangle_stores (W H x0 y0 x1 y1 x2 y2 : Z) : list store :=
  let '((x0, y0), (x1, y1), (x2, y2)) :=
    sort_vertices x0 y0 x1 y1 x2 y2 in
  if y1 =? y2 then _fill_bottom_flat_triangle W H x0 y0 x1 y1 x2 y2
  else if y0 =? y1 then _fill_top_flat_triangle W H x0 y0 x1 y1 x2 y2
  else
    let x3 :=
      trunc (fadd (of_int x0)
                  (fmul (fdiv (of_int (y1 - y0))
                              (fadd (of_int (y2 - y0)) milli))
                        (of_int (x2 - x0)))) in
    let y3 := y1 in
    _fill_bottom_flat_triangle W H x0 y0 x1 y1 x3 y3
      ++ _fill_top_flat_triangle W H x1 y1 x3 y3 x2 y2.

End Triangle.

(* ===================================================================== *)
(** ** Rasterizer: the two calls with the exceptions of their conversions *)
(* ===================================================================== *)

(** What a run of drawing statements did: the buffer assignments it
    executed, in order, and the exception that ended it, if one did. *)
Definition run : Type := (list store * option exn)%type.

Definition completed (l : list store) : run := (l, None).

Definition failed (e : exn) : run := ([], Some e).

(** Sequencing: what follows a statement that raised is not run. *)
Definition and_then (a k : run) : run :=
  match snd a with
  | Some _ => a
  | None => (fst a ++ fst k, snd k)
  end.

(** A [for] loop whose body can raise. *)
Fixpoint for_each {A : Type} (body : A -> run) (l : list A) : run :=
  match l with
  | [] => completed []
  | a :: t => and_then (body a) (for_each body t)
  end.

(** Evaluate an expression that can raise, and go on with its value. *)
Definition attempt {A : Type} (v : exn + A) (k : A -> run) : run :=
  match v with
  | inl e => failed e
  | inr a => k a
  end.

(** The run on a buffer: the assignments, then the exception. *)
Definition perform_run (c : color) (r : run) (b : grid) : outcome grid :=
  match perform_all c (fst r) b with
  | Ok b' =>
      match snd r with
      | None => Ok b'
      | Some e => Raise e b'
      end
  | Raise e b' => Raise e b'
  end.

(** The exceptions of the conversions between [int] and [float]. *)
Definition conversion_error (e : exn) : Prop :=
  e = OverflowError \/ e = ValueError.

(** Every assignment of the run satisfies [P], and the exception that
    ended it, if one did, satisfies [Q]. *)
Definition run_within (P : store -> Prop) (Q : exn -> Prop) (r : run)
  : Prop :=
  Forall P (fst r) /\ forall e, snd r = Some e -> Q e.

Section Calls.
Context {F : Type} {FO : FloatOps F}.

(** [int(np.sqrt(n))] on a Python integer [n >= 0].  NumPy takes an
    integer below [2 ** 64] as an [int64] or [uint64] and its root as a
    double; a larger one becomes an object, for which [np.sqrt] has no
    loop: [TypeError]. *)
Definition int_np_sqrt (n : Z) : exn + Z :=
  if n <? 2 ^ 64 then inr (isqrt n) else inl TypeError.

(** One iteration of the loop of [_draw_circle_corner]: a row off the
    screen is skipped before the root is taken. *)
Definition corner_scanline_run (W H cx cy r : Z) (k : corner) (dy : Z)
  : run :=
  let py := cy + dy in
  if (py <? 0) || (py >=? H) then completed []
  else
    attempt (int_np_sqrt (Z.max 0 (r * r - dy * dy))) (fun dx_max =>
      let '(x_start, x_end) :=
        match k with
        | TL => (Z.max 0 (cx - dx_max), Z.min W (cx + 1))
        | TR => (Z.max 0 cx, Z.min W (cx + dx_max + 1))
        | BL => (Z.max 0 (cx - dx_max), Z.min W (cx + 1))
        | BR => (Z.max 0 cx, Z.min W (cx + dx_max + 1))
        end in
      completed (if x_end >? x_start then [Row py x_start x_end] else [])).

(** [_draw_circle_corner]. *)
Definition _draw_circle_corner_run (W H cx cy r : Z) (k : corner) : run :=
  for_each (corner_scanline_run W H cx cy r k) (range (- r) (r + 1)).

(** [draw_rounded_rect], on a screen of [W] by [H] pixels. *)
Definition draw_rounded_rect_run (W H x y w h r : Z) : run :=
  let r := clamp_radius w h r in
  if (r <=? 0) || (w <=? 0) || (h <=? 0) then
    completed
      (guarded_block (Z.max 0 y) (Z.min H (y + h))
                     (Z.max 0 x) (Z.min W (x + w)))
  else
    and_then
      (completed
         (guarded_block (Z.max 0 y) (Z.min H (y + r))
                        (Z.max 0 (x + r)) (Z.min W (x + w - r))
          ++ guarded_block (Z.max 0 (y + r)) (Z.min H (y + h - r))
                           (Z.max 0 x) (Z.min W (x + w))
          ++ guarded_block (Z.max 0 (y + h - r)) (Z.min H (y + h))
                           (Z.max 0 (x + r)) (Z.min W (x + w - r))))
      (and_then (_draw_circle_corner_run W H (x + r) (y + r) r TL)
      (and_then (_draw_circle_corner_run W H (x + w - r) (y + r) r TR)
      (and_then (_draw_circle_corner_run W H (x + r) (y + h - r) r BL)
                (_draw_circle_corner_run W H (x + w - r) (y + h - r) r BR)))).

(** [draw_rounded_rect] as a method on the buffer. *)
Definition draw_rounded_rect (W H : Z) (b : grid) (x y w h r : Z) (c : color)
  : outcome grid :=
  perform_run c (draw_rounded_rect_run W H x y w h r) b.

(** [float(z)], where an [int] operand meets a [float] one. *)
Definition to_float (z : Z) : exn + F :=
  if converts z then inr (of_int z) else inl OverflowError.

(** [int(f)] on a float. *)
Definition to_int (f : F) : exn + Z :=
  if nan f then inl ValueError
  else if infinite f then inl OverflowError
  else inr (trunc f).

(** What [curx1] and [curx2] hold: the [int] of a vertex coordinate until
    the first [+=] or [-=] of a slope, a [float] from then on. *)
Inductive number : Type :=
| Int (z : Z)
| Float (f : F).

(** [int(curx)]. *)
Definition int_of (n : number) : exn + Z :=
  match n with
  | Int z => inr z
  | Float f => to_int f
  end.

(** [curx += invslope] and [curx -= invslope]. *)
Definition advance_by (op : F -> F -> F) (n : number) (invslope : F)
  : exn + number :=
  match n with
  | Int z =>
      match to_float z with
      | inl e => inl e
      | inr f => inr (Float (op f invslope))
      end
  | Float f => inr (Float (op f invslope))
  end.

(** Body of the scanline loops, down to the assignment: the conversions
    are made on the rows of the screen only. *)
Definition scanline_run (W H : Z) (scanlineY : Z) (curx1 curx2 : number)
  : run :=
  if (0 <=? scanlineY) && (scanlineY <? H) then
    attempt (int_of curx1) (fun a =>
    attempt (int_of curx2) (fun b =>
      let x_start := Z.max 0 (Z.min a b) in
      let x_end := Z.min W (Z.max a b + 1) in
      completed (if x_start <? x_end then [Row scanlineY x_start x_end]
                 else [])))
  else completed [].

(** The loop over the rows [ys]: the row, then the two edge positions
    advance, on every row, the last one included. *)
Fixpoint scanlines_run (W H : Z) (op : F -> F -> F) (invslope1 invslope2 : F)
         (ys : list Z) (curx1 curx2 : number) : run :=
  match ys with
  | [] => completed []
  | scanlineY :: ys' =>
      and_then (scanline_run W H scanlineY curx1 curx2)
        (match advance_by op curx1 invslope1 with
         | inl e => failed e
         | inr curx1' =>
             match advance_by op curx2 invslope2 with
             | inl e => failed e
             | inr curx2' =>
                 scanlines_run W H op invslope1 invslope2 ys' curx1' curx2'
             end
         end)
  end.

(** [(a - b) / (c - d + 0.001)]: the divisor is converted first. *)
Definition invslope_run (a b c d : Z) : exn + F :=
  match to_float (c - d) with
  | inl e => inl e
  | inr den =>
      match to_float (a - b) with
      | inl e => inl e
      | inr num => inr (fdiv num (fadd den milli))
      end
  end.

Definition _fill_bottom_flat_triangle_run (W H x0 y0 x1 y1 x2 y2 : Z) : run :=
  if y1 =? y0 then completed []
  else
    attempt (invslope_run x1 x0 y1 y0) (fun invslope1 =>
    attempt (invslope_run x2 x0 y2 y0) (fun invslope2 =>
      scanlines_run W H fadd invslope1 invslope2
                    (range y0 (y1 + 1)) (Int x0) (Int x0))).

Definition _fill_top_flat_triangle_run (W H x0 y0 x1 y1 x2 y2 : Z) : run :=
  if y2 =? y0 then completed []
  else
    attempt (invslope_run x2 x0 y2 y0) (fun invslope1 =>
    attempt (invslope_run x2 x1 y2 y1) (fun invslope2 =>
      scanlines_run W H fsub invslope1 invslope2
                    (range_down y2 y0) (Int x2) (Int x2))).

(** [int(x0 + ((y1 - y0) / (y2 - y0 + 0.001)) * (x2 - x0))]. *)
Definition split_x (x0 y0 y1 x2 y2 : Z) : exn + Z :=
  match to_float (y2 - y0) with
  | inl e => inl e
  | inr den =>
      match to_float (y1 - y0) with
      | inl e => inl e
      | inr num =>
          match to_float (x2 - x0) with
          | inl e => inl e
          | inr dx =>
              match to_float x0 with
              | inl e => inl e
              | inr fx0 =>
                  to_int (fadd fx0 (fmul (fdiv num (fadd den milli)) dx))
              end
          end
      end
  end.

(** [fill_triangle]. *)
Definition fill_triangle_run (W H x0 y0 x1 y1 x2 y2 : Z) : run :=
  let '((x0, y0), (x1, y1), (x2, y2)) :=
    sort_vertices x0 y0 x1 y1 x2 y2 in
  if y1 =? y2 then _fill_bottom_flat_triangle_run W H x0 y0 x1 y1 x2 y2
  else if y0 =? y1 then _fill_top_flat_triangle_run W H x0 y0 x1 y1 x2 y2
  else
    attempt (split_x x0 y0 y1 x2 y2) (fun x3 =>
      let y3 := y1 in
      and_then (_fill_bottom_flat_triangle_run W H x0 y0 x1 y1 x3 y3)
               (_fill_top_flat_triangle_run W H x1 y1 x3 y3 x2 y2)).

(** [fill_triangle] as a method on the buffer. *)
Definition fill_triangle (W H : Z) (b : grid) (x0 y0 x1 y1 x2 y2 : Z)
           (c : color) : outcome grid :=
  perform_run c (fill_triangle_run W H x0 y0 x1 y1 x2 y2) b.

End Calls.

(* ===================================================================== *)
(** ** Sequence scheduler (roboeyes.py, 51-127)                           *)
(* ===================================================================== *)

Section Scheduler.
(** The engine the sequences belong to; a callback receives it and may
    mutate it or raise. *)
Variable Owner : Type.

(** A step.  Its back reference [owner_seq] is not stored: the two things
    read through it, the start time of the sequence and the owning engine,
    are handed to [StepData_update]. *)
Record StepData : Type := {
  done : bool;
  ms_timing : Z;
  callback : Owner -> outcome Owner
}.

(** A sequence; [_start] is [None] until [start()] stamps the clock.  The
    [name] is never read and the [owner] is handed to [update]. *)
Record Sequence : Type := {
  steps : list StepData;
  _start : option Z
}.

Definition fired (s : StepData) : StepData :=
  {| done := true; ms_timing := ms_timing s; callback := callback s |}.

Definition unfired (s : StepData) : StepData :=
  {| done := false; ms_timing := ms_timing s; callback := callback s |}.

(** [StepData.update], called on a step of a sequence started at
    [start]; an exception of the callback leaves before
    [self.done = True]. *)
Definition StepData_update (start ticks : Z) (s : StepData) (o : Owner)
  : outcome (StepData * Owner) :=
  if done s then Ok (s, o)
  else if ticks - start <? ms_timing s then Ok (s, o)
  else
    match callback s o with
    | Ok o' => Ok (fired s, o')
    | Raise e o' => Raise e (s, o')
    end.

(** [for s in self.steps: if not s.done: s.update(ticks)]. *)
Fixpoint update_steps (start ticks : Z) (l : list StepData) (o : Owner)
  : outcome (list StepData * Owner) :=
  match l with
  | [] => Ok ([], o)
  | s :: t =>
      match (if done s then Ok (s, o) else StepData_update start ticks s o) with
      | Ok (s', o') =>
          within (fun r => (s' :: fst r, snd r)) (update_steps start ticks t o')
      | Raise e (s', o') => Raise e (s' :: t, o')
      end
  end.

Definition Sequence_step (ms_timing : Z) (callback : Owner -> outcome Owner)
           (q : Sequence) : Sequence :=
  {| steps := steps q ++ [ {| done := false; ms_timing := ms_timing;
                             callback := callback |} ];
     _start := _start q |}.

(** [start()] stamps the clock value [now]. *)
Definition Sequence_start (now : Z) (q : Sequence) : Sequence :=
  {| steps := steps q; _start := Some now |}.

Definition Sequence_reset (q : Sequence) : Sequence :=
  {| steps := map unfired (steps q); _start := None |}.

(** The [done] property of a sequence. *)
Definition Sequence_done (q : Sequence) : bool :=
  match _start q with
  | None => true
  | Some _ => forallb done (steps q)
  end.

Definition Sequence_update (ticks : Z) (q : Sequence) (o : Owner)
  : outcome (Sequence * Owner) :=
  match _start q with
  | None => Ok (q, o)
  | Some start =>
      within (fun r => ({| steps := fst r; _start := _start q |}, snd r))
             (update_steps start ticks (steps q) o)
  end.

(** [Sequences.update], with [ticks] the clock value it reads. *)
Fixpoint Sequences_update (ticks : Z) (qs : list Sequence) (o : Owner)
  : outcome (list Sequence * Owner) :=
  match qs with
  | [] => Ok ([], o)
  | q :: t =>
      match Sequence_update ticks q o with
      | Ok (q', o') =>
          within (fun r => (q' :: fst r, snd r)) (Sequences_update ticks t o')
      | Raise e (q', o') => Raise e (q' :: t, o')
      end
  end.

Definition Sequences_done (qs : list Sequence) : bool :=
  forallb Sequence_done qs.

(** What the specification says one [update] does: the steps that are
    due and not yet fired ... *)
Definition due (start ticks : Z) (s : StepData) : bool :=
  negb (done s) && negb (ticks - start <? ms_timing s).

(** ... have their callbacks run, in insertion order ... *)
Fixpoint run_callbacks (l : list StepData) (o : Owner) : outcome Owner :=
  match l with
  | [] => Ok o
  | s :: t => callback s o >>= run_callbacks t
  end.

(** ... and are marked fired. *)
Definition mark_due (start ticks : Z) (l : list StepData) : list StepData :=
  map (fun s => if due start ticks s then fired s else s) l.

End Scheduler.

Arguments done {Owner} s.
Arguments ms_timing {Owner} s.
Arguments callback {Owner} s.
Arguments steps {Owner} s.
Arguments _start {Owner} s.
Arguments fired {Owner} s.
Arguments unfired {Owner} s.
Arguments StepData_update {Owner} start ticks s o.
Arguments update_steps {Owner} start ticks l o.
Arguments Sequence_step {Owner} ms_timing callback q.
Arguments Sequence_start {Owner} now q.
Arguments Sequence_reset {Owner} q.
Arguments Sequence_done {Owner} q.
Arguments Sequence_update {Owner} ticks q o.
Arguments Sequences_update {Owner} ticks qs o.
Arguments Sequences_done {Owner} qs.
Arguments due {Owner} start ticks s.
Arguments run_callbacks {Owner} l o.
Arguments mark_due {Owner} start ticks l.

(* ===================================================================== *)
(** ** Engine state (the attributes set by [__init__])                    *)
(* ===================================================================== *)

(** The attributes of a [RoboEyes] / [FastRoboEyes] object, under their
    own names, except [display] (the output device), [last_update] and
    [bgcolor_tuple] / [fgcolor_tuple] (written once, never read) and
    [sequences], which is kept beside the attributes in [Engine] below.
    [buffer] is the NumPy array of new/roboeyes_fast.py and stands for the
    [frame_buffer] image of roboeyes.py. *)
Record RoboEyes : Type := {
  screen_width : Z;
  screen_height : Z;
  bgcolor : color;
  fgcolor : color;
  buffer : grid;
  fps_timer : Z;
  frame_interval : Z;
  _position : (option Z);
  _mood : Z;
  tired : bool;
  angry : bool;
  happy : bool;
  _curious : bool;
  _cyclops : bool;
  eye_l_open : bool;
  eye_r_open : bool;
  space_between_default : Z;
  eye_l_width_default : Z;
  eye_l_height_default : Z;
  eye_r_width_default : Z;
  eye_r_height_default : Z;
  eye_l_border_radius_default : Z;
  eye_r_border_radius_default : Z;
  eye_l_width_current : Z;
  eye_l_height_current : Z;
  eye_r_width_current : Z;
  eye_r_height_current : Z;
  eye_l_border_radius_current : Z;
  eye_r_border_radius_current : Z;
  space_between_current : Z;
  eye_l_width_next : Z;
  eye_l_height_next : Z;
  eye_r_width_next : Z;
  eye_r_height_next : Z;
  eye_l_border_radius_next : Z;
  eye_r_border_radius_next : Z;
  space_between_next : Z;
  eye_l_height_offset : Z;
  eye_r_height_offset : Z;
  eye_l_x_default : Z;
  eye_l_y_default : Z;
  eye_l_x : Z;
  eye_l_y : Z;
  eye_l_x_next : Z;
  eye_l_y_next : Z;
  eye_r_x_default : Z;
  eye_r_y_default : Z;
  eye_r_x : Z;
  eye_r_y : Z;
  eye_r_x_next : Z;
  eye_r_y_next : Z;
  eyelids_height_max : Z;
  eyelids_tired_height : Z;
  eyelids_tired_height_next : Z;
  eyelids_angry_height : Z;
  eyelids_angry_height_next : Z;
  eyelids_happy_bottom_offset : Z;
  eyelids_happy_bottom_offset_next : Z;
  h_flicker : bool;
  h_flicker_amplitude : Z;
  h_flicker_alternate : bool;
  v_flicker : bool;
  v_flicker_amplitude : Z;
  v_flicker_alternate : bool;
  autoblinker : bool;
  blink_interval : Z;
  blink_interval_variation : Z;
  blink_timer : Z;
  idle : bool;
  idle_interval : Z;
  idle_interval_variation : Z;
  idle_animation_timer : Z;
  _confused : bool;
  confused_animation_timer : Z;
  confused_animation_duration : Z;
  confused_toggle : bool;
  _laugh : bool;
  laugh_animation_timer : Z;
  laugh_animation_duration : Z;
  laugh_toggle : bool
}.

(** [self.attr = v]: the object with the attribute [attr] replaced and every
    other attribute kept.  The setter is read off the constructor: in
    [Build_RoboEyes x1 .. xn] the argument that [attr] projects is
    replaced by [v]. *)
Definition subject (s : RoboEyes) : Type := RoboEyes.

Ltac assign attr :=
  let v := fresh "v" in
  let s := fresh "s" in
  intros v s;
  change (subject s);
  destruct s;
  match goal with
  | |- subject ?c =>
      let x := eval cbv beta iota delta [attr] in (attr c) in
      match eval pattern x in c with
      | ?g _ => let t := eval cbv beta in (g v) in exact t
      end
  end.

Definition with_buffer : grid -> RoboEyes -> RoboEyes :=
  ltac:(assign buffer).
Definition with_fps_timer : Z -> RoboEyes -> RoboEyes :=
  ltac:(assign fps_timer).
Definition with_frame_interval : Z -> RoboEyes -> RoboEyes :=
  ltac:(assign frame_interval).
Definition with__position : (option Z) -> RoboEyes -> RoboEyes :=
  ltac:(assign _position).
Definition with__mood : Z -> RoboEyes -> RoboEyes :=
  ltac:(assign _mood).
Definition with_tired : bool -> RoboEyes -> RoboEyes :=
  ltac:(assign tired).
Definition with_angry : bool -> RoboEyes -> RoboEyes :=
  ltac:(assign angry).
Definition with_happy : bool -> RoboEyes -> RoboEyes :=
  ltac:(assign happy).
Definition with__curious : bool -> RoboEyes -> RoboEyes :=
  ltac:(assign _curious).
Definition with__cyclops : bool -> RoboEyes -> RoboEyes :=
  ltac:(assign _cyclops).
Definition with_eye_l_open : bool -> RoboEyes -> RoboEyes :=
  ltac:(assign eye_l_open).
Definition with_eye_r_open : bool -> RoboEyes -> RoboEyes :=
  ltac:(assign eye_r_open).
Definition with_space_between_default : Z -> RoboEyes -> RoboEyes :=
  ltac:(assign space_between_default).
Definition with_eye_l_width_default : Z -> RoboEyes -> RoboEyes :=
  ltac:(assign eye_l_width_default).
Definition with_eye_l_height_default : Z -> RoboEyes -> RoboEyes :=
  ltac:(assign eye_l_height_default).
Definition with_eye_r_width_default : Z -> RoboEyes -> RoboEyes :=
  ltac:(assign eye_r_width_default).
Definition with_eye_r_height_default : Z -> RoboEyes -> RoboEyes :=
  ltac:(assign eye_r_height_default).
Definition with_eye_l_border_radius_default : Z -> RoboEyes -> RoboEyes :=
  ltac:(assign eye_l_border_radius_default).
Definition with_eye_r_border_radius_default : Z -> RoboEyes -> RoboEyes :=
  ltac:(assign eye_r_border_radius_default).
Definition with_eye_l_width_current : Z -> RoboEyes -> RoboEyes :=
  ltac:(assign eye_l_width_current).
Definition with_eye_l_height_current : Z -> RoboEyes -> RoboEyes :=
  ltac:(assign eye_l_height_current).
Definition with_eye_r_width_current : Z -> RoboEyes -> RoboEyes :=
  ltac:(assign eye_r_width_current).
Definition with_eye_r_height_current : Z -> RoboEyes -> RoboEyes :=
  ltac:(assign eye_r_height_current).
Definition with_eye_l_border_radius_current : Z -> RoboEyes -> RoboEyes :=
  ltac:(assign eye_l_border_radius_current).
Definition with_eye_r_border_radius_current : Z -> RoboEyes -> RoboEyes :=
  ltac:(assign eye_r_border_radius_current).
Definition with_space_between_current : Z -> RoboEyes -> RoboEyes :=
  ltac:(assign space_between_current).
Definition with_eye_l_width_next : Z -> RoboEyes -> RoboEyes :=
  ltac:(assign eye_l_width_next).
Definition with_eye_l_height_next : Z -> RoboEyes -> RoboEyes :=
  ltac:(assign eye_l_height_next).
Definition with_eye_r_width_next : Z -> RoboEyes -> RoboEyes :=
  ltac:(assign eye_r_width_next).
Definition with_eye_r_height_next : Z -> RoboEyes -> RoboEyes :=
  ltac:(assign eye_r_height_next).
Definition with_eye_l_border_radius_next : Z -> RoboEyes -> RoboEyes :=
  ltac:(assign eye_l_border_radius_next).
Definition with_eye_r_border_radius_next : Z -> RoboEyes -> RoboEyes :=
  ltac:(assign eye_r_border_radius_next).
Definition with_space_between_next : Z -> RoboEyes -> RoboEyes :=
  ltac:(assign space_between_next).
Definition with_eye_l_height_offset : Z -> RoboEyes -> RoboEyes :=
  ltac:(assign eye_l_height_offset).
Definition with_eye_r_height_offset : Z -> RoboEyes -> RoboEyes :=
  ltac:(assign eye_r_height_offset).
Definition with_eye_l_x : Z -> RoboEyes -> RoboEyes :=
  ltac:(assign eye_l_x).
Definition with_eye_l_y : Z -> RoboEyes -> RoboEyes :=
  ltac:(assign eye_l_y).
Definition with_eye_l_x_next : Z -> RoboEyes -> RoboEyes :=
  ltac:(assign eye_l_x_next).
Definition with_eye_l_y_next : Z -> RoboEyes -> RoboEyes :=
  ltac:(assign eye_l_y_next).
Definition with_eye_r_x : Z -> RoboEyes -> RoboEyes :=
  ltac:(assign eye_r_x).
Definition with_eye_r_y : Z -> RoboEyes -> RoboEyes :=
  ltac:(assign eye_r_y).
Definition with_eye_r_x_next : Z -> RoboEyes -> RoboEyes :=
  ltac:(assign eye_r_x_next).
Definition with_eye_r_y_next : Z -> RoboEyes -> RoboEyes :=
  ltac:(assign eye_r_y_next).
Definition with_eyelids_tired_height : Z -> RoboEyes -> RoboEyes :=
  ltac:(assign eyelids_tired_height).
Definition with_eyelids_tired_height_next : Z -> RoboEyes -> RoboEyes :=
  ltac:(assign eyelids_tired_height_next).
Definition with_eyelids_angry_height : Z -> RoboEyes -> RoboEyes :=
  ltac:(assign eyelids_angry_height).
Definition with_eyelids_angry_height_next : Z -> RoboEyes -> RoboEyes :=
  ltac:(assign eyelids_angry_height_next).
Definition with_eyelids_happy_bottom_offset : Z -> RoboEyes -> RoboEyes :=
  ltac:(assign eyelids_happy_bottom_offset).
Definition with_eyelids_happy_bottom_offset_next : Z -> RoboEyes -> RoboEyes :=
  ltac:(assign eyelids_happy_bottom_offset_next).
Definition with_h_flicker : bool -> RoboEyes -> RoboEyes :=
  ltac:(assign h_flicker).
Definition with_h_flicker_amplitude : Z -> RoboEyes -> RoboEyes :=
  ltac:(assign h_flicker_amplitude).
Definition with_h_flicker_alternate : bool -> RoboEyes -> RoboEyes :=
  ltac:(assign h_flicker_alternate).
Definition with_v_flicker : bool -> RoboEyes -> RoboEyes :=
  ltac:(assign v_flicker).
Definition with_v_flicker_amplitude : Z -> RoboEyes -> RoboEyes :=
  ltac:(assign v_flicker_amplitude).
Definition with_v_flicker_alternate : bool -> RoboEyes -> RoboEyes :=
  ltac:(assign v_flicker_alternate).
Definition with_autoblinker : bool -> RoboEyes -> RoboEyes :=
  ltac:(assign autoblinker).
Definition with_blink_interval : Z -> RoboEyes -> RoboEyes :=
  ltac:(assign blink_interval).
Definition with_blink_interval_variation : Z -> RoboEyes -> RoboEyes :=
  ltac:(assign blink_interval_variation).
Definition with_blink_timer : Z -> RoboEyes -> RoboEyes :=
  ltac:(assign blink_timer).
Definition with_idle : bool -> RoboEyes -> RoboEyes :=
  ltac:(assign idle).
Definition with_idle_interval : Z -> RoboEyes -> RoboEyes :=
  ltac:(assign idle_interval).
Definition with_idle_interval_variation : Z -> RoboEyes -> RoboEyes :=
  ltac:(assign idle_interval_variation).
Definition with_idle_animation_timer : Z -> RoboEyes -> RoboEyes :=
  ltac:(assign idle_animation_timer).
Definition with__confused : bool -> RoboEyes -> RoboEyes :=
  ltac:(assign _confused).
Definition with_confused_animation_timer : Z -> RoboEyes -> RoboEyes :=
  ltac:(assign confused_animation_timer).
Definition with_confused_toggle : bool -> RoboEyes -> RoboEyes :=
  ltac:(assign confused_toggle).
Definition with__laugh : bool -> RoboEyes -> RoboEyes :=
  ltac:(assign _laugh).
Definition with_laugh_animation_timer : Z -> RoboEyes -> RoboEyes :=
  ltac:(assign laugh_animation_timer).
Definition with_laugh_toggle : bool -> RoboEyes -> RoboEyes :=
  ltac:(assign laugh_toggle).

(* ===================================================================== *)
(** ** Constants and construction                                         *)
(* ===================================================================== *)

Definition DEFAULT : Z := 0.
Definition TIRED : Z := 1.
Definition ANGRY : Z := 2.
Definition HAPPY : Z := 3.
Definition FROZEN : Z := 4.
Definition SCARY : Z := 5.
Definition CURIOUS : Z := 6.
Definition SAD : Z := 7.

(** The direction constants [N, NE, E, SE, S, SW, W, NW = 1 .. 8], in a
    name space of their own ([S] and [N] are taken in Rocq). *)
Module Direction.
Definition N : Z := 1.
Definition NE : Z := 2.
Definition E : Z := 3.
Definition SE : Z := 4.
Definition S : Z := 5.
Definition SW : Z := 6.
Definition W : Z := 7.
Definition NW : Z := 8.
End Direction.

Definition ON : bool := true.
Definition OFF : bool := false.

(** A colour an array of [np.uint8] holds as it is: components within
    [0 .. 255]. *)
Definition uint8 (c : color) : bool :=
  let '(r, g, b) := c in
  (0 <=? r) && (r <=? 255) && (0 <=? g) && (g <=? 255)
  && (0 <=? b) && (b <=? 255).

(** [FastRoboEyes.__init__(display, width, height, frame_rate, bgcolor,
    fgcolor)], for colours that are [uint8] and a buffer that the machine
    has room for.  Allocating the buffer raises on a negative dimension
    and [1000 // frame_rate] raises on a zero frame rate; otherwise the
    object is returned with the eyes closed ([height_current = 1]).  Left
    out: [np.array(colour, dtype=np.uint8)] on a component outside
    [0 .. 255] ([OverflowError] with NumPy 2, wrapped around before), and
    [np.zeros] on dimensions beyond what the machine addresses or holds
    ([ValueError], [MemoryError]). *)
Definition FastRoboEyes_init (width height frame_rate : Z)
           (bg fg : color) : exn + RoboEyes :=
  if (width <? 0) || (height <? 0) then inl ValueError
  else if frame_rate =? 0 then inl ZeroDivisionError
  else
    let eye_l_x_0 := Z.quot (width - (36 + 10 + 36)) 2 in
    let eye_l_y_0 := Z.quot (height - 36) 2 in
    let eye_r_x_0 := eye_l_x_0 + 36 + 10 in
    inr {|
      screen_width := width;
      screen_height := height;
      bgcolor := bg;
      fgcolor := fg;
      buffer := repeat (repeat bg (Z.to_nat width)) (Z.to_nat height);
      fps_timer := 0;
      frame_interval := 1000 / frame_rate;
      _position := Some 0;
      _mood := DEFAULT;
      tired := false;
      angry := false;
      happy := false;
      _curious := false;
      _cyclops := false;
      eye_l_open := false;
      eye_r_open := false;
      space_between_default := 10;
      eye_l_width_default := 36;
      eye_l_height_default := 36;
      eye_r_width_default := 36;
      eye_r_height_default := 36;
      eye_l_border_radius_default := 8;
      eye_r_border_radius_default := 8;
      eye_l_width_current := 36;
      eye_l_height_current := 1;
      eye_r_width_current := 36;
      eye_r_height_current := 1;
      eye_l_border_radius_current := 8;
      eye_r_border_radius_current := 8;
      space_between_current := 10;
      eye_l_width_next := 36;
      eye_l_height_next := 36;
      eye_r_width_next := 36;
      eye_r_height_next := 36;
      eye_l_border_radius_next := 8;
      eye_r_border_radius_next := 8;
      space_between_next := 10;
      eye_l_height_offset := 0;
      eye_r_height_offset := 0;
      eye_l_x_default := eye_l_x_0;
      eye_l_y_default := eye_l_y_0;
      eye_l_x := eye_l_x_0;
      eye_l_y := eye_l_y_0;
      eye_l_x_next := eye_l_x_0;
      eye_l_y_next := eye_l_y_0;
      eye_r_x_default := eye_r_x_0;
      eye_r_y_default := eye_l_y_0;
      eye_r_x := eye_r_x_0;
      eye_r_y := eye_l_y_0;
      eye_r_x_next := eye_r_x_0;
      eye_r_y_next := eye_l_y_0;
      eyelids_height_max := Z.quot 36 2;
      eyelids_tired_height := 0;
      eyelids_tired_height_next := 0;
      eyelids_angry_height := 0;
      eyelids_angry_height_next := 0;
      eyelids_happy_bottom_offset := 0;
      eyelids_happy_bottom_offset_next := 0;
      h_flicker := false;
      h_flicker_amplitude := 0;
      h_flicker_alternate := false;
      v_flicker := false;
      v_flicker_amplitude := 0;
      v_flicker_alternate := false;
      autoblinker := false;
      blink_interval := 3;
      blink_interval_variation := 2;
      blink_timer := 0;
      idle := false;
      idle_interval := 1;
      idle_interval_variation := 3;
      idle_animation_timer := 0;
      _confused := false;
      confused_animation_timer := 0;
      confused_animation_duration := 500;
      confused_toggle := true;
      _laugh := false;
      laugh_animation_timer := 0;
      laugh_animation_duration := 500;
      laugh_toggle := true
    |}.

(* ===================================================================== *)
(** ** Mutators (roboeyes.py, 290-497)                                    *)
(* ===================================================================== *)

Definition set_framerate (fps : Z) (s : RoboEyes) : outcome RoboEyes :=
  if fps =? 0 then Raise ZeroDivisionError s
  else Ok (with_frame_interval (1000 / fps) s).

Definition eyes_width (left_eye right_eye : option Z) (s : RoboEyes)
  : RoboEyes :=
  let s := match left_eye with
           | Some v => with_eye_l_width_default v (with_eye_l_width_next v s)
           | None => s
           end in
  match right_eye with
  | Some v => with_eye_r_width_default v (with_eye_r_width_next v s)
  | None => s
  end.

Definition eyes_height (left_eye right_eye : option Z) (s : RoboEyes)
  : RoboEyes :=
  let s := match left_eye with
           | Some v => with_eye_l_height_default v (with_eye_l_height_next v s)
           | None => s
           end in
  match right_eye with
  | Some v => with_eye_r_height_default v (with_eye_r_height_next v s)
  | None => s
  end.

Definition eyes_radius (left_eye right_eye : option Z) (s : RoboEyes)
  : RoboEyes :=
  let s := match left_eye with
           | Some v =>
               with_eye_l_border_radius_default v
                 (with_eye_l_border_radius_next v s)
           | None => s
           end in
  match right_eye with
  | Some v =>
      with_eye_r_border_radius_default v (with_eye_r_border_radius_next v s)
  | None => s
  end.

Definition eyes_spacing (space : Z) (s : RoboEyes) : RoboEyes :=
  with_space_between_default space (with_space_between_next space s).

(** The [mood] property setter. *)
Definition mood_setter (value : Z) (s : RoboEyes) : RoboEyes :=
  let s := with__mood value s in
  let s := with_tired (value =? TIRED) s in
  let s := with_angry (value =? ANGRY) s in
  with_happy (value =? HAPPY) s.

Definition set_curious (value : bool) (s : RoboEyes) : RoboEyes :=
  with__curious value s.

Definition set_cyclops (value : bool) (s : RoboEyes) : RoboEyes :=
  with__cyclops value s.

Definition horiz_flicker (enable : bool) (amplitude : option Z) (s : RoboEyes)
  : RoboEyes :=
  let s := with_h_flicker enable s in
  match amplitude with
  | Some a => with_h_flicker_amplitude a s
  | None => s
  end.

Definition vert_flicker (enable : bool) (amplitude : option Z) (s : RoboEyes)
  : RoboEyes :=
  let s := with_v_flicker enable s in
  match amplitude with
  | Some a => with_v_flicker_amplitude a s
  | None => s
  end.

Definition get_screen_constraint_x (s : RoboEyes) : Z :=
  screen_width s - eye_l_width_current s - space_between_current s
  - eye_r_width_current s.

Definition get_screen_constraint_y (s : RoboEyes) : Z :=
  screen_height s - eye_l_height_default s.

Definition set_auto_blinker (active : bool) (interval variation : option Z)
           (s : RoboEyes) : RoboEyes :=
  let s := with_autoblinker active s in
  let s := match interval with
           | Some i => with_blink_interval i s
           | None => s
           end in
  match variation with
  | Some v => with_blink_interval_variation v s
  | None => s
  end.

Definition set_idle_mode (active : bool) (interval variation : option Z)
           (s : RoboEyes) : RoboEyes :=
  let s := with_idle active s in
  let s := match interval with
           | Some i => with_idle_interval i s
           | None => s
           end in
  match variation with
  | Some v => with_idle_interval_variation v s
  | None => s
  end.

(** The [position] property setter; [direction] is [None] for Python's
    [None] and [Some d] for an integer. *)
Definition position_setter (direction : option Z) (s : RoboEyes) : RoboEyes :=
  let max_x := get_screen_constraint_x s in
  let max_y := get_screen_constraint_y s in
  let target x y := with_eye_l_y_next y (with_eye_l_x_next x s) in
  let dir d := match direction with Some v => v =? d | None => false end in
  let s :=
    if dir Direction.N then target (max_x / 2) 0
    else if dir Direction.NE then target max_x 0
    else if dir Direction.E then target max_x (max_y / 2)
    else if dir Direction.SE then target max_x max_y
    else if dir Direction.S then target (max_x / 2) max_y
    else if dir Direction.SW then target 0 max_y
    else if dir Direction.W then target 0 (max_y / 2)
    else if dir Direction.NW then target 0 0
    else target (max_x / 2) (max_y / 2) in
  with__position direction s.

(** An optional [left]/[right] argument is [None] when omitted and
    [Some b] when the Boolean [b] ([ON]/[OFF]) is passed. *)
Definition given (a : option bool) : bool :=
  match a with
  | Some _ => true
  | None => false
  end.

(** Python truth value of such an argument. *)
Definition truthy (a : option bool) : bool :=
  match a with
  | Some b => b
  | None => false
  end.

Definition close (left right : option bool) (s : RoboEyes) : RoboEyes :=
  if negb (given left) && negb (given right) then
    let s := with_eye_l_height_next 1 s in
    let s := with_eye_r_height_next 1 s in
    let s := with_eye_l_open false s in
    with_eye_r_open false s
  else
    let s := if given left
             then with_eye_l_open false (with_eye_l_height_next 1 s)
             else s in
    if given right
    then with_eye_r_open false (with_eye_r_height_next 1 s)
    else s.

Definition open (left right : option bool) (s : RoboEyes) : RoboEyes :=
  if negb (given left) && negb (given right) then
    with_eye_r_open true (with_eye_l_open true s)
  else
    let s := if given left then with_eye_l_open true s else s in
    if given right then with_eye_r_open true s else s.

Definition blink (left right : option bool) (s : RoboEyes) : RoboEyes :=
  if negb (given left) && negb (given right) then
    open None None (close None None s)
  else
    open left right (close left right s).

Definition confuse (s : RoboEyes) : RoboEyes := with__confused true s.

Definition laugh (s : RoboEyes) : RoboEyes := with__laugh true s.

(** [if not (left or right): raise ValueError(...)], then the three
    statements. *)
Definition wink (left right : option bool) (s : RoboEyes) : outcome RoboEyes :=
  if negb (truthy left || truthy right) then Raise ValueError s
  else
    let s := with_autoblinker false s in
    let s := with_idle false s in
    Ok (blink left right s).

(* ===================================================================== *)
(** ** The tick: [draw_eyes] (roboeyes.py, 503-708)                       *)
(* ===================================================================== *)

(** The values the four [random.randint] calls of one tick draw from the
    generator; [randint a b] maps a raw value into [a .. b]. *)
Record dice : Set := {
  blink_roll : Z;
  idle_x_roll : Z;
  idle_y_roll : Z;
  idle_roll : Z
}.

(** [random.randint(a, b)]: [None] stands for the [ValueError] of an empty
    range ([b < a]). *)
Definition randint (a b roll : Z) : option Z :=
  if b <? a then None else Some (a + roll mod (b - a + 1)).

(** Lines 511-526: curious mode. *)
Definition curious_offsets (s : RoboEyes) : RoboEyes :=
  if _curious s then
    let s :=
      if eye_l_x_next s <=? 10 then with_eye_l_height_offset 8 s
      else if (eye_l_x_next s >=? get_screen_constraint_x s - 10)
              && _cyclops s
           then with_eye_l_height_offset 8 s
           else with_eye_l_height_offset 0 s in
    if eye_r_x_next s >=? screen_width s - eye_r_width_current s - 10
    then with_eye_r_height_offset 8 s
    else with_eye_r_height_offset 0 s
  else
    with_eye_r_height_offset 0 (with_eye_l_height_offset 0 s).

(** Lines 528-535: heights, and the vertical re-centring. *)
Definition interpolate_heights (s : RoboEyes) : RoboEyes :=
  let s := with_eye_l_height_current
             ((eye_l_height_current s + eye_l_height_next s
               + eye_l_height_offset s) / 2) s in
  let s := with_eye_l_y
             (eye_l_y s
              + (eye_l_height_default s - eye_l_height_current s) / 2) s in
  let s := with_eye_l_y (eye_l_y s - eye_l_height_offset s / 2) s in
  let s := with_eye_r_height_current
             ((eye_r_height_current s + eye_r_height_next s
               + eye_r_height_offset s) / 2) s in
  let s := with_eye_r_y
             (eye_r_y s
              + (eye_r_height_default s - eye_r_height_current s) / 2) s in
  with_eye_r_y (eye_r_y s - eye_r_height_offset s / 2) s.

(** Lines 537-544: open the eyes again once they have closed. *)
Definition reopen (s : RoboEyes) : RoboEyes :=
  let s :=
    if eye_l_open s then
      if eye_l_height_current s <=? 1 + eye_l_height_offset s
      then with_eye_l_height_next (eye_l_height_default s) s
      else s
    else s in
  if eye_r_open s then
    if eye_r_height_current s <=? 1 + eye_r_height_offset s
    then with_eye_r_height_next (eye_r_height_default s) s
    else s
  else s.

(** Lines 546-564: widths, spacing, positions, border radius. *)
Definition interpolate_geometry (s : RoboEyes) : RoboEyes :=
  let s := with_eye_l_width_current
             ((eye_l_width_current s + eye_l_width_next s) / 2) s in
  let s := with_eye_r_width_current
             ((eye_r_width_current s + eye_r_width_next s) / 2) s in
  let s := with_space_between_current
             ((space_between_current s + space_between_next s) / 2) s in
  let s := with_eye_l_x ((eye_l_x s + eye_l_x_next s) / 2) s in
  let s := with_eye_l_y ((eye_l_y s + eye_l_y_next s) / 2) s in
  let s := with_eye_r_x_next
             (eye_l_x_next s + eye_l_width_current s
              + space_between_current s) s in
  let s := with_eye_r_y_next (eye_l_y_next s) s in
  let s := with_eye_r_x ((eye_r_x s + eye_r_x_next s) / 2) s in
  let s := with_eye_r_y ((eye_r_y s + eye_r_y_next s) / 2) s in
  let s := with_eye_l_border_radius_current
             ((eye_l_border_radius_current s
               + eye_l_border_radius_next s) / 2) s in
  with_eye_r_border_radius_current
    ((eye_r_border_radius_current s + eye_r_border_radius_next s) / 2) s.

(** Lines 566-570: the auto blinker. *)
Definition auto_blink (now : Z) (d : dice) (s : RoboEyes) : outcome RoboEyes :=
  if autoblinker s then
    if now - blink_timer s >=? 0 then
      let s := blink None None s in
      match randint 0 (blink_interval_variation s) (blink_roll d) with
      | Some v =>
          Ok (with_blink_timer (now + blink_interval s * 1000 + v * 1000) s)
      | None => Raise ValueError s
      end
    else Ok s
  else Ok s.

(** Lines 572-581: laughing. *)
Definition laugh_macro (now : Z) (s : RoboEyes) : RoboEyes :=
  if _laugh s then
    if laugh_toggle s then
      let s := vert_flicker true (Some 5) s in
      let s := with_laugh_animation_timer now s in
      with_laugh_toggle false s
    else if now - laugh_animation_timer s >=? laugh_animation_duration s then
      let s := vert_flicker false (Some 0) s in
      let s := with_laugh_toggle true s in
      with__laugh false s
    else s
  else s.

(** Lines 583-592: confused. *)
Definition confused_macro (now : Z) (s : RoboEyes) : RoboEyes :=
  if _confused s then
    if confused_toggle s then
      let s := horiz_flicker true (Some 20) s in
      let s := with_confused_animation_timer now s in
      with_confused_toggle false s
    else if now - confused_animation_timer s
            >=? confused_animation_duration s then
      let s := horiz_flicker false (Some 0) s in
      let s := with_confused_toggle true s in
      with__confused false s
    else s
  else s.

(** Lines 594-599: idle mode; each of the three draws can raise. *)
Definition idle_macro (now : Z) (d : dice) (s : RoboEyes) : outcome RoboEyes :=
  if idle s then
    if now - idle_animation_timer s >=? 0 then
      match randint 0 (get_screen_constraint_x s) (idle_x_roll d) with
      | None => Raise ValueError s
      | Some x =>
          let s := with_eye_l_x_next x s in
          match randint 0 (get_screen_constraint_y s) (idle_y_roll d) with
          | None => Raise ValueError s
          | Some y =>
              let s := with_eye_l_y_next y s in
              match randint 0 (idle_interval_variation s) (idle_roll d) with
              | None => Raise ValueError s
              | Some v =>
                  Ok (with_idle_animation_timer
                        (now + idle_interval s * 1000 + v * 1000) s)
              end
          end
      end
    else Ok s
  else Ok s.

(** Lines 601-619: horizontal and vertical flicker. *)
Definition flicker (s : RoboEyes) : RoboEyes :=
  let s :=
    if h_flicker s then
      let s :=
        if h_flicker_alternate s then
          with_eye_r_x (eye_r_x s + h_flicker_amplitude s)
            (with_eye_l_x (eye_l_x s + h_flicker_amplitude s) s)
        else
          with_eye_r_x (eye_r_x s - h_flicker_amplitude s)
            (with_eye_l_x (eye_l_x s - h_flicker_amplitude s) s) in
      with_h_flicker_alternate (negb (h_flicker_alternate s)) s
    else s in
  if v_flicker s then
    let s :=
      if v_flicker_alternate s then
        with_eye_r_y (eye_r_y s + v_flicker_amplitude s)
          (with_eye_l_y (eye_l_y s + v_flicker_amplitude s) s)
      else
        with_eye_r_y (eye_r_y s - v_flicker_amplitude s)
          (with_eye_l_y (eye_l_y s - v_flicker_amplitude s) s) in
    with_v_flicker_alternate (negb (v_flicker_alternate s)) s
  else s.

(** Lines 629-645: eyelid targets from the mood flags. *)
Definition mood_targets (s : RoboEyes) : RoboEyes :=
  let s :=
    if tired s then
      with_eyelids_angry_height_next 0
        (with_eyelids_tired_height_next (eye_l_height_current s / 2) s)
    else with_eyelids_tired_height_next 0 s in
  let s :=
    if angry s then
      with_eyelids_tired_height_next 0
        (with_eyelids_angry_height_next (eye_l_height_current s / 2) s)
    else with_eyelids_angry_height_next 0 s in
  if happy s then
    with_eyelids_happy_bottom_offset_next (eye_l_height_current s / 2) s
  else with_eyelids_happy_bottom_offset_next 0 s.

(** Run the assignments [l] with color [c] on the buffer of the engine. *)
Definition paint (c : color) (l : list store) (s : RoboEyes)
  : outcome RoboEyes :=
  within (fun b => with_buffer b s) (perform_all c l (buffer s)).

(** [self.draw_rounded_rect(x, y, w, h, r, c)] where [draw_eyes] calls
    it: the assignments of the call when the root is the integer root,
    which is the call itself for a clamped radius below [2 ** 26]
    ([draw_rounded_rect_run_exact]). *)
Definition rrect (x y w h r : Z) (c : color) (s : RoboEyes)
  : outcome RoboEyes :=
  paint c (draw_rounded_rect_stores (screen_width s) (screen_height s)
                                    x y w h r) s.

Section Engine.
Context {F : Type} {FO : FloatOps F}.

(** [self.fill_triangle(x0, y0, x1, y1, x2, y2, c)] where [draw_eyes]
    calls it: the assignments of the call when no conversion raises. *)
Definition triangle (x0 y0 x1 y1 x2 y2 : Z) (c : color) (s : RoboEyes)
  : outcome RoboEyes :=
  paint c (fill_triangle_stores (screen_width s) (screen_height s)
                                x0 y0 x1 y1 x2 y2) s.

(** Lines 621-627: the two eyes. *)
Definition draw_eye_shapes (s : RoboEyes) : outcome RoboEyes :=
  rrect (eye_l_x s) (eye_l_y s) (eye_l_width_current s)
        (eye_l_height_current s) (eye_l_border_radius_current s)
        (fgcolor s) s
  >>= fun s =>
    if negb (_cyclops s) then
      rrect (eye_r_x s) (eye_r_y s) (eye_r_width_current s)
            (eye_r_height_current s) (eye_r_border_radius_current s)
            (fgcolor s) s
    else Ok s.

(** Lines 647-666: tired eyelids. *)
Definition tired_eyelids (s : RoboEyes) : outcome RoboEyes :=
  let s := with_eyelids_tired_height
             ((eyelids_tired_height s + eyelids_tired_height_next s) / 2)
             s in
  if negb (_cyclops s) then
    triangle (eye_l_x s) (eye_l_y s - 1)
             (eye_l_x s + eye_l_width_current s) (eye_l_y s - 1)
             (eye_l_x s) (eye_l_y s + eyelids_tired_height s - 1)
             (bgcolor s) s
    >>= fun s =>
      triangle (eye_r_x s) (eye_r_y s - 1)
               (eye_r_x s + eye_r_width_current s) (eye_r_y s - 1)
               (eye_r_x s + eye_r_width_current s)
               (eye_r_y s + eyelids_tired_height s - 1)
               (bgcolor s) s
  else
    triangle (eye_l_x s) (eye_l_y s - 1)
             (eye_l_x s + eye_l_width_current s / 2) (eye_l_y s - 1)
             (eye_l_x s) (eye_l_y s + eyelids_tired_height s - 1)
             (bgcolor s) s
    >>= fun s =>
      triangle (eye_l_x s + eye_l_width_current s / 2) (eye_l_y s - 1)
               (eye_l_x s + eye_l_width_current s) (eye_l_y s - 1)
               (eye_l_x s + eye_l_width_current s)
               (eye_l_y s + eyelids_tired_height s - 1)
               (bgcolor s) s.

(** Lines 668-687: angry eyelids. *)
Definition angry_eyelids (s : RoboEyes) : outcome RoboEyes :=
  let s := with_eyelids_angry_height
             ((eyelids_angry_height s + eyelids_angry_height_next s) / 2)
             s in
  if negb (_cyclops s) then
    triangle (eye_l_x s) (eye_l_y s - 1)
             (eye_l_x s + eye_l_width_current s) (eye_l_y s - 1)
             (eye_l_x s + eye_l_width_current s)
             (eye_l_y s + eyelids_angry_height s - 1)
             (bgcolor s) s
    >>= fun s =>
      triangle (eye_r_x s) (eye_r_y s - 1)
               (eye_r_x s + eye_r_width_current s) (eye_r_y s - 1)
               (eye_r_x s) (eye_r_y s + eyelids_angry_height s - 1)
               (bgcolor s) s
  else
    triangle (eye_l_x s) (eye_l_y s - 1)
             (eye_l_x s + eye_l_width_current s / 2) (eye_l_y s - 1)
             (eye_l_x s + eye_l_width_current s / 2)
             (eye_l_y s + eyelids_angry_height s - 1)
             (bgcolor s) s
    >>= fun s =>
      triangle (eye_l_x s + eye_l_width_current s / 2) (eye_l_y s - 1)
               (eye_l_x s + eye_l_width_current s) (eye_l_y s - 1)
               (eye_l_x s + eye_l_width_current s / 2)
               (eye_l_y s + eyelids_angry_height s - 1)
               (bgcolor s) s.

(** Lines 689-704: happy bottom eyelids. *)
Definition happy_eyelids (s : RoboEyes) : outcome RoboEyes :=
  let s := with_eyelids_happy_bottom_offset
             ((eyelids_happy_bottom_offset s
               + eyelids_happy_bottom_offset_next s) / 2) s in
  rrect (eye_l_x s - 1)
        (eye_l_y s + eye_l_height_current s
         - eyelids_happy_bottom_offset s + 1)
        (eye_l_width_current s + 2) (eye_l_height_default s)
        (eye_l_border_radius_current s) (bgcolor s) s
  >>= fun s =>
    if negb (_cyclops s) then
      rrect (eye_r_x s - 1)
            (eye_r_y s + eye_r_height_current s
             - eyelids_happy_bottom_offset s + 1)
            (eye_r_width_current s + 2) (eye_r_height_default s)
            (eye_r_border_radius_current s) (bgcolor s) s
    else Ok s.

(** Lines 621-704: everything [draw_eyes] does after the flicker. *)
Definition render (s : RoboEyes) : outcome RoboEyes :=
  draw_eye_shapes s
  >>= (fun s => tired_eyelids (mood_targets s))
  >>= angry_eyelids
  >>= happy_eyelids.

(** Lines 511-564: everything between clearing the buffer and the macro
    animations. *)
Definition interpolate (s : RoboEyes) : RoboEyes :=
  interpolate_geometry (reopen (interpolate_heights (curious_offsets s))).

(** [draw_eyes], with [now] the clock value it reads and [d] the values
    its [randint] calls draw.  Handing the frame to [display] is left
    out. *)
Definition draw_eyes (now : Z) (d : dice) (s : RoboEyes) : outcome RoboEyes :=
  auto_blink now d
    (interpolate (with_buffer (clear (bgcolor s) (buffer s)) s))
  >>= (fun s => idle_macro now d (confused_macro now (laugh_macro now s)))
  >>= (fun s => render (flicker s)).

(** [RoboEyes.__init__] of roboeyes.py: the same attributes, then one
    [draw_eyes].  Its drawing goes through PIL, which is not part of the
    sources; the rasterizer of new/roboeyes_fast.py is used in its
    place. *)
Definition RoboEyes_init (width height frame_rate : Z) (bg fg : color)
           (now : Z) (d : dice) : exn + RoboEyes :=
  match FastRoboEyes_init width height frame_rate bg fg with
  | inl e => inl e
  | inr s =>
      match draw_eyes now d s with
      | Ok s' => inr s'
      | Raise e _ => inl e
      end
  end.

(** Successive ticks, one clock value and one set of draws each. *)
Fixpoint run_ticks (inputs : list (Z * dice)) (s : RoboEyes)
  : outcome RoboEyes :=
  match inputs with
  | [] => Ok s
  | (now, d) :: rest => draw_eyes now d s >>= run_ticks rest
  end.

(** The engine with its registered sequences. *)
Record Engine : Type := {
  eyes : RoboEyes;
  sequences : list (Sequence RoboEyes)
}.

(** [update]: [ticks] is the clock value read by [Sequences.update],
    [now] the one read for the frame-rate test, [draw_now] the one read
    inside [draw_eyes]. *)
Definition update (ticks now draw_now : Z) (d : dice) (e : Engine)
  : outcome Engine :=
  match Sequences_update ticks (sequences e) (eyes e) with
  | Raise ex (qs, s) => Raise ex {| eyes := s; sequences := qs |}
  | Ok (qs, s) =>
      if now - fps_timer s >=? frame_interval s then
        within (fun s' => {| eyes := s'; sequences := qs |})
               (draw_eyes draw_now d s
                >>= fun s' => Ok (with_fps_timer now s'))
      else Ok {| eyes := s; sequences := qs |}
  end.

End Engine.

(* ===================================================================== *)
(** ** The public surface, as data                                        *)
(* ===================================================================== *)

(** A call of one public method of the engine object, with its
    arguments (and, for [draw_eyes], the clock value and draws it reads). *)
Inductive call : Type :=
| Call_set_framerate (fps : Z)
| Call_eyes_width (left_eye right_eye : option Z)
| Call_eyes_height (left_eye right_eye : option Z)
| Call_eyes_radius (left_eye right_eye : option Z)
| Call_eyes_spacing (space : Z)
| Call_mood (value : Z)
| Call_set_curious (value : bool)
| Call_set_cyclops (value : bool)
| Call_horiz_flicker (enable : bool) (amplitude : option Z)
| Call_vert_flicker (enable : bool) (amplitude : option Z)
| Call_set_auto_blinker (active : bool) (interval variation : option Z)
| Call_set_idle_mode (active : bool) (interval variation : option Z)
| Call_position (direction : option Z)
| Call_close (left right : option bool)
| Call_open (left right : option bool)
| Call_blink (left right : option bool)
| Call_confuse
| Call_laugh
| Call_wink (left right : option bool)
| Call_draw_eyes (now : Z) (d : dice).

(** What a client does with the engine and its sequences: call a method,
    register a sequence, append a step whose callback is a program of
    method calls, start or reset a sequence, or run [update]. *)
Inductive request : Type :=
| Invoke (c : call)
| Sequences_add
| Step (i : nat) (ms_timing : Z) (program : list call)
| Start (i : nat) (now : Z)
| Reset (i : nat)
| Update (ticks now draw_now : Z) (d : dice).

(** Replace the [i]-th element of [l] by its image under [f]. *)
Fixpoint adjust {A : Type} (f : A -> A) (i : nat) (l : list A) : list A :=
  match l, i with
  | [], _ => []
  | a :: t, O => f a :: t
  | a :: t, Datatypes.S j => a :: adjust f j t
  end.

Section Surface.
Context {F : Type} {FO : FloatOps F}.

Definition perform_call (c : call) (s : RoboEyes) : outcome RoboEyes :=
  match c with
  | Call_set_framerate fps => set_framerate fps s
  | Call_eyes_width l r => Ok (eyes_width l r s)
  | Call_eyes_height l r => Ok (eyes_height l r s)
  | Call_eyes_radius l r => Ok (eyes_radius l r s)
  | Call_eyes_spacing v => Ok (eyes_spacing v s)
  | Call_mood v => Ok (mood_setter v s)
  | Call_set_curious v => Ok (set_curious v s)
  | Call_set_cyclops v => Ok (set_cyclops v s)
  | Call_horiz_flicker en a => Ok (horiz_flicker en a s)
  | Call_vert_flicker en a => Ok (vert_flicker en a s)
  | Call_set_auto_blinker a i v => Ok (set_auto_blinker a i v s)
  | Call_set_idle_mode a i v => Ok (set_idle_mode a i v s)
  | Call_position d => Ok (position_setter d s)
  | Call_close l r => Ok (close l r s)
  | Call_open l r => Ok (open l r s)
  | Call_blink l r => Ok (blink l r s)
  | Call_confuse => Ok (confuse s)
  | Call_laugh => Ok (laugh s)
  | Call_wink l r => wink l r s
  | Call_draw_eyes now d => draw_eyes now d s
  end.

(** A callback written as a sequence of method calls on the engine. *)
Fixpoint perform_calls (program : list call) (s : RoboEyes)
  : outcome RoboEyes :=
  match program with
  | [] => Ok s
  | c :: rest => perform_call c s >>= perform_calls rest
  end.

Definition serve (r : request) (e : Engine) : outcome Engine :=
  match r with
  | Invoke c =>
      within (fun s => {| eyes := s; sequences := sequences e |})
             (perform_call c (eyes e))
  | Sequences_add =>
      Ok {| eyes := eyes e;
            sequences := sequences e ++ [ {| steps := []; _start := None |} ] |}
  | Step i ms program =>
      Ok {| eyes := eyes e;
            sequences :=
              adjust (Sequence_step ms (perform_calls program)) i
                     (sequences e) |}
  | Start i now =>
      Ok {| eyes := eyes e;
            sequences := adjust (Sequence_start now) i (sequences e) |}
  | Reset i =>
      Ok {| eyes := eyes e;
            sequences := adjust Sequence_reset i (sequences e) |}
  | Update ticks now draw_now d => update ticks now draw_now d e
  end.

(** A client session: the requests in order; an uncaught exception
    ends it. *)
Fixpoint serve_all (rs : list request) (e : Engine) : outcome Engine :=
  match rs with
  | [] => Ok e
  | r :: rest => serve r e >>= serve_all rest
  end.

End Surface.

(** At most one of the three mood flags is set. *)
Definition one_mood_at_most (s : RoboEyes) : Prop :=
  (tired s = true -> angry s = false /\ happy s = false)
  /\ (angry s = true -> tired s = false /\ happy s = false)
  /\ (happy s = true -> tired s = false /\ angry s = false).

(* ===================================================================== *)
(** ** Sample inputs                                                      *)
(* ===================================================================== *)

(** A generator whose raw values are all 0. *)
Definition still : dice :=
  {| blink_roll := 0; idle_x_roll := 0; idle_y_roll := 0; idle_roll := 0 |}.

Definition black : color := (0, 0, 0).
Definition light_blue : color := (173, 216, 230).

(** An empty 128x64 buffer. *)
Definition blank : grid := repeat (repeat black 128) 64.

(** A callback on an engine that is a log: it appends its number. *)
Definition note (i : Z) (log : list Z) : outcome (list Z) := Ok (log ++ [i]).

(** A sequence started at clock 1000, with steps due 0, 100 and 50 ms
    later. *)
Definition three_notes : Sequence (list Z) :=
  {| steps := [ {| done := false; ms_timing := 0; callback := note 1 |};
                {| done := false; ms_timing := 100; callback := note 2 |};
                {| done := false; ms_timing := 50; callback := note 3 |} ];
     _start := Some 1000 |}.

(* ===================================================================== *)
(** ** Reduction behaviour                                                *)
(* ===================================================================== *)

(** The methods compute once the object they are applied to is known
    attribute by attribute. *)
Arguments get_screen_constraint_x !s /.
Arguments get_screen_constraint_y !s /.
Arguments eyes_width left_eye right_eye !s /.
Arguments eyes_height left_eye right_eye !s /.
Arguments eyes_radius left_eye right_eye !s /.
Arguments eyes_spacing space !s /.
Arguments mood_setter value !s /.
Arguments set_curious value !s /.
Arguments set_cyclops value !s /.
Arguments horiz_flicker enable amplitude !s /.
Arguments vert_flicker enable amplitude !s /.
Arguments set_auto_blinker active interval variation !s /.
Arguments set_idle_mode active interval variation !s /.
Arguments position_setter direction !s /.
Arguments close left right !s /.
Arguments open left right !s /.
Arguments blink left right !s /.
Arguments confuse !s /.
Arguments laugh !s /.
Arguments wink left right !s /.
Arguments set_framerate fps !s /.
Arguments curious_offsets !s /.
Arguments interpolate_heights !s /.
Arguments reopen !s /.
Arguments interpolate_geometry !s /.
Arguments interpolate !s /.
Arguments auto_blink now d !s /.
Arguments laugh_macro now !s /.
Arguments confused_macro now !s /.
Arguments idle_macro now d !s /.
Arguments flicker !s /.
Arguments mood_targets !s /.
Arguments paint : simpl never.
Arguments rrect : simpl never.
Arguments triangle : simpl never.
Arguments render : simpl never.
Arguments draw_eyes : simpl never.
Arguments clear : simpl never.
Arguments randint : simpl never.

(* ===================================================================== *)
(** ** Vocabulary of the properties, and the tactics of their proofs     *)
(* ===================================================================== *)

(** The buffer has the shape of the screen. *)
Definition wf (s : RoboEyes) : Prop :=
  shaped (screen_height s) (screen_width s) (buffer s).

(** The attributes the rendering half of [draw_eyes] assigns: the buffer
    and the six eyelid values. *)
Definition canvas (b : grid) (t tn a an h hn : Z) (s : RoboEyes) : RoboEyes :=
  with_buffer b
    (with_eyelids_tired_height t
       (with_eyelids_tired_height_next tn
          (with_eyelids_angry_height a
             (with_eyelids_angry_height_next an
                (with_eyelids_happy_bottom_offset h
                   (with_eyelids_happy_bottom_offset_next hn s)))))).

(** [s'] is [s] up to these attributes. *)
Definition repainted (s s' : RoboEyes) : Prop :=
  exists b t tn a an h hn, s' = canvas b t tn a an h hn s.

(** [m] returns, on a buffer that still has the shape of the screen, and
    has changed nothing but the canvas of [s]. *)
Definition paints (s : RoboEyes) (m : outcome RoboEyes) : Prop :=
  exists s', m = Ok s' /\ wf s' /\ repainted s s'.

Ltac eyelid_assignment s :=
  destruct s; cbn;
  repeat match goal with
         | |- context [if ?b then _ else _] => destruct b
         end;
  cbn; unfold canvas; do 7 eexists; reflexivity.

(** Case analysis on the innermost undecided test of the goal. *)
Ltac split_if :=
  match goal with
  | |- context [if ?b then _ else _] =>
      lazymatch b with
      | context [if _ then _ else _] => fail
      | _ => destruct b eqn:?
      end
  | |- context [match randint ?a ?b ?c with _ => _ end] =>
      destruct (randint a b c) eqn:?
  | |- context [match ?x with Some _ => _ | None => _ end] =>
      is_var x; destruct x
  end.

(** Run the methods of the goal on an object given by its attributes. *)
Ltac crunch := cbn; repeat (split_if; cbn).

(** The buffer and the screen size of the state before the macros. *)
Definition cleared (s : RoboEyes) : RoboEyes :=
  with_buffer (clear (bgcolor s) (buffer s)) s.

Arguments cleared !s /.

(** What the specification says a wink does to the eyes: the side(s)
    [left], [right] are told to close and to open again, and nothing else
    changes. *)
Definition blink_side_only (left right : bool) (s : RoboEyes) : RoboEyes :=
  let s := if left
           then with_eye_l_open true (with_eye_l_height_next 1 s)
           else s in
  if right
  then with_eye_r_open true (with_eye_r_height_next 1 s)
  else s.

(** [wink] as the specification words it, for a reading [specified] of
    "a side is specified". *)
Definition wink_as_specified (specified : option bool -> bool)
           (left right : option bool) (s : RoboEyes) : outcome RoboEyes :=
  if negb (specified left || specified right) then Raise ValueError s
  else
    Ok (blink_side_only (specified left) (specified right)
                        (with_idle false (with_autoblinker false s))).

Arguments blink_side_only left right !s /.
Arguments wink_as_specified specified left right !s /.

(** A property [P] of the owner that a callback keeps, returning or
    raising. *)
Definition keeps {Owner : Type} (P : Owner -> Prop)
           (cb : Owner -> outcome Owner) : Prop :=
  forall o, P o -> P (final (cb o)).

(** Every registered callback keeps [P]. *)
Definition callbacks_keep {Owner : Type} (P : Owner -> Prop)
           (qs : list (Sequence Owner)) : Prop :=
  Forall (fun q => Forall (fun st => keeps P (callback st)) (steps q)) qs.

(** The state the flag invariant is carried with. *)
Definition good (s : RoboEyes) : Prop := wf s /\ one_mood_at_most s.

(** A stage that touches neither the buffer nor the mood flags. *)
Ltac flags_untouched :=
  match goal with
  | |- forall s : RoboEyes, _ =>
      let s := fresh "s" in
      let H := fresh "H" in
      intros s; destruct s; unfold wf, one_mood_at_most; cbn;
      intros H; crunch; exact H
  end.

(** The invariant of a client session. *)
Definition sound (e : Engine) : Prop :=
  good (eyes e) /\ callbacks_keep good (sequences e).

(** The relation the specification states between the two targets. *)
Definition right_tracks_left (s : RoboEyes) : Prop :=
  eye_r_x_next s
  = eye_l_x_next s + eye_l_width_current s + space_between_current s
  /\ eye_r_y_next s = eye_l_y_next s.

(** The idle macro picks a new left target in this tick. *)
Definition idle_fires (now : Z) (s : RoboEyes) : Prop :=
  idle s = true /\ 0 <= now - idle_animation_timer s.

Ltac stage_keeps :=
  match goal with
  | |- forall s : RoboEyes, _ =>
      let s := fresh "s" in
      let H := fresh "H" in
      intros s; destruct s; cbn; intros H; crunch; try exact H
  end.

(** The invariant as the specification states it. *)
Definition eye_shape_claim (s : RoboEyes) : Prop :=
  0 <= eye_l_height_current s /\ 0 <= eye_l_width_current s
  /\ eye_l_border_radius_current s
     <= Z.min (eye_l_width_current s) (eye_l_height_current s) / 2
  /\ 0 <= eye_r_height_current s /\ 0 <= eye_r_width_current s
  /\ eye_r_border_radius_current s
     <= Z.min (eye_r_width_current s) (eye_r_height_current s) / 2.

(** Sizes and size targets are non-negative. *)
Definition sizes_nonneg (s : RoboEyes) : Prop :=
  (0 <= eye_l_height_current s /\ 0 <= eye_l_height_next s
   /\ 0 <= eye_l_height_default s
   /\ 0 <= eye_l_width_current s /\ 0 <= eye_l_width_next s)
  /\ (0 <= eye_r_height_current s /\ 0 <= eye_r_height_next s
      /\ 0 <= eye_r_height_default s
      /\ 0 <= eye_r_width_current s /\ 0 <= eye_r_width_next s).

(** What does hold of the eyes: non-negative sizes, and a radius, as
    [draw_rounded_rect] clamps it, of at most half the smaller size. *)
Definition drawn_shape_ok (s : RoboEyes) : Prop :=
  0 <= eye_l_height_current s /\ 0 <= eye_l_width_current s
  /\ 0 <= eye_r_height_current s /\ 0 <= eye_r_width_current s
  /\ clamp_radius (eye_l_width_current s) (eye_l_height_current s)
                  (eye_l_border_radius_current s)
     <= Z.min (eye_l_width_current s) (eye_l_height_current s) / 2
  /\ clamp_radius (eye_r_width_current s) (eye_r_height_current s)
                  (eye_r_border_radius_current s)
     <= Z.min (eye_r_width_current s) (eye_r_height_current s) / 2.

Ltac sizes_stage :=
  match goal with
  | |- forall s : RoboEyes, _ =>
      let s := fresh "s" in
      let H := fresh "H" in
      intros s; destruct s; unfold sizes_nonneg; cbn; intros H; crunch;
      try exact H;
      repeat match goal with
             | |- _ /\ _ => split
             end;
      try lia; try (apply Z.div_pos; lia)
  end.

(** One tick of an eyelid outside curious mode, as the pair (current
    height, target height): the height moves half way to its target
    (floor), and an eye that is to open again gets its default height as
    target once it has closed to 1 or less. *)
Definition lid_step (opening : bool) (default : Z) (lid : Z * Z) : Z * Z :=
  let h := (fst lid + snd lid) / 2 in
  (h, if opening && (h <=? 1) then default else snd lid).

Fixpoint iterate {A : Type} (n : nat) (f : A -> A) (x : A) : A :=
  match n with
  | O => x
  | Datatypes.S k => iterate k f (f x)
  end.

(** Nothing competes with a blink: curious mode, auto blinker and idle mode
    are off. *)
Definition quiet (s : RoboEyes) : Prop :=
  _curious s = false /\ autoblinker s = false /\ idle s = false.

(** The eyes [blink(left, right)] acts on. *)
Definition blinks_left (left right : option bool) : bool :=
  given left || negb (given right).

Definition blinks_right (left right : option bool) : bool :=
  given right || negb (given left).

(** Linear arithmetic with halves: the quotient and remainder of every
    [a / 2] in sight are handed to [lia]. *)
Ltac halve a :=
  lazymatch goal with
  | _ : a = 2 * (a / 2) + a mod 2 |- _ => fail
  | _ =>
      pose proof (Z.div_mod a 2 ltac:(lia));
      pose proof (Z.mod_pos_bound a 2 ltac:(lia))
  end.

Ltac halves :=
  repeat match goal with
         | |- context [?a / 2] => halve a
         | _ : context [?a / 2] |- _ => halve a
         end;
  lia.

(** The attributes a blink is about. *)
Definition lids (s : RoboEyes) : (bool * Z * (Z * Z)) * (bool * Z * (Z * Z)) :=
  ((eye_l_open s, eye_l_height_default s,
    (eye_l_height_current s, eye_l_height_next s)),
   (eye_r_open s, eye_r_height_default s,
    (eye_r_height_current s, eye_r_height_next s))).

(** One tick on them. *)
Definition lids_step (v : (bool * Z * (Z * Z)) * (bool * Z * (Z * Z)))
  : (bool * Z * (Z * Z)) * (bool * Z * (Z * Z)) :=
  let '((ol, dl, l), (or, dr, r)) := v in
  ((ol, dl, lid_step ol dl l), (or, dr, lid_step or dr r)).

Ltac quiet_stage :=
  match goal with
  | |- forall s : RoboEyes, _ =>
      let s := fresh "s" in
      let H := fresh "H" in
      intros s; destruct s; unfold quiet, lids; cbn; intros H; crunch;
      try exact H;
      try (destruct H as ((? & ? & ?) & _); discriminate)
  end.

(** The colour the buffer holds at row [py], column [px]. *)
Definition pixel (b : grid) (py px : Z) : color :=
  nth (Z.to_nat px) (nth (Z.to_nat py) b []) (0, 0, 0).

(** The assignment addresses only rows in [top, bottom) and columns in
    [left, right). *)
Definition inside (top bottom left right : Z) (s : store) : Prop :=
  match s with
  | Block y1 y2 x1 x2 =>
      top <= y1 /\ y2 <= bottom /\ left <= x1 /\ x2 <= right
  | Row py x1 x2 => top <= py < bottom /\ left <= x1 /\ x2 <= right
  end.

(* ===================================================================== *)
(** ** The rectangle of the first NumPy engine (roboeyes_fast.py, 90-104) *)
(* ===================================================================== *)

Module Simple.

(** [FastRoboEyes.draw_rounded_rect] of roboeyes_fast.py, on the integer
    arguments [render] calls it with: [(x, y)] is the centre, and the
    clamped block is assigned in one slice. *)
Definition draw_rounded_rect (W H : Z) (b : grid) (x y w h : Z) (c : color)
  : grid :=
  let x1 := Z.max 0 (x - w / 2) in
  let y1 := Z.max 0 (y - h / 2) in
  let x2 := Z.min W (x + w / 2) in
  let y2 := Z.min H (y + h / 2) in
  if (x2 <=? x1) || (y2 <=? y1) then b
  else assign_block c y1 y2 x1 x2 b.

End Simple.

(* ===================================================================== *)
(** ** Vocabulary of the further properties                               *)
(* ===================================================================== *)

Section SchedulerViews.
Variable Owner : Type.

(** The steps of [q] an update at [ticks] fires: none while [q] is not
    started. *)
Definition pending (ticks : Z) (q : Sequence Owner) : list (StepData Owner) :=
  match _start q with
  | None => []
  | Some start => filter (due start ticks) (steps q)
  end.

(** [q] with these steps marked fired. *)
Definition advanced (ticks : Z) (q : Sequence Owner) : Sequence Owner :=
  match _start q with
  | None => q
  | Some start =>
      {| steps := mark_due start ticks (steps q); _start := Some start |}
  end.

End SchedulerViews.

Arguments pending {Owner} ticks q.
Arguments advanced {Owner} ticks q.

(** The attributes the first half of a tick assigns: curious offsets,
    sizes, positions, radii, and the cleared buffer. *)
Definition smoothed (s : RoboEyes)
           (lo ro lh ly rh ry lhn rhn lw rw sp lx rxn ryn rx lr rr : Z)
           (b : grid) : RoboEyes :=
  with_eye_l_height_offset lo
    (with_eye_r_height_offset ro
       (with_eye_l_height_current lh
          (with_eye_l_y ly
             (with_eye_r_height_current rh
                (with_eye_r_y ry
                   (with_eye_l_height_next lhn
                      (with_eye_r_height_next rhn
                         (with_eye_l_width_current lw
                            (with_eye_r_width_current rw
                               (with_space_between_current sp
                                  (with_eye_l_x lx
                                     (with_eye_r_x_next rxn
                                        (with_eye_r_y_next ryn
                                           (with_eye_r_x rx
                                              (with_eye_l_border_radius_current lr
                                                 (with_eye_r_border_radius_current rr
                                                    (with_buffer b s))))))))))))))))).

Arguments smoothed !s lo ro lh ly rh ry lhn rhn lw rw sp lx rxn ryn rx lr rr b /.

(** Turn the tests in the context into (in)equalities. *)
Ltac decide_tests :=
  repeat match goal with
         | Hc : (_ >=? _) = true |- _ =>
             rewrite Z.geb_leb in Hc; apply Z.leb_le in Hc
         | Hc : (_ >=? _) = false |- _ =>
             rewrite Z.geb_leb in Hc; apply Z.leb_gt in Hc
         | Hc : (_ <=? _) = true |- _ => apply Z.leb_le in Hc
         | Hc : (_ <=? _) = false |- _ => apply Z.leb_gt in Hc
         | Hc : (_ <? _) = true |- _ => apply Z.ltb_lt in Hc
         | Hc : (_ <? _) = false |- _ => apply Z.ltb_ge in Hc
         end.

(** The attributes the auto blinker assigns. *)
Definition blinked (s : RoboEyes) (lhn rhn : Z) (lo ro : bool) (bt : Z)
  : RoboEyes :=
  with_eye_l_height_next lhn
    (with_eye_r_height_next rhn
       (with_eye_l_open lo (with_eye_r_open ro (with_blink_timer bt s)))).

(** The attributes the laugh and confused macros assign. *)
Definition animated (s : RoboEyes) (vf : bool) (va lt : Z) (ltg lg : bool)
           (hf : bool) (ha ct : Z) (ctg cf : bool) : RoboEyes :=
  with_v_flicker vf
    (with_v_flicker_amplitude va
       (with_laugh_animation_timer lt
          (with_laugh_toggle ltg
             (with__laugh lg
                (with_h_flicker hf
                   (with_h_flicker_amplitude ha
                      (with_confused_animation_timer ct
                         (with_confused_toggle ctg
                            (with__confused cf s))))))))).

(** The attributes the flicker assigns. *)
Definition flickered (s : RoboEyes) (lx rx ly ry : Z) (ha va : bool)
  : RoboEyes :=
  with_eye_l_x lx
    (with_eye_r_x rx
       (with_eye_l_y ly
          (with_eye_r_y ry
             (with_h_flicker_alternate ha
                (with_v_flicker_alternate va s))))).

Arguments blinked !s lhn rhn lo ro bt /.
Arguments animated !s vf va lt ltg lg hf ha ct ctg cf /.
Arguments flickered !s lx rx ly ry ha va /.

(** The attributes the confused animation lives in: the request flag, the
    toggle, the timer, the duration, and the horizontal flicker with its
    amplitude. *)
Definition confusion (s : RoboEyes) : bool * bool * Z * Z * (bool * Z) :=
  (_confused s, confused_toggle s, confused_animation_timer s,
   confused_animation_duration s, (h_flicker s, h_flicker_amplitude s)).

(** The same for the laugh animation and the vertical flicker. *)
Definition laughter (s : RoboEyes) : bool * bool * Z * Z * (bool * Z) :=
  (_laugh s, laugh_toggle s, laugh_animation_timer s,
   laugh_animation_duration s, (v_flicker s, v_flicker_amplitude s)).

(** One tick at [now] on these attributes, for a macro that flickers with
    [amplitude]: the first tick switches the flicker on and stamps the
    timer, the first tick [duration] later switches it off again. *)
Definition macro_step (amplitude now : Z) (v : bool * bool * Z * Z * (bool * Z))
  : bool * bool * Z * Z * (bool * Z) :=
  let '(requested, toggle, timer, duration, _) := v in
  if requested then
    if toggle then (true, false, now, duration, (true, amplitude))
    else if now - timer >=? duration
         then (false, true, timer, duration, (false, 0))
         else v
  else v.

Arguments confusion !s /.
Arguments laughter !s /.

(** The box an eye of size [w] by [h] at [(x, y)] is drawn in; the far
    row and column are included ([draw_rounded_rect] reaches them). *)
Definition eye_box (x y w h py px : Z) : Prop :=
  y <= py <= y + h /\ x <= px <= x + w.

(** The pixel lies in the box of an eye that is drawn: the left one, or
    the right one outside cyclops mode. *)
Definition in_an_eye (s : RoboEyes) (py px : Z) : Prop :=
  eye_box (eye_l_x s) (eye_l_y s) (eye_l_width_current s)
          (eye_l_height_current s) py px
  \/ (_cyclops s = false
      /\ eye_box (eye_r_x s) (eye_r_y s) (eye_r_width_current s)
                 (eye_r_height_current s) py px).

(** From [b] to [b'], a pixel of the [(H, W)] screen has kept its colour
    or has got a colour that [allowed] admits at its place. *)
Definition retouched (H W : Z) (allowed : color -> Z -> Z -> Prop)
           (b b' : grid) : Prop :=
  forall py px,
    0 <= py < H -> 0 <= px < W ->
    pixel b' py px = pixel b py px \/ allowed (pixel b' py px) py px.

(** [m] paints (see [paints]) and retouches the buffer of [s] within
    [allowed]. *)
Definition tints (allowed : color -> Z -> Z -> Prop) (s : RoboEyes)
           (m : outcome RoboEyes) : Prop :=
  exists s',
    m = Ok s' /\ wf s' /\ repainted s s'
    /\ retouched (screen_height s) (screen_width s) allowed
                 (buffer s) (buffer s').

(** The colours of a frame: background, or foreground inside an eye. *)
Definition frame_colors (s : RoboEyes) (c : color) (py px : Z) : Prop :=
  c = bgcolor s \/ (c = fgcolor s /\ in_an_eye s py px).

(** The attributes a client configures and a tick only reads: screen and
    colours, frame timing, position and mood with its flags, the modes,
    the default geometry, the targets of the smoothed sizes, and the
    parameters of the auto blinker, idle mode and the two macros. *)
Definition settings (s : RoboEyes) :=
  ((screen_width s, screen_height s, bgcolor s, fgcolor s,
    fps_timer s, frame_interval s),
   (_position s, _mood s, tired s, angry s, happy s, _curious s, _cyclops s),
   (space_between_default s, eye_l_width_default s, eye_l_height_default s,
    eye_r_width_default s, eye_r_height_default s,
    eye_l_border_radius_default s, eye_r_border_radius_default s),
   (eye_l_width_next s, eye_r_width_next s, eye_l_border_radius_next s,
    eye_r_border_radius_next s, space_between_next s),
   (eye_l_x_default s, eye_l_y_default s, eye_r_x_default s,
    eye_r_y_default s, eyelids_height_max s),
   (autoblinker s, blink_interval s, blink_interval_variation s,
    idle s, idle_interval s, idle_interval_variation s,
    confused_animation_duration s, laugh_animation_duration s)).

Arguments settings !s /.

(** The three eyelid values with their targets. *)
Definition eyelid_values (s : RoboEyes) : (Z * Z) * (Z * Z) * (Z * Z) :=
  ((eyelids_tired_height s, eyelids_tired_height_next s),
   (eyelids_angry_height s, eyelids_angry_height_next s),
   (eyelids_happy_bottom_offset s, eyelids_happy_bottom_offset_next s)).

(** The targets the mood flags give the eyelids of an eye of height [h]
    (angry wins over tired), and the step of each value half way to its
    target. *)
Definition eyelid_step (is_tired is_angry is_happy : bool) (h : Z)
           (v : (Z * Z) * (Z * Z) * (Z * Z)) : (Z * Z) * (Z * Z) * (Z * Z) :=
  let '((t, _), (a, _), (p, _)) := v in
  let tn := if is_angry then 0 else if is_tired then h / 2 else 0 in
  let an := if is_angry then h / 2 else 0 in
  let pn := if is_happy then h / 2 else 0 in
  (((t + tn) / 2, tn), ((a + an) / 2, an), ((p + pn) / 2, pn)).

(** [m] paints (see [paints]) and leaves the eyelid values [v]. *)
Definition lidded (v : (Z * Z) * (Z * Z) * (Z * Z)) (s : RoboEyes)
           (m : outcome RoboEyes) : Prop :=
  exists s', m = Ok s' /\ wf s' /\ repainted s s' /\ eyelid_values s' = v.

Arguments eyelid_values !s /.

(* ===================================================================== *)
(** * Properties                                                          *)
(* ===================================================================== *)

(** ** Outcomes *)

Lemma bind_Ok : forall (S : Type) (o : outcome S), o >>= Ok = o.
Proof. intros S [s | e s]; reflexivity. Qed.

Lemma bind_assoc :
  forall (S : Type) (o : outcome S) (k1 k2 : S -> outcome S),
    (o >>= k1) >>= k2 = o >>= (fun s => k1 s >>= k2).
Proof. intros S [s | e s] k1 k2; reflexivity. Qed.

(** ** Buffer assignments keep the shape and succeed inside the screen *)

Lemma update_span_length :
  forall (A : Type) (f : A -> A) lo hi (l : list A) i,
    length (update_span f lo hi i l) = length l.
Proof.
  intros A f lo hi l; induction l as [| a t IH]; intros i; simpl.
  - reflexivity.
  - now rewrite IH.
Qed.

Lemma update_span_Forall :
  forall (A : Type) (P : A -> Prop) (f : A -> A) lo hi (l : list A) i,
    (forall a, P a -> P (f a)) ->
    Forall P l -> Forall P (update_span f lo hi i l).
Proof.
  intros A P f lo hi l i Hf Hl; revert i.
  induction Hl as [| a t Ha Ht IH]; intros i; simpl; constructor.
  - destruct ((lo <=? i) && (i <? hi)); auto.
  - apply IH.
Qed.

Lemma assign_slice_len :
  forall (A : Type) (f : A -> A) a b (l : list A),
    len (assign_slice f a b l) = len l.
Proof.
  intros; unfold assign_slice, len; now rewrite update_span_length.
Qed.

Lemma assign_block_shaped :
  forall c y1 y2 x1 x2 H W b,
    shaped H W b -> shaped H W (assign_block c y1 y2 x1 x2 b).
Proof.
  intros c y1 y2 x1 x2 H W b [Hh Hw]; split.
  - unfold assign_block; now rewrite assign_slice_len.
  - unfold assign_block, assign_slice at 1.
    apply update_span_Forall; [| exact Hw].
    intros row Hrow; now rewrite assign_slice_len.
Qed.

Lemma assign_row_in_range :
  forall c py x1 x2 H W b,
    shaped H W b -> 0 <= py < H ->
    exists b', assign_row c py x1 x2 b = Ok b' /\ shaped H W b'.
Proof.
  intros c py x1 x2 H W b [Hh Hw] Hpy; unfold assign_row.
  replace ((py <? - len b) || (len b <=? py)) with false
    by (symmetry; apply orb_false_iff; split;
        [apply Z.ltb_ge | apply Z.leb_gt]; lia).
  eexists; split; [reflexivity |]; split.
  - unfold len; now rewrite update_span_length.
  - apply update_span_Forall; [| exact Hw].
    intros row Hrow; now rewrite assign_slice_len.
Qed.

Lemma perform_in_screen :
  forall c H W b s,
    shaped H W b -> in_screen H W s ->
    exists b', perform c b s = Ok b' /\ shaped H W b'.
Proof.
  intros c H W b [y1 y2 x1 x2 | py x1 x2] Hb Hs; simpl in *.
  - eexists; split; [reflexivity |]; now apply assign_block_shaped.
  - apply assign_row_in_range; [exact Hb | tauto].
Qed.

Lemma perform_all_in_screen :
  forall c H W l b,
    Forall (in_screen H W) l -> shaped H W b ->
    exists b', perform_all c l b = Ok b' /\ shaped H W b'.
Proof.
  intros c H W l; induction l as [| s t IH]; intros b Hl Hb; simpl.
  - now exists b.
  - inversion Hl as [| s' t' Hs Ht]; subst.
    destruct (perform_in_screen c H W b s Hb Hs) as [b1 [E1 Hb1]].
    rewrite E1; simpl; now apply IH.
Qed.

Lemma covers_in_screen :
  forall H W s py px,
    in_screen H W s -> covers s py px = true -> 0 <= py < H /\ 0 <= px < W.
Proof.
  intros H W [y1 y2 x1 x2 | y x1 x2] py px Hs Hc; simpl in *.
  - repeat (apply andb_prop in Hc; destruct Hc as [Hc ?]); lia.
  - repeat (apply andb_prop in Hc; destruct Hc as [Hc ?]); lia.
Qed.

Lemma painted_in_screen :
  forall H W l py px,
    Forall (in_screen H W) l -> painted l py px = true ->
    0 <= py < H /\ 0 <= px < W.
Proof.
  intros H W l py px Hl Hp; unfold painted in Hp.
  apply existsb_exists in Hp; destruct Hp as [s [Hin Hc]].
  rewrite Forall_forall in Hl; eapply covers_in_screen; eauto.
Qed.

(** ** The rounded rectangle stays inside the screen *)

Lemma guarded_block_in_screen :
  forall H W y1 y2 x1 x2,
    0 <= y1 -> y2 <= H -> 0 <= x1 -> x2 <= W ->
    Forall (in_screen H W) (guarded_block y1 y2 x1 x2).
Proof.
  intros H W y1 y2 x1 x2 Hy1 Hy2 Hx1 Hx2; unfold guarded_block.
  destruct ((x2 >? x1) && (y2 >? y1)) eqn:G; constructor; [| constructor].
  apply andb_prop in G; destruct G as [Gx Gy]; simpl; lia.
Qed.

Lemma corner_scanline_in_screen :
  forall W H cx cy r k dy,
    Forall (in_screen H W) (corner_scanline W H cx cy r k dy).
Proof.
  intros W H cx cy r k dy; unfold corner_scanline.
  destruct ((cy + dy <? 0) || (cy + dy >=? H)) eqn:G; [constructor |].
  apply orb_false_iff in G; destruct G as [G1 G2].
  destruct k; cbv zeta beta iota;
    match goal with
    | |- context [?a >? ?b] => destruct (a >? b) eqn:G3
    end; constructor; try constructor; simpl; lia.
Qed.

Lemma flat_map_Forall :
  forall (A B : Type) (P : B -> Prop) (f : A -> list B) (l : list A),
    (forall a, Forall P (f a)) -> Forall P (flat_map f l).
Proof.
  intros A B P f l Hf; induction l as [| a t IH]; simpl.
  - constructor.
  - apply Forall_app; split; auto.
Qed.

Lemma draw_circle_corner_in_screen :
  forall W H cx cy r k,
    Forall (in_screen H W) (_draw_circle_corner W H cx cy r k).
Proof.
  intros; unfold _draw_circle_corner; apply flat_map_Forall.
  intros dy; apply corner_scanline_in_screen.
Qed.

Lemma draw_rounded_rect_stores_in_screen :
  forall W H x y w h r,
    Forall (in_screen H W) (draw_rounded_rect_stores W H x y w h r).
Proof.
  intros; unfold draw_rounded_rect_stores; cbv zeta.
  destruct ((clamp_radius w h r <=? 0) || (w <=? 0) || (h <=? 0)).
  - apply guarded_block_in_screen; lia.
  - repeat (apply Forall_app; split);
      try (apply guarded_block_in_screen; lia);
      apply draw_circle_corner_in_screen.
Qed.

Lemma clamp_radius_beyond_cap :
  forall w h r,
    Z.min w h / 2 <= r -> clamp_radius w h r = Z.min w h / 2.
Proof.
  intros w h r Hr; unfold clamp_radius.
  assert (Hm : Z.min w h / 2 = Z.min (w / 2) (h / 2)).
  { destruct (Z.min_spec w h) as [[Hlt ->] | [Hle ->]].
    - rewrite Z.min_l; [reflexivity | apply Z.div_le_mono; lia].
    - rewrite Z.min_r; [reflexivity | apply Z.div_le_mono; lia]. }
  lia.
Qed.

(** ** The triangle stays inside the screen *)

Section TriangleFacts.
Context {F : Type} {FO : FloatOps F}.

Lemma scanline_in_screen :
  forall W H y (curx1 curx2 : F),
    Forall (in_screen H W) (scanline W H y curx1 curx2).
Proof.
  intros W H y curx1 curx2; unfold scanline.
  destruct ((0 <=? y) && (y <? H)) eqn:G; [| constructor].
  apply andb_prop in G; destruct G as [G1 G2]; cbv zeta.
  match goal with
  | |- context [?a <? ?b] => destruct (a <? b) eqn:G3
  end; constructor; try constructor; simpl; lia.
Qed.

Lemma scanlines_in_screen :
  forall W H advance (i1 i2 : F) ys curx1 curx2,
    Forall (in_screen H W) (scanlines W H advance i1 i2 ys curx1 curx2).
Proof.
  intros W H advance i1 i2 ys; induction ys as [| y t IH]; intros; simpl.
  - constructor.
  - apply Forall_app; split; [apply scanline_in_screen | apply IH].
Qed.

Lemma fill_bottom_flat_in_screen :
  forall W H x0 y0 x1 y1 x2 y2,
    Forall (in_screen H W) (_fill_bottom_flat_triangle W H x0 y0 x1 y1 x2 y2).
Proof.
  intros; unfold _fill_bottom_flat_triangle.
  destruct (y1 =? y0); [constructor | apply scanlines_in_screen].
Qed.

Lemma fill_top_flat_in_screen :
  forall W H x0 y0 x1 y1 x2 y2,
    Forall (in_screen H W) (_fill_top_flat_triangle W H x0 y0 x1 y1 x2 y2).
Proof.
  intros; unfold _fill_top_flat_triangle.
  destruct (y2 =? y0); [constructor | apply scanlines_in_screen].
Qed.

Lemma fill_triangle_stores_in_screen :
  forall W H x0 y0 x1 y1 x2 y2,
    Forall (in_screen H W) (fill_triangle_stores W H x0 y0 x1 y1 x2 y2).
Proof.
  intros; unfold fill_triangle_stores.
  destruct (sort_vertices x0 y0 x1 y1 x2 y2) as [[[a0 b0] [a1 b1]] [a2 b2]].
  destruct (b1 =? b2); [apply fill_bottom_flat_in_screen |].
  destruct (b0 =? b1); [apply fill_top_flat_in_screen |].
  apply Forall_app; split;
    [apply fill_bottom_flat_in_screen | apply fill_top_flat_in_screen].
Qed.

End TriangleFacts.

(** ** The two calls: what they write and what they raise *)

Lemma range_cons :
  forall lo hi, lo < hi -> range lo hi = lo :: range (lo + 1) hi.
Proof.
  intros lo hi Hlt; unfold range.
  replace (Z.to_nat (hi - lo))
    with (Datatypes.S (Z.to_nat (hi - (lo + 1)))) by lia.
  cbn [seq map]; rewrite Z.add_0_r; f_equal.
  rewrite <- seq_shift, map_map; apply map_ext; intros; lia.
Qed.

Lemma In_range : forall lo hi z, In z (range lo hi) <-> lo <= z < hi.
Proof.
  intros lo hi z; unfold range; rewrite in_map_iff; split.
  - intros [i [<- Hi]]; apply in_seq in Hi; lia.
  - intros Hz; exists (Z.to_nat (z - lo)); split; [lia |].
    apply in_seq; lia.
Qed.

Lemma In_range_down : forall hi lo z, In z (range_down hi lo) <-> lo <= z <= hi.
Proof.
  intros hi lo z; unfold range_down; rewrite in_map_iff; split.
  - intros [i [<- Hi]]; apply in_seq in Hi; lia.
  - intros Hz; exists (Z.to_nat (hi - z)); split; [lia |].
    apply in_seq; lia.
Qed.

Lemma completed_within :
  forall (P : store -> Prop) (Q : exn -> Prop) l,
    Forall P l -> run_within P Q (completed l).
Proof. intros P Q l Hl; split; [exact Hl | intros e E; discriminate E]. Qed.

Lemma failed_within :
  forall (P : store -> Prop) (Q : exn -> Prop) e,
    Q e -> run_within P Q (failed e).
Proof.
  intros P Q e He; split; [constructor |].
  intros e' E; injection E as <-; exact He.
Qed.

Lemma and_then_within :
  forall (P : store -> Prop) (Q : exn -> Prop) a k,
    run_within P Q a -> run_within P Q k -> run_within P Q (and_then a k).
Proof.
  intros P Q [la [ea |]] [lk ek] [Ha Ha'] [Hk Hk']; unfold and_then;
    cbn [fst snd] in *.
  - split; assumption.
  - split; [apply Forall_app; split; assumption | assumption].
Qed.

Lemma for_each_within :
  forall (A : Type) (P : store -> Prop) (Q : exn -> Prop) (body : A -> run) l,
    (forall a, In a l -> run_within P Q (body a)) ->
    run_within P Q (for_each body l).
Proof.
  intros A P Q body l; induction l as [| a t IH]; intros Hb; cbn [for_each].
  - apply completed_within; constructor.
  - apply and_then_within; [apply Hb; now left |].
    apply IH; intros a' Ha'; apply Hb; now right.
Qed.

Lemma attempt_within :
  forall (A : Type) (P : store -> Prop) (Q : exn -> Prop) (v : exn + A) k,
    (forall e, v = inl e -> Q e) ->
    (forall a, v = inr a -> run_within P Q (k a)) ->
    run_within P Q (attempt v k).
Proof.
  intros A P Q [e | a] k He Ha; cbn [attempt].
  - apply failed_within, He; reflexivity.
  - apply Ha; reflexivity.
Qed.

(** A run in which no exception is possible completed. *)
Lemma within_nothing_completes :
  forall (P : store -> Prop) r, run_within P (fun _ => False) r -> snd r = None.
Proof.
  intros P [l [e |]] [_ He]; [destruct (He e eq_refl) | reflexivity].
Qed.

(** The run on a buffer: inside the screen no assignment raises, so the
    outcome is the one of the run. *)
Lemma perform_run_in_screen :
  forall c H W (r : run) b,
    Forall (in_screen H W) (fst r) -> shaped H W b ->
    exists b',
      shaped H W b'
      /\ perform_all c (fst r) b = Ok b'
      /\ perform_run c r b
         = match snd r with
           | None => Ok b'
           | Some e => Raise e b'
           end.
Proof.
  intros c H W r b Hr Hb.
  destruct (perform_all_in_screen c H W (fst r) b Hr Hb) as (b' & E & Hb').
  exists b'; split; [exact Hb' | split; [exact E |]].
  unfold perform_run; now rewrite E.
Qed.

Lemma sort_vertices_sorted :
  forall x0 y0 x1 y1 x2 y2 a0 b0 a1 b1 a2 b2,
    sort_vertices x0 y0 x1 y1 x2 y2 = ((a0, b0), (a1, b1), (a2, b2)) ->
    b0 <= b1 <= b2
    /\ Z.min y0 (Z.min y1 y2) <= b0 /\ b2 <= Z.max y0 (Z.max y1 y2).
Proof.
  intros x0 y0 x1 y1 x2 y2 a0 b0 a1 b1 a2 b2; unfold sort_vertices.
  destruct (y0 >? y1) eqn:E1; cbv beta iota zeta.
  - destruct (y1 >? y2) eqn:E2; cbv beta iota zeta.
    + destruct (y0 >? y1) eqn:E3; cbv beta iota zeta;
        intros E; injection E as <- <- <- <- <- <-;
        rewrite Z.gtb_ltb in *;
        repeat match goal with
               | Hc : (_ <? _) = true |- _ => apply Z.ltb_lt in Hc
               | Hc : (_ <? _) = false |- _ => apply Z.ltb_ge in Hc
               end; lia.
    + destruct (y0 >? y2) eqn:E3; cbv beta iota zeta;
        intros E; injection E as <- <- <- <- <- <-;
        rewrite Z.gtb_ltb in *;
        repeat match goal with
               | Hc : (_ <? _) = true |- _ => apply Z.ltb_lt in Hc
               | Hc : (_ <? _) = false |- _ => apply Z.ltb_ge in Hc
               end; lia.
  - destruct (y0 >? y2) eqn:E2; cbv beta iota zeta.
    + destruct (y1 >? y0) eqn:E3; cbv beta iota zeta;
        intros E; injection E as <- <- <- <- <- <-;
        rewrite Z.gtb_ltb in *;
        repeat match goal with
               | Hc : (_ <? _) = true |- _ => apply Z.ltb_lt in Hc
               | Hc : (_ <? _) = false |- _ => apply Z.ltb_ge in Hc
               end; lia.
    + destruct (y1 >? y2) eqn:E3; cbv beta iota zeta;
        intros E; injection E as <- <- <- <- <- <-;
        rewrite Z.gtb_ltb in *;
        repeat match goal with
               | Hc : (_ <? _) = true |- _ => apply Z.ltb_lt in Hc
               | Hc : (_ <? _) = false |- _ => apply Z.ltb_ge in Hc
               end; lia.
Qed.

Section CallFacts.
Context {F : Type} {FO : FloatOps F}.

(** *** The rounded rectangle *)

(** A row of a corner is clipped whatever the root is; [np.sqrt] raises
    only for a radius whose square reaches [2 ** 64]. *)
Lemma corner_scanline_run_within :
  forall (Q : exn -> Prop) W H cx cy r k dy,
    (2 ^ 64 <= r * r -> Q TypeError) ->
    run_within (in_screen H W) Q (corner_scanline_run W H cx cy r k dy).
Proof.
  intros Q W H cx cy r k dy HQ; unfold corner_scanline_run; cbv zeta.
  destruct ((cy + dy <? 0) || (cy + dy >=? H)) eqn:G;
    [apply completed_within; constructor |].
  apply orb_false_iff in G; destruct G as [G1 G2].
  apply attempt_within.
  - intros e; unfold int_np_sqrt.
    destruct (Z.max 0 (r * r - dy * dy) <? 2 ^ 64) eqn:G3;
      intros E; [discriminate E |].
    injection E as <-; apply HQ; apply Z.ltb_ge in G3; nia.
  - intros dx_max _.
    destruct k; cbv beta iota; apply completed_within;
      match goal with
      | |- context [?a >? ?b] => destruct (a >? b) eqn:G3
      end; constructor; try constructor; simpl; lia.
Qed.

Lemma draw_circle_corner_run_within :
  forall (Q : exn -> Prop) W H cx cy r k,
    (2 ^ 64 <= r * r -> Q TypeError) ->
    run_within (in_screen H W) Q (_draw_circle_corner_run W H cx cy r k).
Proof.
  intros; unfold _draw_circle_corner_run; apply for_each_within.
  intros dy _; now apply corner_scanline_run_within.
Qed.

Lemma draw_rounded_rect_run_within :
  forall (Q : exn -> Prop) W H x y w h r,
    (0 < clamp_radius w h r ->
     2 ^ 64 <= clamp_radius w h r * clamp_radius w h r -> Q TypeError) ->
    run_within (in_screen H W) Q (draw_rounded_rect_run W H x y w h r).
Proof.
  intros Q W H x y w h r HQ; unfold draw_rounded_rect_run; cbv zeta.
  destruct ((clamp_radius w h r <=? 0) || (w <=? 0) || (h <=? 0)) eqn:G.
  - apply completed_within, guarded_block_in_screen; lia.
  - apply orb_false_iff in G; destruct G as [G _].
    apply orb_false_iff in G; destruct G as [G _].
    apply Z.leb_gt in G.
    repeat apply and_then_within;
      try (apply draw_circle_corner_run_within; auto).
    apply completed_within.
    repeat (apply Forall_app; split); apply guarded_block_in_screen; lia.
Qed.

Lemma degenerate_rect_writes_nothing :
  forall W H x y w h r,
    w <= 0 \/ h <= 0 -> draw_rounded_rect_run W H x y w h r = completed [].
Proof.
  intros W H x y w h r Hd; unfold draw_rounded_rect_run; cbv zeta.
  destruct ((clamp_radius w h r <=? 0) || (w <=? 0) || (h <=? 0)) eqn:G.
  - unfold guarded_block.
    destruct ((Z.min W (x + w) >? Z.max 0 x)
              && (Z.min H (y + h) >? Z.max 0 y)) eqn:G2; [| reflexivity].
    apply andb_prop in G2; lia.
  - repeat (apply orb_false_iff in G; destruct G as [G ?]); lia.
Qed.

(** *** The triangle *)

Lemma to_float_raises :
  forall z e, to_float z = inl e -> e = OverflowError.
Proof.
  intros z e; unfold to_float; destruct (converts z); intros E;
    [discriminate E | now injection E].
Qed.

Lemma to_int_raises :
  forall (f : F) e, to_int f = inl e -> conversion_error e.
Proof.
  intros f e; unfold to_int, conversion_error.
  destruct (nan f); [intros E; injection E as <-; now right |].
  destruct (infinite f); intros E; [injection E as <-; now left |].
  discriminate E.
Qed.

Lemma int_of_raises :
  forall n e, int_of n = inl e -> conversion_error e.
Proof.
  intros [z | f] e; cbn [int_of]; [intros E; discriminate E |].
  apply to_int_raises.
Qed.

Lemma advance_by_raises :
  forall op n (i : F) e, advance_by op n i = inl e -> conversion_error e.
Proof.
  intros op [z | f] i e; cbn [advance_by]; [| intros E; discriminate E].
  destruct (to_float z) as [e' |] eqn:Ez; intros E; [| discriminate E].
  injection E as <-; left; eapply to_float_raises; exact Ez.
Qed.

Lemma invslope_run_raises :
  forall a b c d e, invslope_run a b c d = inl e -> conversion_error e.
Proof.
  intros a b c d e; unfold invslope_run.
  destruct (to_float (c - d)) as [e1 |] eqn:E1.
  - intros E; injection E as <-; left; eapply to_float_raises; exact E1.
  - destruct (to_float (a - b)) as [e2 |] eqn:E2; intros E;
      [| discriminate E].
    injection E as <-; left; eapply to_float_raises; exact E2.
Qed.

Lemma split_x_raises :
  forall x0 y0 y1 x2 y2 e,
    split_x x0 y0 y1 x2 y2 = inl e -> conversion_error e.
Proof.
  intros x0 y0 y1 x2 y2 e; unfold split_x.
  repeat match goal with
         | |- match to_float ?z with _ => _ end = _ -> _ =>
             let Ez := fresh "Ez" in
             destruct (to_float z) as [? |] eqn:Ez;
             [intros E; injection E as <-; left;
              eapply to_float_raises; exact Ez |]
         end.
  apply to_int_raises.
Qed.

(** The rows of a scanline loop are rows of the loop, clipped. *)
Lemma scanlines_run_within :
  forall (P : store -> Prop) W H op (i1 i2 : F) ys curx1 curx2,
    (forall y x1 x2,
        In y ys -> 0 <= y < H -> 0 <= x1 < x2 -> x2 <= W ->
        P (Row y x1 x2)) ->
    run_within P conversion_error
               (scanlines_run W H op i1 i2 ys curx1 curx2).
Proof.
  intros P W H op i1 i2 ys; induction ys as [| y t IH];
    intros curx1 curx2 HP; cbn [scanlines_run].
  - apply completed_within; constructor.
  - apply and_then_within.
    + unfold scanline_run.
      destruct ((0 <=? y) && (y <? H)) eqn:G;
        [| apply completed_within; constructor].
      apply andb_prop in G; destruct G as [G1 G2].
      apply attempt_within; [apply int_of_raises |]; intros a _.
      apply attempt_within; [apply int_of_raises |]; intros b _.
      cbv zeta; apply completed_within.
      match goal with
      | |- context [?u <? ?v] => destruct (u <? v) eqn:G3
      end; constructor; [| constructor].
      apply HP; [now left | lia | lia | lia].
    + destruct (advance_by op curx1 i1) as [e1 | c1] eqn:E1.
      * apply failed_within; eapply advance_by_raises; exact E1.
      * destruct (advance_by op curx2 i2) as [e2 | c2] eqn:E2.
        -- apply failed_within; eapply advance_by_raises; exact E2.
        -- apply IH; intros y' x1 x2 Hin; apply HP; now right.
Qed.

Lemma fill_bottom_flat_run_within :
  forall (P : store -> Prop) W H x0 y0 x1 y1 x2 y2,
    (forall y a b,
        y0 <= y <= y1 -> 0 <= y < H -> 0 <= a < b -> b <= W ->
        P (Row y a b)) ->
    run_within P conversion_error
               (_fill_bottom_flat_triangle_run W H x0 y0 x1 y1 x2 y2).
Proof.
  intros P W H x0 y0 x1 y1 x2 y2 HP; unfold _fill_bottom_flat_triangle_run.
  destruct (y1 =? y0); [apply completed_within; constructor |].
  apply attempt_within; [apply invslope_run_raises |]; intros i1 _.
  apply attempt_within; [apply invslope_run_raises |]; intros i2 _.
  apply scanlines_run_within; intros y a b Hin; apply HP.
  apply In_range in Hin; lia.
Qed.

Lemma fill_top_flat_run_within :
  forall (P : store -> Prop) W H x0 y0 x1 y1 x2 y2,
    (forall y a b,
        y0 <= y <= y2 -> 0 <= y < H -> 0 <= a < b -> b <= W ->
        P (Row y a b)) ->
    run_within P conversion_error
               (_fill_top_flat_triangle_run W H x0 y0 x1 y1 x2 y2).
Proof.
  intros P W H x0 y0 x1 y1 x2 y2 HP; unfold _fill_top_flat_triangle_run.
  destruct (y2 =? y0); [apply completed_within; constructor |].
  apply attempt_within; [apply invslope_run_raises |]; intros i1 _.
  apply attempt_within; [apply invslope_run_raises |]; intros i2 _.
  apply scanlines_run_within; intros y a b Hin; apply HP.
  apply In_range_down in Hin; lia.
Qed.

(** Every assignment of [fill_triangle] is a clipped row between the
    topmost and the bottommost vertex, and only a conversion raises. *)
Lemma fill_triangle_run_within :
  forall (P : store -> Prop) W H x0 y0 x1 y1 x2 y2,
    (forall y a b,
        Z.min y0 (Z.min y1 y2) <= y <= Z.max y0 (Z.max y1 y2) ->
        0 <= y < H -> 0 <= a < b -> b <= W -> P (Row y a b)) ->
    run_within P conversion_error (fill_triangle_run W H x0 y0 x1 y1 x2 y2).
Proof.
  intros P W H x0 y0 x1 y1 x2 y2 HP; unfold fill_triangle_run.
  destruct (sort_vertices x0 y0 x1 y1 x2 y2)
    as [[[a0 b0] [a1 b1]] [a2 b2]] eqn:Es.
  destruct (sort_vertices_sorted _ _ _ _ _ _ _ _ _ _ _ _ Es)
    as (Hord & Hlo & Hhi).
  destruct (Z.eqb_spec b1 b2) as [E12 | N12].
  - apply fill_bottom_flat_run_within; intros; apply HP; lia.
  - destruct (Z.eqb_spec b0 b1) as [E01 | N01].
    + apply fill_top_flat_run_within; intros; apply HP; lia.
    + apply attempt_within; [apply split_x_raises |]; intros x3 _.
      cbv zeta; apply and_then_within.
      * apply fill_bottom_flat_run_within; intros; apply HP; lia.
      * apply fill_top_flat_run_within; intros; apply HP; lia.
Qed.

Lemma fill_triangle_run_in_screen :
  forall W H x0 y0 x1 y1 x2 y2,
    run_within (in_screen H W) conversion_error
               (fill_triangle_run W H x0 y0 x1 y1 x2 y2).
Proof.
  intros; apply fill_triangle_run_within; intros; simpl; lia.
Qed.

Lemma flat_line_writes_nothing :
  forall W H x0 x1 x2 y, fill_triangle_run W H x0 y x1 y x2 y = completed [].
Proof.
  intros; unfold fill_triangle_run, sort_vertices.
  assert (E : (y >? y) = false) by (rewrite Z.gtb_ltb; apply Z.ltb_irrefl).
  repeat (rewrite E; cbn beta iota zeta).
  rewrite Z.eqb_refl; unfold _fill_bottom_flat_triangle_run.
  now rewrite Z.eqb_refl.
Qed.


(** C6.  With [w > 0] and [h > 0], every radius [r >= min(w, h) // 2] makes
    [draw_rounded_rect] execute exactly the assignments it executes for
    [r = min(w, h) // 2]: the same pixels are named and the buffer that
    results is the same. *)
Theorem radius_beyond_cap_same_pixels :
  forall (W H : Z) (b : grid) (c : color) (x y w h r : Z),
    0 < w -> 0 < h -> Z.min w h / 2 <= r ->
    draw_rounded_rect_stores W H x y w h r
    = draw_rounded_rect_stores W H x y w h (Z.min w h / 2)
    /\ (forall py px,
           painted (draw_rounded_rect_stores W H x y w h r) py px
           = painted (draw_rounded_rect_stores W H x y w h (Z.min w h / 2))
                     py px)
    /\ draw_rounded_rect W H b x y w h r c
       = draw_rounded_rect W H b x y w h (Z.min w h / 2) c.
Proof.
  intros W H b c x y w h r Hw Hh Hr.
  assert (Ec : clamp_radius w h r = clamp_radius w h (Z.min w h / 2)).
  { rewrite (clamp_radius_beyond_cap w h r Hr).
    rewrite (clamp_radius_beyond_cap w h (Z.min w h / 2)); [reflexivity | lia]. }
  assert (E : draw_rounded_rect_stores W H x y w h r
              = draw_rounded_rect_stores W H x y w h (Z.min w h / 2)).
  { unfold draw_rounded_rect_stores; now rewrite Ec. }
  split; [exact E | split; [intros; now rewrite E |]].
  unfold draw_rounded_rect, draw_rounded_rect_run; now rewrite Ec.
Qed.

End CallFacts.

(** ** The sequence scheduler *)

Section SchedulerFacts.
Variable Owner : Type.

Lemma within_Ok_inv :
  forall (S T : Type) (put : T -> S) (o : outcome T) (s : S),
    within put o = Ok s -> exists t, o = Ok t /\ s = put t.
Proof.
  intros S T put [t | e t] s H; simpl in H; [| discriminate].
  exists t; split; congruence.
Qed.

Lemma fired_never_due :
  forall start ticks (s : StepData Owner), due start ticks (fired s) = false.
Proof. reflexivity. Qed.

Lemma update_steps_fires_due :
  forall start ticks (l : list (StepData Owner)) (o o' : Owner),
    run_callbacks (filter (due start ticks) l) o = Ok o' ->
    update_steps start ticks l o = Ok (mark_due start ticks l, o').
Proof.
  intros start ticks l; induction l as [| s t IH]; intros o o' Hrun.
  - simpl in *; congruence.
  - simpl in Hrun |- *; unfold due at 1, StepData_update.
    unfold due at 1 in Hrun.
    destruct (done s) eqn:Hd; simpl in Hrun |- *.
    + rewrite (IH o o' Hrun); reflexivity.
    + destruct (ticks - start <? ms_timing s) eqn:Ht; simpl in Hrun |- *.
      * rewrite (IH o o' Hrun); reflexivity.
      * destruct (callback s o) as [o1 | e o1]; simpl in Hrun |- *;
          [| discriminate].
        rewrite (IH o1 o' Hrun); reflexivity.
Qed.

Lemma mark_due_nothing_left :
  forall start ticks (l : list (StepData Owner)),
    filter (due start ticks) (mark_due start ticks l) = [].
Proof.
  intros start ticks l; induction l as [| s t IH]; simpl; [reflexivity |].
  destruct (due start ticks s) eqn:Hdue.
  - rewrite fired_never_due; exact IH.
  - rewrite Hdue; exact IH.
Qed.

(** C8.  [Sequence.update] leaves a sequence that was not started (and the
    engine) untouched.  On a started sequence, the callbacks of the steps
    that are due ([now - start >= ms_timing]) and not yet fired are run on
    the owning engine once each, in insertion order, all within this call,
    and exactly these steps are marked fired (provided the callbacks
    return); a fired step is never due again, so a second [update] at the
    same instant runs nothing.  [done] holds exactly when the sequence is
    not started or every step has fired. *)
Theorem Sequence_update_fires_each_due_step_once :
  forall (q : Sequence Owner) (now : Z) (o : Owner),
    (_start q = None -> Sequence_update now q o = Ok (q, o))
    /\ (forall start o',
           _start q = Some start ->
           run_callbacks (filter (due start now) (steps q)) o = Ok o' ->
           Sequence_update now q o
           = Ok ({| steps := mark_due start now (steps q);
                    _start := Some start |}, o')
           /\ Sequence_update now
                {| steps := mark_due start now (steps q);
                   _start := Some start |} o'
              = Ok ({| steps := mark_due start now (steps q);
                       _start := Some start |}, o'))
    /\ (forall start t (s : StepData Owner), due start t (fired s) = false)
    /\ (Sequence_done q = true
        <-> _start q = None \/ (forall s, In s (steps q) -> done s = true)).
Proof.
  intros q now o; split; [| split; [| split]].
  - intros Hs; unfold Sequence_update; now rewrite Hs.
  - intros start o' Hs Hrun; split.
    + unfold Sequence_update; rewrite Hs.
      now rewrite (update_steps_fires_due start now (steps q) o o' Hrun).
    + unfold Sequence_update; cbn [_start steps].
      rewrite (update_steps_fires_due start now _ o' o').
      * assert (Hm : forall l : list (StepData Owner),
                   mark_due start now (mark_due start now l)
                   = mark_due start now l).
        { intros l; unfold mark_due; rewrite map_map; apply map_ext.
          intros s; destruct (due start now s) eqn:Hdue.
          - now rewrite fired_never_due.
          - now rewrite Hdue. }
        simpl; now rewrite Hm.
      * now rewrite mark_due_nothing_left.
  - intros; apply fired_never_due.
  - unfold Sequence_done; destruct (_start q) as [start |].
    + rewrite forallb_forall; split.
      * intros H; right; exact H.
      * intros [H | H]; [discriminate | exact H].
    + split; [intros _; now left | reflexivity].
Qed.

End SchedulerFacts.

(** ** The engine: what rendering can and cannot change *)

Lemma repainted_refl : forall s, repainted s s.
Proof.
  intros s.
  exists (buffer s), (eyelids_tired_height s), (eyelids_tired_height_next s),
    (eyelids_angry_height s), (eyelids_angry_height_next s),
    (eyelids_happy_bottom_offset s), (eyelids_happy_bottom_offset_next s).
  destruct s; reflexivity.
Qed.

Lemma repainted_trans :
  forall s1 s2 s3, repainted s1 s2 -> repainted s2 s3 -> repainted s1 s3.
Proof.
  intros s1 s2 s3 (b & t & tn & a & an & h & hn & E1)
         (b' & t' & tn' & a' & an' & h' & hn' & E2).
  subst; exists b', t', tn', a', an', h', hn'; destruct s1; reflexivity.
Qed.

Lemma repainted_buffer : forall s b, repainted s (with_buffer b s).
Proof.
  intros s b.
  exists b, (eyelids_tired_height s), (eyelids_tired_height_next s),
    (eyelids_angry_height s), (eyelids_angry_height_next s),
    (eyelids_happy_bottom_offset s), (eyelids_happy_bottom_offset_next s).
  destruct s; reflexivity.
Qed.

Lemma clear_shaped :
  forall H W c b, shaped H W b -> shaped H W (clear c b).
Proof.
  intros H W c b [Hh Hw]; unfold clear, shaped, len in *; split.
  - now rewrite length_map.
  - rewrite Forall_map; eapply Forall_impl; [| exact Hw].
    intros row Hrow; cbv beta in *; now rewrite length_map.
Qed.

Lemma paints_bind :
  forall s m k,
    paints s m ->
    (forall s1, wf s1 -> repainted s s1 -> paints s1 (k s1)) ->
    paints s (m >>= k).
Proof.
  intros s m k (s1 & -> & Hwf & Hrep) Hk; simpl.
  destruct (Hk s1 Hwf Hrep) as (s2 & E & Hwf2 & Hrep2).
  exists s2; split; [exact E | split; [exact Hwf2 |]].
  eapply repainted_trans; eauto.
Qed.

Lemma paints_Ok : forall s, wf s -> paints s (Ok s).
Proof.
  intros s Hwf; exists s; split; [reflexivity | split; [exact Hwf |]].
  apply repainted_refl.
Qed.

Lemma paint_paints :
  forall c l s,
    wf s -> Forall (in_screen (screen_height s) (screen_width s)) l ->
    paints s (paint c l s).
Proof.
  intros c l s Hwf Hl; unfold paint.
  destruct (perform_all_in_screen c _ _ l (buffer s) Hl Hwf) as (b & E & Hb).
  rewrite E; exists (with_buffer b s); split; [reflexivity | split].
  - destruct s; exact Hb.
  - apply repainted_buffer.
Qed.

Lemma rrect_paints :
  forall x y w h r c s, wf s -> paints s (rrect x y w h r c s).
Proof.
  intros; unfold rrect; apply paint_paints; auto.
  apply draw_rounded_rect_stores_in_screen.
Qed.

(** A stage that first assigns eyelid values ([f]) and then paints. *)
Lemma paints_after :
  forall s f m,
    wf s -> repainted s (f s) -> wf (f s) -> paints (f s) m -> paints s m.
Proof.
  intros s f m Hwf Hrep Hwf' (s1 & E & Hwf1 & Hrep1).
  exists s1; split; [exact E | split; [exact Hwf1 |]].
  eapply repainted_trans; eauto.
Qed.

Lemma mood_targets_repainted : forall s, repainted s (mood_targets s).
Proof. intros s; unfold repainted, mood_targets. eyelid_assignment s. Qed.

Section EngineFacts.
Context {F : Type} {FO : FloatOps F}.

Lemma triangle_paints :
  forall x0 y0 x1 y1 x2 y2 c s,
    wf s -> paints s (triangle x0 y0 x1 y1 x2 y2 c s).
Proof.
  intros; unfold triangle; apply paint_paints; auto.
  apply fill_triangle_stores_in_screen.
Qed.

Lemma draw_eye_shapes_paints :
  forall s, wf s -> paints s (draw_eye_shapes s).
Proof.
  intros s Hwf; unfold draw_eye_shapes.
  apply paints_bind; [now apply rrect_paints |].
  intros s1 Hwf1 _; destruct (negb (_cyclops s1));
    [now apply rrect_paints | now apply paints_Ok].
Qed.

Lemma tired_eyelids_paints : forall s, wf s -> paints s (tired_eyelids s).
Proof.
  intros s Hwf; unfold tired_eyelids; cbv zeta.
  match goal with
  | |- paints s (if negb (_cyclops ?s') then _ else _) =>
      apply (paints_after s (fun _ => s'));
        [exact Hwf
        | unfold repainted; eyelid_assignment s
        | destruct s; exact Hwf
        | ]
  end.
  match goal with
  | |- paints ?s' _ =>
      assert (Hwf' : wf s') by (destruct s; exact Hwf);
        destruct (negb (_cyclops s'));
        (apply paints_bind;
         [now apply triangle_paints
         | intros; now apply triangle_paints])
  end.
Qed.

Lemma angry_eyelids_paints : forall s, wf s -> paints s (angry_eyelids s).
Proof.
  intros s Hwf; unfold angry_eyelids; cbv zeta.
  match goal with
  | |- paints s (if negb (_cyclops ?s') then _ else _) =>
      apply (paints_after s (fun _ => s'));
        [exact Hwf
        | unfold repainted; eyelid_assignment s
        | destruct s; exact Hwf
        | ]
  end.
  match goal with
  | |- paints ?s' _ =>
      assert (Hwf' : wf s') by (destruct s; exact Hwf);
        destruct (negb (_cyclops s'));
        (apply paints_bind;
         [now apply triangle_paints
         | intros; now apply triangle_paints])
  end.
Qed.

Lemma happy_eyelids_paints : forall s, wf s -> paints s (happy_eyelids s).
Proof.
  intros s Hwf; unfold happy_eyelids; cbv zeta.
  match goal with
  | |- paints s (rrect _ _ _ _ _ _ ?s' >>= _) =>
      apply (paints_after s (fun _ => s'));
        [exact Hwf
        | unfold repainted; eyelid_assignment s
        | destruct s; exact Hwf
        | ]
  end.
  match goal with
  | |- paints ?s' _ =>
      assert (Hwf' : wf s') by (destruct s; exact Hwf)
  end.
  apply paints_bind; [now apply rrect_paints |].
  intros s1 Hwf1 _; destruct (negb (_cyclops s1));
    [now apply rrect_paints | now apply paints_Ok].
Qed.

Lemma render_paints : forall s, wf s -> paints s (render s).
Proof.
  intros s Hwf; unfold render.
  apply paints_bind; [apply paints_bind; [apply paints_bind |] |].
  - now apply draw_eye_shapes_paints.
  - intros s1 Hwf1 _.
    apply (paints_after s1 mood_targets); auto.
    + apply mood_targets_repainted.
    + unfold mood_targets; destruct s1; cbn in *.
      repeat match goal with
             | |- context [if ?b then _ else _] => destruct b
             end; exact Hwf1.
    + apply tired_eyelids_paints.
      unfold mood_targets; destruct s1; cbn in *.
      repeat match goal with
             | |- context [if ?b then _ else _] => destruct b
             end; exact Hwf1.
  - intros; now apply angry_eyelids_paints.
  - intros; now apply happy_eyelids_paints.
Qed.

End EngineFacts.

(** ** The engine: one tick, stage by stage *)

Lemma wf_cleared : forall s, wf s -> wf (cleared s).
Proof. intros s H; destruct s; unfold wf in *; cbn in *; now apply clear_shaped. Qed.

Lemma wf_interpolate : forall s, wf s -> wf (interpolate s).
Proof. intros s H; destruct s; unfold wf in *; crunch; exact H. Qed.

Lemma wf_auto_blink :
  forall now d s, wf s -> wf (final (auto_blink now d s)).
Proof. intros now d s H; destruct s; unfold wf in *; crunch; exact H. Qed.

Lemma wf_laugh_macro : forall now s, wf s -> wf (laugh_macro now s).
Proof. intros now s H; destruct s; unfold wf in *; crunch; exact H. Qed.

Lemma wf_confused_macro : forall now s, wf s -> wf (confused_macro now s).
Proof. intros now s H; destruct s; unfold wf in *; crunch; exact H. Qed.

Lemma wf_idle_macro :
  forall now d s, wf s -> wf (final (idle_macro now d s)).
Proof. intros now d s H; destruct s; unfold wf in *; crunch; exact H. Qed.

Lemma wf_flicker : forall s, wf s -> wf (flicker s).
Proof. intros s H; destruct s; unfold wf in *; crunch; exact H. Qed.

Section TickFacts.
Context {F : Type} {FO : FloatOps F}.

(** The shape of one tick: a property that the macros, the flicker and the
    canvas assignments preserve, and that holds once the geometry has been
    interpolated, holds in the state [draw_eyes] ends in, whether it
    returns or raises. *)
Lemma draw_eyes_establishes :
  forall (P : RoboEyes -> Prop) (now : Z) (d : dice),
    (forall s b t tn a an h hn, P s -> P (canvas b t tn a an h hn s)) ->
    (forall s, P s -> P (final (auto_blink now d s))) ->
    (forall s, P s -> P (laugh_macro now s)) ->
    (forall s, P s -> P (confused_macro now s)) ->
    (forall s, P s -> P (final (idle_macro now d s))) ->
    (forall s, P s -> P (flicker s)) ->
    forall s,
      wf s -> P (interpolate (cleared s)) ->
      P (final (draw_eyes now d s)) /\ wf (final (draw_eyes now d s)).
Proof.
  intros P now d Hcanvas Hblink Hlaugh Hconf Hidle Hflick s Hwf HP.
  unfold draw_eyes; fold (cleared s).
  pose proof (wf_interpolate _ (wf_cleared _ Hwf)) as Hwf1.
  pose proof (Hblink _ HP) as HP2.
  pose proof (wf_auto_blink now d _ Hwf1) as Hwf2.
  destruct (auto_blink now d (interpolate (cleared s))) as [s2 | e s2];
    cbn [bind final] in *; [| now split].
  pose proof (Hidle _ (Hconf _ (Hlaugh _ HP2))) as HP3.
  pose proof (wf_idle_macro now d _
                (wf_confused_macro now _ (wf_laugh_macro now _ Hwf2))) as Hwf3.
  destruct (idle_macro now d (confused_macro now (laugh_macro now s2)))
    as [s3 | e s3]; cbn [bind final] in *; [| now split].
  destruct (render_paints (flicker s3) (wf_flicker _ Hwf3))
    as (s4 & E & Hwf4 & (b & t & tn & a & an & h & hn & Hrep)).
  rewrite E; cbn [final]; split; [| exact Hwf4].
  rewrite Hrep; apply Hcanvas, Hflick, HP3.
Qed.

(** With the auto blinker and the idle mode off nothing in a tick can
    raise. *)
Lemma draw_eyes_returns :
  forall now d s,
    wf s -> autoblinker s = false -> idle s = false ->
    exists s', draw_eyes now d s = Ok s'.
Proof.
  intros now d s Hwf Hb Hi; unfold draw_eyes; fold (cleared s).
  assert (E1 : auto_blink now d (interpolate (cleared s))
               = Ok (interpolate (cleared s))).
  { destruct s; cbn in Hb; subst; crunch; reflexivity. }
  rewrite E1; cbn [bind].
  assert (E2 : idle_macro now d
                 (confused_macro now (laugh_macro now (interpolate (cleared s))))
               = Ok (confused_macro now
                       (laugh_macro now (interpolate (cleared s))))).
  { destruct s; cbn in Hi; subst; crunch; reflexivity. }
  rewrite E2; cbn [bind].
  destruct (render_paints
              (flicker (confused_macro now
                          (laugh_macro now (interpolate (cleared s))))))
    as (s4 & E & _).
  - apply wf_flicker, wf_confused_macro, wf_laugh_macro, wf_interpolate,
      wf_cleared, Hwf.
  - now exists s4.
Qed.

End TickFacts.

(** ** Mutators *)

(** C4.  The [position] setter writes the left eye's target as the table
    says, with [constraint_x = screen_width - eye_l_width_current -
    space_between_current - eye_r_width_current], [constraint_y =
    screen_height - eye_l_height_default] and halves taken by floor
    division: N, S, E, W are the edge midpoints, NE, SE, SW, NW the corners,
    and every other value, [None] included, is the centre. *)
Theorem position_setter_targets :
  forall (s : RoboEyes) (direction : option Z),
    let constraint_x :=
      screen_width s - eye_l_width_current s - space_between_current s
      - eye_r_width_current s in
    let constraint_y := screen_height s - eye_l_height_default s in
    let s' := position_setter direction s in
    let target := (eye_l_x_next s', eye_l_y_next s') in
    get_screen_constraint_x s = constraint_x
    /\ get_screen_constraint_y s = constraint_y
    /\ (direction = Some Direction.N -> target = (constraint_x / 2, 0))
    /\ (direction = Some Direction.S ->
        target = (constraint_x / 2, constraint_y))
    /\ (direction = Some Direction.E ->
        target = (constraint_x, constraint_y / 2))
    /\ (direction = Some Direction.W -> target = (0, constraint_y / 2))
    /\ (direction = Some Direction.NE -> target = (constraint_x, 0))
    /\ (direction = Some Direction.SE -> target = (constraint_x, constraint_y))
    /\ (direction = Some Direction.SW -> target = (0, constraint_y))
    /\ (direction = Some Direction.NW -> target = (0, 0))
    /\ (direction <> Some Direction.N -> direction <> Some Direction.S ->
        direction <> Some Direction.E -> direction <> Some Direction.W ->
        direction <> Some Direction.NE -> direction <> Some Direction.SE ->
        direction <> Some Direction.SW -> direction <> Some Direction.NW ->
        target = (constraint_x / 2, constraint_y / 2)).
Proof.
  intros s direction; destruct s; cbv zeta.
  repeat match goal with
         | |- _ /\ _ => split
         end;
    try reflexivity;
    try (intros ->; reflexivity).
  intros H1 H2 H3 H4 H5 H6 H7 H8.
  destruct direction as [z |]; [| reflexivity].
  assert (Hne : forall k, Some z <> Some k -> (z =? k) = false)
    by (intros k Hk; apply Z.eqb_neq; congruence).
  cbn.
  rewrite (Hne _ H1), (Hne _ H5), (Hne _ H3), (Hne _ H6), (Hne _ H2),
    (Hne _ H7), (Hne _ H4), (Hne _ H8).
  reflexivity.
Qed.

(** C5.  What [wink] does.  Its guard tests the truth of the arguments
    where [blink], like [close] and [open], tests which of them were
    passed.  So [wink] raises [ValueError], with the engine exactly as it
    was, when neither argument is true ([None] or [OFF]); otherwise it
    returns, and its effect is exactly: auto blinker off, idle mode off,
    then the blink of every side whose argument was passed, [ON] or [OFF]:
    where it returns it is the specified [wink], a side being specified
    when it is passed. *)
Theorem wink_contract :
  forall (s : RoboEyes) (left right : option bool),
    (truthy left || truthy right = false ->
     wink left right s = Raise ValueError s)
    /\ (truthy left || truthy right = true ->
        wink left right s
        = Ok (blink left right (with_idle false (with_autoblinker false s)))
        /\ wink left right s = wink_as_specified given left right s).
Proof.
  intros s left right; destruct s.
  destruct left as [[|] |], right as [[|] |]; cbn; split; intros H;
    try discriminate H; try split; reflexivity.
Qed.

(** C5, the defect: at an explicit [OFF] the guard and the blink disagree,
    and [wink] is the specified one under neither reading of "specified".
    Read as "true", [wink(left=OFF, right=ON)] should blink the right eye
    only ("Wink one eye") and also blinks the left one.  Read as "passed",
    [wink(left=OFF)] should not fail and raises [ValueError]. *)
Lemma wink_OFF_is_neither_reading :
  exists s0,
    FastRoboEyes_init 128 64 60 (0, 0, 0) (173, 216, 230) = inr s0
    /\ eye_l_height_next (final (wink (Some OFF) (Some ON) s0)) = 1
    /\ eye_l_height_next
         (final (wink_as_specified truthy (Some OFF) (Some ON) s0)) = 36
    /\ wink (Some OFF) (Some ON) s0
       <> wink_as_specified truthy (Some OFF) (Some ON) s0
    /\ wink (Some OFF) None s0 = Raise ValueError s0
    /\ returns (wink_as_specified given (Some OFF) None s0) = true
    /\ wink (Some OFF) None s0 <> wink_as_specified given (Some OFF) None s0.
Proof.
  eexists; split; [reflexivity |].
  split; [reflexivity |].
  split; [reflexivity |].
  split; [intros E; apply (f_equal (fun o => eye_l_height_next (final o))) in E;
          discriminate E |].
  split; [reflexivity |].
  split; [reflexivity |].
  intros E; apply (f_equal returns) in E; discriminate E.
Qed.

(** ** The frame-rate throttle *)

Section UpdateFacts.
Context {F : Type} {FO : FloatOps F}.

Lemma Sequence_update_idle :
  forall (Owner : Type) ticks (q : Sequence Owner) (o : Owner),
    _start q = None -> Sequence_update ticks q o = Ok (q, o).
Proof. intros Owner ticks q o H; unfold Sequence_update; now rewrite H. Qed.

Lemma Sequences_update_idle :
  forall (Owner : Type) ticks (qs : list (Sequence Owner)) (o : Owner),
    Forall (fun q => _start q = None) qs ->
    Sequences_update ticks qs o = Ok (qs, o).
Proof.
  intros Owner ticks qs o H; induction H as [| q t Hq Ht IH]; simpl.
  - reflexivity.
  - rewrite (Sequence_update_idle _ ticks q o Hq), IH; reflexivity.
Qed.

(** C9.  When [update] finds that less than [frame_interval] has elapsed
    since [fps_timer], it does not call [draw_eyes]: the engine it returns
    is the one [Sequences.update] left (attributes, buffer and [fps_timer]
    included); and when no registered sequence is running, that is the
    engine it was called on, unchanged. *)
Theorem update_within_frame_interval_skips_redraw :
  forall (e : Engine) (ticks now draw_now : Z) (d : dice),
    (forall qs s,
        Sequences_update ticks (sequences e) (eyes e) = Ok (qs, s) ->
        now - fps_timer s < frame_interval s ->
        update ticks now draw_now d e = Ok {| eyes := s; sequences := qs |})
    /\ (Forall (fun q => _start q = None) (sequences e) ->
        now - fps_timer (eyes e) < frame_interval (eyes e) ->
        update ticks now draw_now d e = Ok e).
Proof.
  intros e ticks now draw_now d; split.
  - intros qs s E Hlt; unfold update; rewrite E.
    replace (now - fps_timer s >=? frame_interval s) with false; [reflexivity |].
    symmetry; rewrite Z.geb_leb; apply Z.leb_gt; exact Hlt.
  - intros Hidle Hlt; unfold update.
    rewrite (Sequences_update_idle _ ticks _ _ Hidle).
    replace (now - fps_timer (eyes e) >=? frame_interval (eyes e)) with false;
      [destruct e; reflexivity |].
    symmetry; rewrite Z.geb_leb; apply Z.leb_gt; exact Hlt.
Qed.

End UpdateFacts.

(** ** The mood flags *)

Section SchedulerInvariant.
Variable Owner : Type.
Variable P : Owner -> Prop.

Lemma update_steps_keeps :
  forall start ticks (l : list (StepData Owner)) (o : Owner),
    Forall (fun st => keeps P (callback st)) l -> P o ->
    P (snd (final (update_steps start ticks l o)))
    /\ Forall (fun st => keeps P (callback st))
              (fst (final (update_steps start ticks l o))).
Proof.
  intros start ticks l; induction l as [| st t IH]; intros o Hl Ho.
  - simpl; split; [exact Ho | constructor].
  - inversion Hl as [| st' t' Hst Ht]; subst; simpl.
    assert (Hstep :
              forall r : outcome (StepData Owner * Owner),
                r = (if done st then Ok (st, o)
                     else StepData_update start ticks st o) ->
                P (snd (final r)) /\ keeps P (callback (fst (final r)))).
    { intros r ->; unfold StepData_update.
      destruct (done st); [now split |].
      destruct (ticks - start <? ms_timing st); [now split |].
      pose proof (Hst o Ho) as Hcb.
      destruct (callback st o) as [o1 | e o1]; now split. }
    specialize (Hstep _ eq_refl).
    destruct (if done st then Ok (st, o) else StepData_update start ticks st o)
      as [[st1 o1] | e [st1 o1]]; simpl in Hstep; destruct Hstep as [Ho1 Hk1].
    + destruct (IH o1 Ht Ho1) as [Ho2 Hk2].
      destruct (update_steps start ticks t o1) as [[t2 o2] | e [t2 o2]];
        simpl in *; split; auto.
    + simpl; split; auto.
Qed.

Lemma Sequence_update_keeps :
  forall ticks (q : Sequence Owner) (o : Owner),
    Forall (fun st => keeps P (callback st)) (steps q) -> P o ->
    P (snd (final (Sequence_update ticks q o)))
    /\ Forall (fun st => keeps P (callback st))
              (steps (fst (final (Sequence_update ticks q o)))).
Proof.
  intros ticks q o Hq Ho; unfold Sequence_update.
  destruct (_start q) as [start |]; [| now split].
  destruct (update_steps_keeps start ticks (steps q) o Hq Ho) as [H1 H2].
  destruct (update_steps start ticks (steps q) o) as [[l1 o1] | e [l1 o1]];
    simpl in *; now split.
Qed.

Lemma Sequences_update_keeps :
  forall ticks (qs : list (Sequence Owner)) (o : Owner),
    callbacks_keep P qs -> P o ->
    P (snd (final (Sequences_update ticks qs o)))
    /\ callbacks_keep P (fst (final (Sequences_update ticks qs o))).
Proof.
  intros ticks qs; unfold callbacks_keep.
  induction qs as [| q t IH]; intros o Hqs Ho.
  - simpl; split; [exact Ho | constructor].
  - inversion Hqs as [| q' t' Hq Ht]; subst; simpl.
    destruct (Sequence_update_keeps ticks q o Hq Ho) as [H1 H2].
    destruct (Sequence_update ticks q o) as [[q1 o1] | e [q1 o1]];
      simpl in H1, H2.
    + destruct (IH o1 Ht H1) as [H3 H4].
      destruct (Sequences_update ticks t o1) as [[t2 o2] | e [t2 o2]];
        simpl in *; split; auto.
    + simpl; split; auto.
Qed.

Lemma adjust_Forall :
  forall (A : Type) (Q : A -> Prop) (f : A -> A) (l : list A) (i : nat),
    (forall a, Q a -> Q (f a)) -> Forall Q l -> Forall Q (adjust f i l).
Proof.
  intros A Q f l i Hf Hl; revert i.
  induction Hl as [| a t Ha Ht IH]; intros [| j]; simpl;
    constructor; auto.
Qed.

End SchedulerInvariant.

Lemma mood_setter_one_mood :
  forall value s, one_mood_at_most (mood_setter value s).
Proof.
  intros value s; destruct s; unfold one_mood_at_most; cbn.
  unfold TIRED, ANGRY, HAPPY.
  destruct (Z.eqb_spec value 1), (Z.eqb_spec value 2), (Z.eqb_spec value 3);
    subst; repeat split; intros; try discriminate; try lia; auto.
Qed.

Section MoodFacts.
Context {F : Type} {FO : FloatOps F}.

Lemma draw_eyes_good :
  forall now d s, good s -> good (final (draw_eyes now d s)).
Proof.
  intros now d s [Hwf Hm].
  assert (Hi : one_mood_at_most (interpolate (cleared s)))
    by (clear Hwf; revert Hm; revert s; flags_untouched).
  destruct (draw_eyes_establishes one_mood_at_most now d) with (s := s)
    as [H1 H2]; try flags_untouched; auto.
  - intros s0 b t tn a an h hn; revert s0; flags_untouched.
  - now split.
Qed.

Lemma perform_call_good :
  forall c s, good s -> good (final (perform_call c s)).
Proof.
  intros c s Hs; destruct c; cbn [perform_call final];
    try (now apply draw_eyes_good);
    try (destruct Hs as [Hwf Hm]; split;
         [clear Hm; revert Hwf | clear Hwf; revert Hm];
         revert s; flags_untouched).
  destruct Hs as [Hwf Hm]; split.
  - clear Hm; revert Hwf; revert s; flags_untouched.
  - apply mood_setter_one_mood.
Qed.

Lemma perform_calls_good :
  forall program, keeps good (perform_calls program).
Proof.
  intros program; induction program as [| c rest IH]; intros s Hs; simpl.
  - exact Hs.
  - pose proof (perform_call_good c s Hs) as H1.
    destruct (perform_call c s) as [s1 | e s1]; simpl in *; auto.
Qed.

Lemma update_sound :
  forall ticks now draw_now d e,
    sound e -> sound (final (update ticks now draw_now d e)).
Proof.
  intros ticks now draw_now d e [He Hq]; unfold update.
  destruct (Sequences_update_keeps _ good ticks _ _ Hq He) as [H1 H2].
  destruct (Sequences_update ticks (sequences e) (eyes e))
    as [[qs s] | ex [qs s]]; simpl in H1, H2; [| now split].
  destruct (now - fps_timer s >=? frame_interval s); [| now split].
  pose proof (draw_eyes_good draw_now d s H1) as H3.
  destruct (draw_eyes draw_now d s) as [s1 | ex s1]; simpl in *;
    split; auto.
  destruct H3 as [Hwf Hm]; clear H1 H2 Hq He; split;
    [clear Hm; revert Hwf | clear Hwf; revert Hm];
    revert s1; flags_untouched.
Qed.

Lemma serve_sound :
  forall r e, sound e -> sound (final (serve r e)).
Proof.
  intros r e He; destruct r; cbn [serve].
  - destruct He as [He Hq].
    pose proof (perform_call_good c _ He) as H1.
    destruct (perform_call c (eyes e)) as [s1 | ex s1]; simpl in *;
      now split.
  - destruct He as [He Hq]; split; [exact He |]; cbn.
    unfold callbacks_keep in *; apply Forall_app; split; [exact Hq |].
    repeat constructor.
  - destruct He as [He Hq]; split; [exact He |]; cbn.
    unfold callbacks_keep in *; apply adjust_Forall; [| exact Hq].
    intros q Hsteps; cbn; apply Forall_app; split; [exact Hsteps |].
    constructor; [| constructor]; cbn; apply perform_calls_good.
  - destruct He as [He Hq]; split; [exact He |]; cbn.
    unfold callbacks_keep in *; apply adjust_Forall; [| exact Hq].
    intros q Hsteps; exact Hsteps.
  - destruct He as [He Hq]; split; [exact He |]; cbn.
    unfold callbacks_keep in *; apply adjust_Forall; [| exact Hq].
    intros q Hsteps; cbn; rewrite Forall_map.
    eapply Forall_impl; [| exact Hsteps]; intros st Hst; exact Hst.
  - now apply update_sound.
Qed.

Lemma serve_all_sound :
  forall rs e, sound e -> sound (final (serve_all rs e)).
Proof.
  intros rs; induction rs as [| r rest IH]; intros e He; simpl.
  - exact He.
  - pose proof (serve_sound r e He) as H1.
    destruct (serve r e) as [e1 | ex e1]; simpl in *; auto.
Qed.

Lemma FastRoboEyes_init_good :
  forall width height frame_rate bg fg s0,
    FastRoboEyes_init width height frame_rate bg fg = inr s0 -> good s0.
Proof.
  intros width height frame_rate bg fg s0; unfold FastRoboEyes_init.
  destruct ((width <? 0) || (height <? 0)) eqn:Hdim; [discriminate |].
  destruct (frame_rate =? 0); [discriminate |].
  intros E; injection E as <-.
  apply orb_false_iff in Hdim; destruct Hdim as [Hw Hh].
  apply Z.ltb_ge in Hw, Hh.
  split.
  - unfold wf, shaped, len; cbn; split.
    + rewrite repeat_length; lia.
    + apply Forall_forall; intros row Hrow.
      apply repeat_spec in Hrow; subst row.
      rewrite repeat_length; lia.
  - unfold one_mood_at_most; cbn; repeat split; intros; discriminate.
Qed.

(** C10.  From construction on, through any sequence of public operations
    (method calls, [draw_eyes], [update], registering, starting and
    resetting sequences whose callbacks are themselves made of method
    calls), at most one of [tired], [angry], [happy] is set, also in the
    state an operation leaves when it raises; the [mood] setter
    establishes this for every value, known or not, and every other
    operation keeps the three flags. *)
Theorem one_mood_flag_at_most :
  forall (width height frame_rate : Z) (bg fg : color) (s0 : RoboEyes)
         (requests : list request),
    FastRoboEyes_init width height frame_rate bg fg = inr s0 ->
    one_mood_at_most
      (eyes (final (serve_all requests {| eyes := s0; sequences := [] |})))
    /\ (forall value s, one_mood_at_most (mood_setter value s))
    /\ (forall now d s1,
           RoboEyes_init width height frame_rate bg fg now d = inr s1 ->
           one_mood_at_most
             (eyes (final (serve_all requests
                                     {| eyes := s1; sequences := [] |})))).
Proof.
  intros width height frame_rate bg fg s0 requests Hinit.
  pose proof (FastRoboEyes_init_good _ _ _ _ _ _ Hinit) as H0.
  split; [| split].
  - apply (serve_all_sound requests {| eyes := s0; sequences := [] |}).
    split; [exact H0 | constructor].
  - apply mood_setter_one_mood.
  - intros now d s1; unfold RoboEyes_init; rewrite Hinit.
    pose proof (draw_eyes_good now d s0 H0) as H1.
    destruct (draw_eyes now d s0) as [s | ex s]; [| discriminate].
    intros E; injection E as <-.
    apply (serve_all_sound requests {| eyes := s; sequences := [] |}).
    split; [exact H1 | constructor].
Qed.

End MoodFacts.

(** ** The right eye's target *)

Section TargetFacts.
Context {F : Type} {FO : FloatOps F}.

(** C3, as amended.  In the state a tick ends in (cyclops or not, returning
    or raising), the right eye's target is the left eye's target as it was
    when the tick began, plus the left width and the spacing just
    interpolated.  If the idle macro did not fire in this tick, the left
    target is still that one, so the relation of the specification holds
    at the start of the next tick; if it fired, the left target has been
    redrawn after the right one was derived. *)
Theorem right_target_tracks_left_target :
  forall (now : Z) (d : dice) (s : RoboEyes),
    wf s ->
    let s' := final (draw_eyes now d s) in
    (eye_r_x_next s'
     = eye_l_x_next s + eye_l_width_current s' + space_between_current s'
     /\ eye_r_y_next s' = eye_l_y_next s)
    /\ (~ idle_fires now s -> right_tracks_left s').
Proof.
  intros now d s Hwf s'; subst s'.
  assert (H1 : eye_r_x_next (final (draw_eyes now d s))
               = eye_l_x_next s
                 + eye_l_width_current (final (draw_eyes now d s))
                 + space_between_current (final (draw_eyes now d s))
               /\ eye_r_y_next (final (draw_eyes now d s)) = eye_l_y_next s).
  { apply (draw_eyes_establishes
             (fun s1 =>
                eye_r_x_next s1
                = eye_l_x_next s + eye_l_width_current s1
                  + space_between_current s1
                /\ eye_r_y_next s1 = eye_l_y_next s) now d).
    - intros s0 b t tn a an h hn; revert s0; stage_keeps.
    - stage_keeps.
    - stage_keeps.
    - stage_keeps.
    - stage_keeps.
    - stage_keeps.
    - exact Hwf.
    - clear Hwf; destruct s; crunch; split; reflexivity. }
  split; [exact H1 |].
  intros Hquiet.
  assert (H2 : eye_l_x_next (final (draw_eyes now d s)) = eye_l_x_next s
               /\ eye_l_y_next (final (draw_eyes now d s)) = eye_l_y_next s
               /\ ~ idle_fires now (final (draw_eyes now d s))).
  { apply (draw_eyes_establishes
             (fun s1 =>
                eye_l_x_next s1 = eye_l_x_next s
                /\ eye_l_y_next s1 = eye_l_y_next s
                /\ ~ idle_fires now s1) now d); unfold idle_fires in *.
    - intros s0 b t tn a an h hn; revert s0; stage_keeps.
    - stage_keeps.
    - stage_keeps.
    - stage_keeps.
    - stage_keeps; exfalso; destruct H as (_ & _ & H); apply H;
        (split; [reflexivity |]);
        match goal with
        | Hc : (_ >=? _) = true |- _ =>
            rewrite Z.geb_leb in Hc; now apply Z.leb_le in Hc
        end.
    - stage_keeps.
    - exact Hwf.
    - clear Hwf; revert Hquiet; destruct s; cbn; intros Hquiet; crunch;
        repeat split; auto. }
  unfold right_tracks_left.
  destruct H1 as [H1x H1y], H2 as (H2x & H2y & _).
  rewrite H2x, H2y; split; assumption.
Qed.

End TargetFacts.

(** ** Eye sizes and the border radius *)

Lemma clamp_radius_capped :
  forall w h r, clamp_radius w h r <= Z.min w h / 2.
Proof.
  intros w h r; unfold clamp_radius.
  destruct (Z.min_spec w h) as [[Hlt ->] | [Hle ->]]; lia.
Qed.

Section SizeFacts.
Context {F : Type} {FO : FloatOps F}.

Lemma draw_eyes_sizes_nonneg :
  forall now d s,
    wf s -> sizes_nonneg s ->
    sizes_nonneg (final (draw_eyes now d s)) /\ wf (final (draw_eyes now d s)).
Proof.
  intros now d s Hwf Hs.
  apply (draw_eyes_establishes sizes_nonneg now d).
  - intros s0 b t tn a an h hn; revert s0; sizes_stage.
  - sizes_stage.
  - sizes_stage.
  - sizes_stage.
  - sizes_stage.
  - sizes_stage.
  - exact Hwf.
  - clear Hwf; revert Hs; revert s; sizes_stage.
Qed.

Lemma run_ticks_sizes_nonneg :
  forall inputs s,
    wf s -> sizes_nonneg s -> sizes_nonneg (final (run_ticks inputs s)).
Proof.
  intros inputs; induction inputs as [| [now d] rest IH]; intros s Hwf Hs.
  - exact Hs.
  - cbn [run_ticks].
    destruct (draw_eyes_sizes_nonneg now d s Hwf Hs) as [H1 H2].
    destruct (draw_eyes now d s) as [s1 | e s1]; cbn [bind final] in *; auto.
Qed.

(** C1, as amended.  Ticks keep the heights and widths of both eyes
    non-negative, from every state in which they and their targets
    ([height_next], [height_default], [width_next]) are non-negative, as
    after construction.  The border radius is interpolated on its own and
    is not bounded by the size of the eye; what is bounded by
    [min(width, height) // 2] is the radius [draw_rounded_rect] clamps it
    to when the eye is drawn. *)
Theorem ticks_keep_sizes_nonnegative :
  forall (inputs : list (Z * dice)) (s : RoboEyes),
    wf s -> sizes_nonneg s -> drawn_shape_ok (final (run_ticks inputs s)).
Proof.
  intros inputs s Hwf Hs.
  destruct (run_ticks_sizes_nonneg inputs s Hwf Hs)
    as [(Hl1 & _ & _ & Hl2 & _) (Hr1 & _ & _ & Hr2 & _)].
  unfold drawn_shape_ok; repeat split; auto using clamp_radius_capped.
Qed.

Lemma FastRoboEyes_init_sizes_nonneg :
  forall width height frame_rate bg fg s0,
    FastRoboEyes_init width height frame_rate bg fg = inr s0 ->
    sizes_nonneg s0.
Proof.
  intros width height frame_rate bg fg s0; unfold FastRoboEyes_init.
  destruct ((width <? 0) || (height <? 0)); [discriminate |].
  destruct (frame_rate =? 0); [discriminate |].
  intros E; injection E as <-.
  unfold sizes_nonneg; cbn; lia.
Qed.

End SizeFacts.

(** ** Blinking *)

Lemma iterate_add :
  forall (A : Type) (f : A -> A) (n m : nat) (x : A),
    iterate (n + m) f x = iterate m f (iterate n f x).
Proof.
  intros A f n; induction n as [| k IH]; intros m x; simpl; auto.
Qed.

Lemma iterate_fixed :
  forall (A : Type) (f : A -> A) (x : A),
    f x = x -> forall n, iterate n f x = x.
Proof.
  intros A f x Hx n; induction n as [| k IH]; simpl; [| rewrite Hx]; auto.
Qed.

(** Closing: from any height the lid reaches 1 or less with target 1, and
    the target is then its default. *)
Lemma lid_closes :
  forall d h,
    0 <= h ->
    exists k h1,
      iterate k (lid_step true d) (h, 1) = (h1, d) /\ 0 <= h1 <= 1.
Proof.
  intros d h Hh; generalize Hh; pattern h; apply Z_lt_induction; [| exact Hh].
  clear h Hh; intros h IH Hh.
  destruct (Z_le_gt_dec ((h + 1) / 2) 1) as [Hle | Hgt].
  - exists 1%nat, ((h + 1) / 2); simpl; unfold lid_step; simpl.
    replace ((h + 1) / 2 <=? 1) with true
      by (symmetry; apply Z.leb_le; exact Hle).
    split; [reflexivity | halves].
  - assert (Hlt : 0 <= (h + 1) / 2 < h) by halves.
    destruct (IH _ Hlt (proj1 Hlt)) as (k & h1 & Hk & Hh1).
    exists (Datatypes.S k), h1; simpl; unfold lid_step at 2; simpl.
    replace ((h + 1) / 2 <=? 1) with false
      by (symmetry; apply Z.leb_gt; lia).
    split; assumption.
Qed.

(** Opening: with the default [d >= 2] as target, the height climbs to
    [d - 1] and stays there: [(d - 1 + d) // 2 = d - 1]. *)
Lemma lid_opens :
  forall opening d,
    2 <= d ->
    forall h,
      0 <= h <= d - 1 ->
      exists k,
        forall m, (k <= m)%nat ->
                  iterate m (lid_step opening d) (h, d) = (d - 1, d).
Proof.
  intros opening d Hd h Hh.
  assert (Hstep : forall x, lid_step opening d (x, d) = ((x + d) / 2, d)).
  { intros x; unfold lid_step; simpl.
    destruct (opening && ((x + d) / 2 <=? 1)); reflexivity. }
  remember (Z.to_nat (d - 1 - h)) as gap eqn:Hgap.
  revert h Hh Hgap; induction gap as [gap IH] using lt_wf_ind.
  intros h Hh Hgap.
  destruct (Z.eq_dec h (d - 1)) as [-> | Hne].
  - exists 0%nat; intros m _; apply iterate_fixed.
    rewrite Hstep; f_equal; halves.
  - assert (Hup : h < (h + d) / 2 <= d - 1) by halves.
    destruct (IH (Z.to_nat (d - 1 - (h + d) / 2))) with (h := (h + d) / 2)
      as [k Hk]; try lia.
    exists (Datatypes.S k); intros [| m] Hm; [lia |].
    simpl; rewrite Hstep; apply Hk; lia.
Qed.

(** A blink ends at [default - 1]. *)
Lemma lid_blinks :
  forall d h,
    2 <= d -> 0 <= h ->
    exists n,
      forall m, (n <= m)%nat ->
                iterate m (lid_step true d) (h, 1) = (d - 1, d).
Proof.
  intros d h Hd Hh.
  destruct (lid_closes d h Hh) as (k1 & h1 & Hk1 & Hh1).
  destruct (lid_opens true d Hd h1) as [k2 Hk2]; [lia |].
  exists (k1 + k2)%nat; intros m Hm.
  replace m with (k1 + (m - k1))%nat by lia.
  rewrite iterate_add, Hk1; apply Hk2; lia.
Qed.

(** Below its default, with a target at most the default, the height stays
    below the default for ever. *)
Lemma lid_stays_below :
  forall opening d n h nx,
    h <= d - 1 -> nx <= d ->
    fst (iterate n (lid_step opening d) (h, nx)) <= d - 1.
Proof.
  intros opening d n; induction n as [| k IH]; intros h nx Hh Hnx; simpl.
  - exact Hh.
  - unfold lid_step; simpl; apply IH.
    + halves.
    + destruct (opening && ((h + nx) / 2 <=? 1)); lia.
Qed.

Section BlinkFacts.
Context {F : Type} {FO : FloatOps F}.

Lemma quiet_tick :
  forall now d s,
    wf s -> quiet s ->
    exists s',
      draw_eyes now d s = Ok s' /\ wf s' /\ quiet s'
      /\ lids s' = lids_step (lids s).
Proof.
  intros now d s Hwf Hq.
  destruct (draw_eyes_returns now d s Hwf) as [s' E]; try apply Hq.
  exists s'; split; [exact E |].
  assert (H : (quiet (final (draw_eyes now d s))
               /\ lids (final (draw_eyes now d s)) = lids_step (lids s))
              /\ wf (final (draw_eyes now d s))).
  { apply (draw_eyes_establishes
             (fun s1 => quiet s1 /\ lids s1 = lids_step (lids s)) now d).
    - intros s0 b t tn a an h hn; revert s0; quiet_stage.
    - quiet_stage.
    - quiet_stage.
    - quiet_stage.
    - quiet_stage.
    - quiet_stage.
    - exact Hwf.
    - clear Hwf E; revert Hq; destruct s; unfold quiet, lids, lids_step, lid_step.
      cbn; intros (-> & Hb & Hi); cbn; rewrite !Z.add_0_r; crunch;
        (split; [repeat split; assumption | reflexivity]). }
  rewrite E in H; cbn [final] in H.
  destruct H as [[H1 H2] H3]; split; [exact H3 | split; [exact H1 | exact H2]].
Qed.

Lemma quiet_ticks :
  forall inputs s,
    wf s -> quiet s ->
    exists s',
      run_ticks inputs s = Ok s' /\ wf s' /\ quiet s'
      /\ lids s' = iterate (length inputs) lids_step (lids s).
Proof.
  intros inputs; induction inputs as [| [now d] rest IH]; intros s Hwf Hq.
  - exists s; split; [reflexivity | split; [exact Hwf | split; [exact Hq |]]].
    reflexivity.
  - destruct (quiet_tick now d s Hwf Hq) as (s1 & E1 & Hwf1 & Hq1 & Hl1).
    destruct (IH s1 Hwf1 Hq1) as (s' & E & Hwf' & Hq' & Hl').
    exists s'; split; [cbn [run_ticks]; rewrite E1; exact E |].
    split; [exact Hwf' | split; [exact Hq' |]].
    cbn [length iterate]; rewrite <- Hl1; exact Hl'.
Qed.

End BlinkFacts.

Lemma iterate_lids_step :
  forall n ol dl l or dr r,
    iterate n lids_step ((ol, dl, l), (or, dr, r))
    = ((ol, dl, iterate n (lid_step ol dl) l),
       (or, dr, iterate n (lid_step or dr) r)).
Proof.
  intros n; induction n as [| k IH]; intros; simpl; [reflexivity |].
  now rewrite IH.
Qed.

Lemma blink_keeps_quiet :
  forall left right s,
    wf s -> quiet s -> wf (blink left right s) /\ quiet (blink left right s).
Proof.
  intros left right s Hwf Hq; destruct s; unfold wf, quiet in *.
  destruct left as [l |], right as [r |]; cbn in *; split; assumption.
Qed.

Lemma blink_lids :
  forall left right s,
    (blinks_left left right = true ->
     fst (lids (blink left right s))
     = (true, eye_l_height_default s, (eye_l_height_current s, 1)))
    /\ (blinks_right left right = true ->
        snd (lids (blink left right s))
        = (true, eye_r_height_default s, (eye_r_height_current s, 1))).
Proof.
  intros left right s; destruct s.
  destruct left as [l |], right as [r |]; cbn; split; intros H;
    try discriminate H; reflexivity.
Qed.

Section BlinkTheorem.
Context {F : Type} {FO : FloatOps F}.


End BlinkTheorem.

(** ** The claims that fail, at explicit inputs *)

(** C1, the claim as stated fails.  A 128x64 engine is constructed (one
    tick runs inside the constructor), [blink()] is called and one tick
    runs: the left eye is 36 wide and 9 high with a border radius of 8,
    above [min(36, 9) // 2 = 4]. *)
Lemma radius_exceeds_half_height_after_blink :
  exists s0 s1,
    RoboEyes_init (F := Q) 128 64 60 black light_blue 0 still = inr s0
    /\ run_ticks (F := Q) [(16, still)] (blink None None s0) = Ok s1
    /\ eye_l_width_current s1 = 36
    /\ eye_l_height_current s1 = 9
    /\ eye_l_border_radius_current s1 = 8
    /\ ~ eye_shape_claim s1.
Proof.
  do 2 eexists.
  split; [vm_compute; reflexivity |].
  split; [vm_compute; reflexivity |].
  split; [reflexivity |].
  split; [reflexivity |].
  split; [reflexivity |].
  intros (_ & _ & H & _); vm_compute in H; apply H; reflexivity.
Qed.

Lemma FastRoboEyes_init_lids :
  forall width height frame_rate bg fg s0,
    FastRoboEyes_init width height frame_rate bg fg = inr s0 ->
    quiet s0 /\ lids s0 = ((false, 36, (1, 36)), (false, 36, (1, 36))).
Proof.
  intros width height frame_rate bg fg s0; unfold FastRoboEyes_init.
  destruct ((width <? 0) || (height <? 0)); [discriminate |].
  destruct (frame_rate =? 0); [discriminate |].
  intros E; injection E as <-.
  unfold quiet, lids; cbn; repeat split.
Qed.


(** C3, the claim as stated fails.  On a 128x64 engine with idle mode on,
    the tick at clock 1000 lets the idle macro draw the new left target
    [x = 0] after the right target was set from the old one (23): the tick
    ends with [eye_r_x_next = 69], not [0 + 36 + 10 = 46]. *)
Lemma idle_moves_left_target_after_right_is_derived :
  exists s0 s1,
    FastRoboEyes_init 128 64 60 black light_blue = inr s0
    /\ draw_eyes (F := Q) 1000 still (set_idle_mode true None None s0) = Ok s1
    /\ eye_l_x_next s1 = 0
    /\ eye_l_width_current s1 = 36
    /\ space_between_current s1 = 10
    /\ eye_r_x_next s1 = 69
    /\ ~ right_tracks_left s1.
Proof.
  do 2 eexists.
  split; [reflexivity |].
  split; [vm_compute; reflexivity |].
  split; [reflexivity |].
  split; [reflexivity |].
  split; [reflexivity |].
  split; [reflexivity |].
  intros [H _]; vm_compute in H; discriminate H.
Qed.


(** ** The theorems at work on sample inputs *)

Lemma blank_shaped : shaped 64 128 blank.
Proof.
  split; [reflexivity |].
  apply Forall_forall; intros row Hrow.
  apply repeat_spec in Hrow; subst row; reflexivity.
Qed.

Lemma ticks_keep_sizes_nonnegative_witness :
  exists s0,
    FastRoboEyes_init 128 64 60 black light_blue = inr s0
    /\ wf s0 /\ sizes_nonneg s0
    /\ drawn_shape_ok
         (final (run_ticks (F := Q) [(0, still); (16, still)] s0)).
Proof.
  eexists; split; [reflexivity |].
  match goal with
  | |- wf ?s /\ _ =>
      assert (Hwf : wf s) by exact blank_shaped;
      assert (Hs : sizes_nonneg s) by (unfold sizes_nonneg; cbn; lia)
  end.
  split; [exact Hwf | split; [exact Hs |]].
  exact (ticks_keep_sizes_nonnegative (F := Q) _ _ Hwf Hs).
Defined.


Lemma right_target_tracks_left_target_witness :
  exists s0,
    FastRoboEyes_init 128 64 60 black light_blue = inr s0
    /\ wf s0
    /\ right_tracks_left (final (draw_eyes (F := Q) 0 still s0)).
Proof.
  eexists; split; [reflexivity |].
  match goal with
  | |- wf ?s /\ _ => assert (Hwf : wf s) by exact blank_shaped
  end.
  split; [exact Hwf |].
  apply (proj2 (right_target_tracks_left_target (F := Q) 0 still _ Hwf)).
  intros [Hi _]; discriminate Hi.
Defined.

Lemma position_setter_targets_witness :
  exists s0,
    FastRoboEyes_init 100 100 60 black light_blue = inr s0
    /\ (eye_l_x_next (position_setter (Some Direction.W) s0),
        eye_l_y_next (position_setter (Some Direction.W) s0)) = (0, 32).
Proof.
  eexists; split; [reflexivity |].
  match goal with
  | |- (eye_l_x_next (position_setter _ ?s), _) = _ =>
      pose proof (position_setter_targets s (Some Direction.W)) as H
  end.
  cbv zeta in H; destruct H as (_ & _ & _ & _ & _ & HW & _).
  exact (HW eq_refl).
Defined.

Lemma wink_contract_witness :
  exists s0,
    FastRoboEyes_init 128 64 60 black light_blue = inr s0
    /\ wink None None s0 = Raise ValueError s0
    /\ wink (Some ON) None s0
       = Ok (blink (Some ON) None
                   (with_idle false (with_autoblinker false s0))).
Proof.
  eexists; split; [reflexivity |]; split.
  - exact (proj1 (wink_contract _ None None) eq_refl).
  - exact (proj1 (proj2 (wink_contract _ (Some ON) None) eq_refl)).
Defined.

Lemma radius_beyond_cap_same_pixels_witness :
  0 < 36 /\ 0 < 9 /\ Z.min 36 9 / 2 <= 8
  /\ draw_rounded_rect (F := Q) 128 64 blank 10 20 36 9 8 light_blue
     = draw_rounded_rect (F := Q) 128 64 blank 10 20 36 9 4 light_blue.
Proof.
  assert (H1 : 0 < 36) by lia.
  assert (H2 : 0 < 9) by lia.
  assert (H3 : Z.min 36 9 / 2 <= 8) by (vm_compute; discriminate).
  split; [exact H1 | split; [exact H2 | split; [exact H3 |]]].
  exact (proj2 (proj2 (radius_beyond_cap_same_pixels
                         (F := Q) 128 64 blank light_blue 10 20 36 9 8
                         H1 H2 H3))).
Defined.


Lemma Sequence_update_fires_each_due_step_once_witness :
  Sequence_update 1060 three_notes []
  = Ok ({| steps := mark_due 1000 1060 (steps three_notes);
           _start := Some 1000 |}, [1; 3])
  /\ map done (mark_due 1000 1060 (steps three_notes)) = [true; false; true]
  /\ Sequence_done three_notes = false.
Proof.
  split; [| split; reflexivity].
  exact (proj1 (proj1 (proj2 (Sequence_update_fires_each_due_step_once
                                (list Z) three_notes 1060 []))
                      1000 [1; 3] eq_refl eq_refl)).
Defined.

Lemma update_within_frame_interval_skips_redraw_witness :
  exists s0,
    FastRoboEyes_init 128 64 60 black light_blue = inr s0
    /\ 5 - fps_timer s0 < frame_interval s0
    /\ update (F := Q) 5 5 5 still {| eyes := s0; sequences := [] |}
       = Ok {| eyes := s0; sequences := [] |}.
Proof.
  eexists; split; [reflexivity |].
  assert (H : 5 - 0 < 1000 / 60) by (vm_compute; reflexivity).
  split; [exact H |].
  match goal with
  | |- update _ _ _ _ ?e = _ =>
      exact (proj2 (update_within_frame_interval_skips_redraw
                      (F := Q) e 5 5 5 still)
                   (Forall_nil _) H)
  end.
Defined.

Lemma one_mood_flag_at_most_witness :
  exists s0,
    FastRoboEyes_init 128 64 60 black light_blue = inr s0
    /\ one_mood_at_most
         (eyes (final (serve_all (F := Q)
                                 [Invoke (Call_mood HAPPY);
                                  Invoke (Call_draw_eyes 0 still);
                                  Invoke (Call_mood 42)]
                                 {| eyes := s0; sequences := [] |}))).
Proof.
  eexists; split; [reflexivity |].
  exact (proj1 (one_mood_flag_at_most
                  (F := Q) 128 64 60 black light_blue _ _ eq_refl)).
Defined.


(* ===================================================================== *)
(** * Further properties of the rasterizer                                *)
(* ===================================================================== *)

(** ** What an assignment does to the pixels *)

Lemma update_span_nth :
  forall (A : Type) (f : A -> A) lo hi (l : list A) i k d,
    (k < length l)%nat ->
    nth k (update_span f lo hi i l) d
    = if (lo <=? i + Z.of_nat k) && (i + Z.of_nat k <? hi)
      then f (nth k l d) else nth k l d.
Proof.
  intros A f lo hi l; induction l as [| a t IH]; intros i k d Hk.
  - simpl in Hk; lia.
  - destruct k as [| k]; cbn [update_span nth].
    + now rewrite Z.add_0_r.
    + rewrite IH by (simpl in Hk; lia).
      replace (i + 1 + Z.of_nat k) with (i + Z.of_nat (Datatypes.S k)) by lia.
      reflexivity.
Qed.

Lemma slice_index_in_range :
  forall n i, 0 <= i <= n -> slice_index n i = i.
Proof.
  intros n i Hi; unfold slice_index.
  destruct (i <? 0) eqn:E; [apply Z.ltb_lt in E; lia | lia].
Qed.

Lemma assign_slice_nth :
  forall (A : Type) (f : A -> A) a b (l : list A) k d,
    0 <= a <= b -> b <= len l -> (k < length l)%nat ->
    nth k (assign_slice f a b l) d
    = if (a <=? Z.of_nat k) && (Z.of_nat k <? b)
      then f (nth k l d) else nth k l d.
Proof.
  intros A f a b l k d Ha Hb Hk; unfold assign_slice.
  rewrite !slice_index_in_range by lia.
  now rewrite update_span_nth.
Qed.

Lemma shaped_row :
  forall H W b py,
    shaped H W b -> 0 <= py < H -> len (nth (Z.to_nat py) b []) = W.
Proof.
  intros H W b py [Hh Hw] Hpy; rewrite Forall_forall in Hw.
  apply Hw, nth_In; unfold len in Hh; lia.
Qed.

Lemma paint_row_nth :
  forall c x1 x2 (row : list color) px d,
    0 <= x1 <= x2 -> x2 <= len row -> 0 <= px < len row ->
    nth (Z.to_nat px) (assign_slice (fun _ => c) x1 x2 row) d
    = if (x1 <=? px) && (px <? x2) then c else nth (Z.to_nat px) row d.
Proof.
  intros c x1 x2 row px d Hx1 Hx2 Hpx; unfold len in *.
  rewrite assign_slice_nth by (unfold len; lia).
  now rewrite Z2Nat.id by lia.
Qed.

Lemma perform_pixel :
  forall c H W b s b' py px,
    shaped H W b -> in_screen H W s -> perform c b s = Ok b' ->
    0 <= py < H -> 0 <= px < W ->
    pixel b' py px = if covers s py px then c else pixel b py px.
Proof.
  intros c H W b s b' py px Hb Hs E Hpy Hpx.
  pose proof (shaped_row H W b py Hb Hpy) as Hrow.
  assert (Hlen : len b = H) by apply Hb.
  destruct s as [y1 y2 x1 x2 | y x1 x2]; simpl in Hs, E.
  - injection E as <-; unfold pixel, assign_block, covers.
    rewrite assign_slice_nth by (unfold len in *; lia).
    rewrite Z2Nat.id by lia.
    destruct ((y1 <=? py) && (py <? y2)); cbn [andb]; [| reflexivity].
    apply paint_row_nth; lia.
  - unfold assign_row in E.
    replace ((y <? - len b) || (len b <=? y)) with false in E
      by (symmetry; apply orb_false_iff; split;
          [apply Z.ltb_ge | apply Z.leb_gt]; lia).
    replace (y <? 0) with false in E by (symmetry; apply Z.ltb_ge; lia).
    injection E as <-; unfold pixel, covers.
    rewrite update_span_nth by (unfold len in *; lia).
    rewrite Z2Nat.id, Z.add_0_l by lia.
    replace ((y <=? py) && (py <? y + 1)) with (y =? py)
      by (destruct (Z.eqb_spec y py);
          [subst; rewrite Z.leb_refl; symmetry; apply Z.ltb_lt; lia
          | symmetry; apply andb_false_iff;
            destruct (Z_lt_le_dec py y);
            [left; apply Z.leb_gt | right; apply Z.ltb_ge]; lia]).
    destruct (y =? py); cbn [andb]; [| reflexivity].
    apply paint_row_nth; lia.
Qed.

Lemma perform_all_pixel :
  forall c H W l b b' py px,
    shaped H W b -> Forall (in_screen H W) l -> perform_all c l b = Ok b' ->
    0 <= py < H -> 0 <= px < W ->
    pixel b' py px = if painted l py px then c else pixel b py px.
Proof.
  intros c H W l; induction l as [| s t IH]; intros b b' py px Hb Hl E Hpy Hpx.
  - simpl in E; injection E as <-; reflexivity.
  - inversion Hl as [| s' t' Hs Ht]; subst.
    simpl in E.
    destruct (perform_in_screen c H W b s Hb Hs) as (b1 & E1 & Hb1).
    rewrite E1 in E; simpl in E.
    rewrite (IH b1 b' py px Hb1 Ht E Hpy Hpx).
    rewrite (perform_pixel c H W b s b1 py px Hb Hs E1 Hpy Hpx).
    unfold painted; simpl.
    destruct (covers s py px); simpl.
    + now destruct (existsb (fun s0 => covers s0 py px) t).
    + reflexivity.
Qed.

Lemma covers_inside :
  forall top bottom left right s py px,
    inside top bottom left right s -> covers s py px = true ->
    top <= py < bottom /\ left <= px < right.
Proof.
  intros top bottom left right [y1 y2 x1 x2 | y x1 x2] py px Hs Hc;
    simpl in *;
    repeat (apply andb_prop in Hc; destruct Hc as [Hc ?]); lia.
Qed.

Lemma painted_inside :
  forall top bottom left right l py px,
    Forall (inside top bottom left right) l -> painted l py px = true ->
    top <= py < bottom /\ left <= px < right.
Proof.
  intros top bottom left right l py px Hl Hp; unfold painted in Hp.
  apply existsb_exists in Hp; destruct Hp as [s [Hin Hc]].
  rewrite Forall_forall in Hl; eapply covers_inside; eauto.
Qed.

Lemma painted_app :
  forall l1 l2 py px,
    painted (l1 ++ l2) py px = painted l1 py px || painted l2 py px.
Proof. intros; unfold painted; apply existsb_app. Qed.

(** [dx_max] never exceeds the radius. *)
Lemma dx_max_bounds :
  forall r dy, 0 <= r -> 0 <= Z.sqrt (Z.max 0 (r * r - dy * dy)) <= r.
Proof.
  intros r dy Hr; split; [apply Z.sqrt_nonneg |].
  apply Z.le_trans with (Z.sqrt (r * r)).
  - apply Z.sqrt_le_mono; nia.
  - rewrite Z.sqrt_square by exact Hr; lia.
Qed.

Lemma guarded_block_inside :
  forall top bottom left right y1 y2 x1 x2,
    top <= y1 -> y2 <= bottom -> left <= x1 -> x2 <= right ->
    Forall (inside top bottom left right) (guarded_block y1 y2 x1 x2).
Proof.
  intros; unfold guarded_block.
  destruct ((x2 >? x1) && (y2 >? y1)); repeat constructor; assumption.
Qed.

Lemma draw_circle_corner_inside :
  forall W H cx cy r k,
    0 <= r ->
    Forall (inside (cy - r) (cy + r + 1) (cx - r) (cx + r + 1))
           (_draw_circle_corner W H cx cy r k).
Proof.
  intros W H cx cy r k Hr; unfold _draw_circle_corner.
  apply Forall_forall; intros s Hs.
  apply in_flat_map in Hs; destruct Hs as [dy [Hdy Hs]].
  apply In_range in Hdy.
  pose proof (dx_max_bounds r dy Hr) as Hdx.
  unfold corner_scanline in Hs.
  destruct ((cy + dy <? 0) || (cy + dy >=? H)); [contradiction |].
  destruct k; cbv zeta beta iota in Hs;
    match type of Hs with
    | context [?a >? ?b] => destruct (a >? b)
    end; try contradiction;
    destruct Hs as [<- | []]; simpl; lia.
Qed.

Lemma inside_weaken :
  forall t b l r t' b' l' r' s,
    t' <= t -> b <= b' -> l' <= l -> r <= r' ->
    inside t b l r s -> inside t' b' l' r' s.
Proof. intros t b l r t' b' l' r' [|]; simpl; intros; lia. Qed.

Lemma clamp_radius_halves :
  forall w h r, 2 * clamp_radius w h r <= w /\ 2 * clamp_radius w h r <= h.
Proof. intros w h r; unfold clamp_radius; split; halves. Qed.

(** The rounded rectangle stays in the box of its corners, the column
    [x + w] and the row [y + h] included. *)
Lemma draw_rounded_rect_stores_inside :
  forall W H x y w h r,
    Forall (inside y (y + h + 1) x (x + w + 1))
           (draw_rounded_rect_stores W H x y w h r).
Proof.
  intros W H x y w h r; unfold draw_rounded_rect_stores; cbv zeta.
  destruct (clamp_radius_halves w h r) as [Hw Hh].
  destruct ((clamp_radius w h r <=? 0) || (w <=? 0) || (h <=? 0)) eqn:G.
  - unfold guarded_block.
    destruct ((Z.min W (x + w) >? Z.max 0 x)
              && (Z.min H (y + h) >? Z.max 0 y)); repeat constructor; lia.
  - apply orb_false_iff in G; destruct G as [G _].
    apply orb_false_iff in G; destruct G as [G _].
    apply Z.leb_gt in G.
    repeat (apply Forall_app; split);
      try (apply guarded_block_inside; lia);
      (eapply Forall_impl;
       [| apply draw_circle_corner_inside; lia]);
      intros s; apply inside_weaken; lia.
Qed.

Lemma painted_In :
  forall l s py px, In s l -> covers s py px = true -> painted l py px = true.
Proof.
  intros l s py px Hin Hc; unfold painted; apply existsb_exists; eauto.
Qed.

Lemma guarded_block_covers :
  forall y1 y2 x1 x2 py px,
    y1 <= py < y2 -> x1 <= px < x2 ->
    In (Block y1 y2 x1 x2) (guarded_block y1 y2 x1 x2)
    /\ covers (Block y1 y2 x1 x2) py px = true.
Proof.
  intros y1 y2 x1 x2 py px Hy Hx; unfold guarded_block; split.
  - replace ((x2 >? x1) && (y2 >? y1)) with true; [now left |].
    symmetry; apply andb_true_iff; split; apply Z.gtb_lt; lia.
  - simpl; repeat (apply andb_true_iff; split);
      try apply Z.leb_le; try apply Z.ltb_lt; lia.
Qed.

(** The cross of a rounded rectangle: the pixels of the rectangle that lie
    between the corner columns or between the corner rows. *)
Lemma cross_is_painted :
  forall W H x y w h r py px,
    0 <= py < H -> 0 <= px < W ->
    x <= px < x + w -> y <= py < y + h ->
    x + clamp_radius w h r <= px < x + w - clamp_radius w h r
    \/ y + clamp_radius w h r <= py < y + h - clamp_radius w h r ->
    painted (draw_rounded_rect_stores W H x y w h r) py px = true.
Proof.
  intros W H x y w h r py px Hpy Hpx Hx Hy Hcross.
  unfold draw_rounded_rect_stores; cbv zeta.
  set (c := clamp_radius w h r) in *.
  destruct ((c <=? 0) || (w <=? 0) || (h <=? 0)) eqn:G.
  - destruct (guarded_block_covers
                (Z.max 0 y) (Z.min H (y + h)) (Z.max 0 x) (Z.min W (x + w))
                py px) as [Hin Hc]; try lia.
    eapply painted_In; eauto.
  - apply orb_false_iff in G; destruct G as [G _].
    apply orb_false_iff in G; destruct G as [G _].
    apply Z.leb_gt in G.
    rewrite !painted_app.
    destruct (Z_lt_le_dec py (y + c)) as [Htop | Hlow].
    + destruct (guarded_block_covers
                  (Z.max 0 y) (Z.min H (y + c))
                  (Z.max 0 (x + c)) (Z.min W (x + w - c))
                  py px) as [Hin Hc]; try lia.
      rewrite (painted_In _ _ _ _ Hin Hc); reflexivity.
    + destruct (Z_lt_le_dec py (y + h - c)) as [Hmid | Hbot].
      * destruct (guarded_block_covers
                    (Z.max 0 (y + c)) (Z.min H (y + h - c))
                    (Z.max 0 x) (Z.min W (x + w))
                    py px) as [Hin Hc]; try lia.
        rewrite (painted_In _ _ _ _ Hin Hc).
        now rewrite orb_true_r.
      * destruct (guarded_block_covers
                    (Z.max 0 (y + h - c)) (Z.min H (y + h))
                    (Z.max 0 (x + c)) (Z.min W (x + w - c))
                    py px) as [Hin Hc]; try lia.
        rewrite (painted_In _ _ _ _ Hin Hc).
        now rewrite !orb_true_r.
Qed.

(** The right-hand corners reach the column [x + w]. *)
Lemma column_past_the_width_is_painted :
  forall W H x y w h r,
    1 <= clamp_radius w h r ->
    0 <= y + clamp_radius w h r < H -> 0 <= x + w < W ->
    painted (draw_rounded_rect_stores W H x y w h r)
            (y + clamp_radius w h r) (x + w) = true.
Proof.
  intros W H x y w h r Hc Hy Hx.
  destruct (clamp_radius_halves w h r) as [Hw Hh].
  unfold draw_rounded_rect_stores; cbv zeta.
  set (c := clamp_radius w h r) in *.
  replace ((c <=? 0) || (w <=? 0) || (h <=? 0)) with false
    by (symmetry; repeat (apply orb_false_iff; split); apply Z.leb_gt; lia).
  rewrite !painted_app.
  assert (Hp : painted (_draw_circle_corner W H (x + w - c) (y + c) c TR)
                       (y + c) (x + w) = true).
  { apply painted_In
      with (s := Row (y + c) (Z.max 0 (x + w - c)) (x + w + 1)).
    - unfold _draw_circle_corner; apply in_flat_map; exists 0; split.
      + apply In_range; lia.
      + unfold corner_scanline.
        replace ((y + c + 0 <? 0) || (y + c + 0 >=? H)) with false
          by (symmetry; apply orb_false_iff; split;
              [apply Z.ltb_ge | rewrite Z.geb_leb; apply Z.leb_gt]; lia).
        replace (Z.sqrt (Z.max 0 (c * c - 0 * 0))) with c
          by (rewrite Z.sub_0_r, Z.max_r by nia;
              symmetry; apply Z.sqrt_square; lia).
        cbv iota beta.
        replace (Z.min W (x + w - c + c + 1)) with (x + w + 1) by lia.
        replace (x + w + 1 >? Z.max 0 (x + w - c)) with true
          by (symmetry; apply Z.gtb_lt; lia).
        rewrite Z.add_0_r; now left.
    - simpl; repeat (apply andb_true_iff; split);
        try apply Z.eqb_refl; try apply Z.leb_le; try apply Z.ltb_lt; lia. }
  rewrite Hp; now rewrite !orb_true_r.
Qed.

(** ** The rows of a triangle *)

Section TriangleRows.
Context {F : Type} {FO : FloatOps F}.

Lemma scanlines_inside :
  forall W H advance (i1 i2 : F) top bottom ys curx1 curx2,
    Forall (fun y => top <= y < bottom) ys ->
    Forall (inside top bottom 0 W)
           (scanlines W H advance i1 i2 ys curx1 curx2).
Proof.
  intros W H advance i1 i2 top bottom ys curx1 curx2 Hys.
  revert curx1 curx2; induction Hys as [| y t Hy Ht IH]; intros; simpl.
  - constructor.
  - apply Forall_app; split; [| apply IH].
    unfold scanline.
    destruct ((0 <=? y) && (y <? H)); [| constructor]; cbv zeta.
    match goal with
    | |- context [?a <? ?b] => destruct (a <? b)
    end; repeat constructor; simpl; lia.
Qed.

Lemma fill_triangle_stores_inside :
  forall W H x0 y0 x1 y1 x2 y2,
    Forall (inside (Z.min y0 (Z.min y1 y2)) (Z.max y0 (Z.max y1 y2) + 1) 0 W)
           (fill_triangle_stores W H x0 y0 x1 y1 x2 y2).
Proof.
  intros W H x0 y0 x1 y1 x2 y2; unfold fill_triangle_stores.
  destruct (sort_vertices x0 y0 x1 y1 x2 y2)
    as [[[a0 b0] [a1 b1]] [a2 b2]] eqn:Es.
  destruct (sort_vertices_sorted _ _ _ _ _ _ _ _ _ _ _ _ Es)
    as (Hord & Hlo & Hhi).
  assert (Hb : forall u0 u1 u2,
             Forall (inside (Z.min y0 (Z.min y1 y2))
                            (Z.max y0 (Z.max y1 y2) + 1) 0 W)
                    (_fill_bottom_flat_triangle W H u0 b0 u1 b1 u2 b1)).
  { intros; unfold _fill_bottom_flat_triangle.
    destruct (b1 =? b0); [constructor |].
    apply scanlines_inside, Forall_forall; intros z Hz.
    apply In_range in Hz; lia. }
  assert (Ht : forall u0 u1 u2 v0,
             b0 <= v0 <= b2 ->
             Forall (inside (Z.min y0 (Z.min y1 y2))
                            (Z.max y0 (Z.max y1 y2) + 1) 0 W)
                    (_fill_top_flat_triangle W H u0 v0 u1 v0 u2 b2)).
  { intros u0 u1 u2 v0 Hv; unfold _fill_top_flat_triangle.
    destruct (b2 =? v0); [constructor |].
    apply scanlines_inside, Forall_forall; intros z Hz.
    apply In_range_down in Hz; lia. }
  destruct (Z.eqb_spec b1 b2) as [<- | Hne]; [apply Hb |].
  destruct (Z.eqb_spec b0 b1) as [<- | Hne']; [apply Ht; lia |].
  apply Forall_app; split; [apply Hb | apply Ht; lia].
Qed.

(** What a run leaves in the buffer, whether it completed or not: the
    pixels its assignments name are painted. *)
Lemma perform_run_pixel :
  forall c H W (r : run) b py px,
    shaped H W b -> Forall (in_screen H W) (fst r) ->
    0 <= py < H -> 0 <= px < W ->
    shaped H W (final (perform_run c r b))
    /\ pixel (final (perform_run c r b)) py px
       = if painted (fst r) py px then c else pixel b py px.
Proof.
  intros c H W r b py px Hb Hr Hpy Hpx.
  destruct (perform_run_in_screen c H W r b Hr Hb) as (b' & Hb' & E & Er).
  assert (Ef : final (perform_run c r b) = b')
    by (rewrite Er; now destruct (snd r)).
  rewrite Ef; split; [exact Hb' |].
  exact (perform_all_pixel c H W (fst r) b b' py px Hb Hr E Hpy Hpx).
Qed.

(** X2.  What [fill_triangle] leaves in the buffer.  On a buffer of the
    shape of the screen, whether the call returns or a conversion between
    [int] and [float] raises on the way, the buffer it leaves has the
    shape of the screen, every pixel of it keeps its colour or takes [c],
    and the rows above the topmost and below the bottommost vertex are
    untouched, whatever the float arithmetic makes of the edges. *)
Theorem fill_triangle_pixels :
  forall (W H : Z) (b : grid) (c : color) (x0 y0 x1 y1 x2 y2 : Z),
    shaped H W b ->
    shaped H W (final (fill_triangle W H b x0 y0 x1 y1 x2 y2 c))
    /\ forall py px,
        0 <= py < H -> 0 <= px < W ->
        (pixel (final (fill_triangle W H b x0 y0 x1 y1 x2 y2 c)) py px = c
         \/ pixel (final (fill_triangle W H b x0 y0 x1 y1 x2 y2 c)) py px
            = pixel b py px)
        /\ (py < Z.min y0 (Z.min y1 y2) \/ Z.max y0 (Z.max y1 y2) < py ->
            pixel (final (fill_triangle W H b x0 y0 x1 y1 x2 y2 c)) py px
            = pixel b py px).
Proof.
  intros W H b c x0 y0 x1 y1 x2 y2 Hb; unfold fill_triangle.
  destruct (fill_triangle_run_in_screen W H x0 y0 x1 y1 x2 y2) as [Hin _].
  destruct (perform_run_in_screen c H W _ b Hin Hb) as (b' & Hb' & E & Er).
  split.
  - rewrite Er; now destruct (snd (fill_triangle_run W H x0 y0 x1 y1 x2 y2)).
  - intros py px Hpy Hpx.
    rewrite (proj2 (perform_run_pixel c H W _ b py px Hb Hin Hpy Hpx)).
    split.
    + destruct (painted _ py px); auto.
    + intros Hout.
      destruct (painted (fst (fill_triangle_run W H x0 y0 x1 y1 x2 y2))
                        py px) eqn:Hp; [| reflexivity].
      assert (Hrows : run_within
                        (inside (Z.min y0 (Z.min y1 y2))
                                (Z.max y0 (Z.max y1 y2) + 1) 0 W)
                        conversion_error
                        (fill_triangle_run W H x0 y0 x1 y1 x2 y2))
        by (apply fill_triangle_run_within; intros; simpl; lia).
      pose proof (painted_inside _ _ _ _ _ py px (proj1 Hrows) Hp).
      lia.
Qed.

End TriangleRows.

(** ** The corner that is cut *)

Lemma painted_flat_map :
  forall (A : Type) (f : A -> list store) (l : list A) py px,
    painted (flat_map f l) py px = existsb (fun a => painted (f a) py px) l.
Proof.
  intros A f l py px; induction l as [| a t IH]; [reflexivity |].
  cbn [flat_map existsb]; now rewrite painted_app, IH.
Qed.

Lemma guarded_block_painted :
  forall y1 y2 x1 x2 py px,
    painted (guarded_block y1 y2 x1 x2) py px = true ->
    y1 <= py < y2 /\ x1 <= px < x2.
Proof.
  intros y1 y2 x1 x2 py px Hp.
  apply (painted_inside y1 y2 x1 x2 (guarded_block y1 y2 x1 x2) py px);
    [apply guarded_block_inside; lia | exact Hp].
Qed.

(** A pixel a corner paints: its row is [cy + dy] for a [dy] of the loop,
    and its column lies between the centre column and the arc. *)
Lemma corner_painted_span :
  forall W H cx cy r k py px,
    painted (_draw_circle_corner W H cx cy r k) py px = true ->
    - r <= py - cy <= r
    /\ match k with
       | TL | BL =>
           cx - Z.sqrt (Z.max 0 (r * r - (py - cy) * (py - cy))) <= px <= cx
       | TR | BR =>
           cx <= px <= cx + Z.sqrt (Z.max 0 (r * r - (py - cy) * (py - cy)))
       end.
Proof.
  intros W H cx cy r k py px Hp; unfold _draw_circle_corner in Hp.
  rewrite painted_flat_map in Hp; apply existsb_exists in Hp as (dy & Hdy & Hp).
  apply In_range in Hdy; unfold corner_scanline in Hp.
  destruct ((cy + dy <? 0) || (cy + dy >=? H)); [discriminate Hp |].
  destruct k; cbv zeta beta iota in Hp;
    match type of Hp with
    | painted (if ?c then _ else _) _ _ = true =>
        destruct c; [| discriminate Hp]
    end;
    cbn [painted existsb covers] in Hp; rewrite orb_false_r in Hp;
    apply andb_prop in Hp as [Hp H3]; apply andb_prop in Hp as [H1 H2];
    apply Z.eqb_eq in H1; apply Z.leb_le in H2; apply Z.ltb_lt in H3;
    replace (py - cy) with dy by lia; lia.
Qed.

Lemma corner_pixel_is_not_painted :
  forall W H x y w h r,
    1 <= clamp_radius w h r ->
    painted (draw_rounded_rect_stores W H x y w h r) y x = false.
Proof.
  intros W H x y w h r Hr.
  destruct (clamp_radius_halves w h r) as [Hw Hh].
  unfold draw_rounded_rect_stores; cbv zeta.
  replace ((clamp_radius w h r <=? 0) || (w <=? 0) || (h <=? 0)) with false
    by (symmetry; rewrite !orb_false_iff; repeat split; apply Z.leb_gt; lia).
  set (q := clamp_radius w h r) in *.
  assert (Hzero : forall dy, dy = - q \/ dy = q ->
                             Z.sqrt (Z.max 0 (q * q - dy * dy)) = 0).
  { intros dy [-> | ->];
      (replace (q * q - _) with 0 by lia); reflexivity. }
  rewrite !painted_app, !orb_false_iff; repeat split;
    match goal with
    | |- ?p = false => destruct p eqn:Hp; [exfalso | reflexivity]
    end.
  - apply guarded_block_painted in Hp; lia.
  - apply guarded_block_painted in Hp; lia.
  - apply guarded_block_painted in Hp; lia.
  - apply corner_painted_span in Hp as [Hrow Hcol].
    rewrite (Hzero (y - (y + q))) in Hcol by lia; lia.
  - apply corner_painted_span in Hp as [Hrow Hcol]; lia.
  - apply corner_painted_span in Hp as [Hrow Hcol].
    rewrite (Hzero (y - (y + h - q))) in Hcol by lia; lia.
  - apply corner_painted_span in Hp as [Hrow Hcol]; lia.
Qed.

(** ** The rounded rectangle of the engine is the call, for its radii *)

Lemma for_each_completed :
  forall (A : Type) (body : A -> run) (f : A -> list store) (l : list A),
    (forall a, In a l -> body a = completed (f a)) ->
    for_each body l = completed (flat_map f l).
Proof.
  intros A body f l; induction l as [| a t IH]; intros Hb; [reflexivity |].
  cbn [for_each flat_map].
  rewrite (Hb a) by now left.
  rewrite IH by (intros a' Ha'; apply Hb; now right).
  reflexivity.
Qed.

Section ExactRoots.
Context {F : Type} {FO : FloatOps F}.

(** The double of an integer below [2 ** 52] has its root rounded to a
    double whose integer part is the integer root. *)
Hypothesis isqrt_exact : forall n, 0 <= n < 2 ^ 52 -> isqrt n = Z.sqrt n.

Lemma corner_scanline_run_exact :
  forall W H cx cy r k dy,
    0 <= r < 2 ^ 26 ->
    corner_scanline_run W H cx cy r k dy
    = completed (corner_scanline W H cx cy r k dy).
Proof.
  intros W H cx cy r k dy Hr; unfold corner_scanline_run, corner_scanline.
  cbv zeta.
  destruct ((cy + dy <? 0) || (cy + dy >=? H)); [reflexivity |].
  assert (Hn : 0 <= Z.max 0 (r * r - dy * dy) < 2 ^ 52).
  { change (2 ^ 52) with (2 ^ 26 * 2 ^ 26); nia. }
  unfold int_np_sqrt.
  replace (Z.max 0 (r * r - dy * dy) <? 2 ^ 64) with true
    by (symmetry; apply Z.ltb_lt;
        apply Z.lt_trans with (2 ^ 52); [apply Hn | reflexivity]).
  rewrite (isqrt_exact _ Hn); cbn [attempt].
  now destruct k.
Qed.

Lemma draw_circle_corner_run_exact :
  forall W H cx cy r k,
    0 <= r < 2 ^ 26 ->
    _draw_circle_corner_run W H cx cy r k
    = completed (_draw_circle_corner W H cx cy r k).
Proof.
  intros; unfold _draw_circle_corner_run, _draw_circle_corner.
  apply for_each_completed; intros dy _.
  now apply corner_scanline_run_exact.
Qed.

(** For a clamped radius below [2 ** 26] the call completes, and it
    executes the assignments the engine is modelled with. *)
Lemma draw_rounded_rect_run_exact :
  forall W H x y w h r,
    clamp_radius w h r < 2 ^ 26 ->
    draw_rounded_rect_run W H x y w h r
    = completed (draw_rounded_rect_stores W H x y w h r).
Proof.
  intros W H x y w h r Hr.
  unfold draw_rounded_rect_run, draw_rounded_rect_stores; cbv zeta.
  destruct ((clamp_radius w h r <=? 0) || (w <=? 0) || (h <=? 0)) eqn:G;
    [reflexivity |].
  apply orb_false_iff in G; destruct G as [G _].
  apply orb_false_iff in G; destruct G as [G _].
  apply Z.leb_gt in G.
  rewrite !draw_circle_corner_run_exact by lia.
  unfold and_then, completed; cbn [fst snd].
  now rewrite <- !app_assoc.
Qed.

End ExactRoots.

Section RoundedRectanglePixels.
Context {F : Type} {FO : FloatOps F}.

(** X1.  What [draw_rounded_rect] leaves in the buffer, for a clamped
    radius below [2 ** 26], [int(np.sqrt(n))] being the integer root of
    [n] for [n] below [2 ** 52], as it is for doubles.  On a buffer of the shape of the screen it returns, and: every
    pixel keeps its colour or takes [c]; outside the box [x .. x + w] by
    [y .. y + h] nothing changes; the cross of the rectangle (its pixels
    between the corner columns or between the corner rows) is filled;
    and, the radius being at least 1, the corner pixel [(x, y)] of the
    rectangle is left out, while the corner arcs reach the column
    [x + w], one past the rectangle. *)
Theorem draw_rounded_rect_pixels :
  forall (W H : Z) (b : grid) (c : color) (x y w h r : Z),
    shaped H W b ->
    (forall n, 0 <= n < 2 ^ 52 -> isqrt n = Z.sqrt n) ->
    clamp_radius w h r < 2 ^ 26 ->
    exists b',
      draw_rounded_rect W H b x y w h r c = Ok b' /\ shaped H W b'
      /\ forall py px,
          0 <= py < H -> 0 <= px < W ->
          (pixel b' py px = c \/ pixel b' py px = pixel b py px)
          /\ (~ (y <= py <= y + h /\ x <= px <= x + w) ->
              pixel b' py px = pixel b py px)
          /\ (x <= px < x + w -> y <= py < y + h ->
              x + clamp_radius w h r <= px < x + w - clamp_radius w h r
              \/ y + clamp_radius w h r <= py < y + h - clamp_radius w h r ->
              pixel b' py px = c)
          /\ (1 <= clamp_radius w h r -> py = y -> px = x ->
              pixel b' py px = pixel b py px)
          /\ (1 <= clamp_radius w h r -> py = y + clamp_radius w h r ->
              px = x + w -> pixel b' py px = c).
Proof.
  intros W H b c x y w h r Hb Hexact Hr; unfold draw_rounded_rect.
  rewrite (draw_rounded_rect_run_exact Hexact W H x y w h r Hr).
  unfold perform_run, completed; cbn [fst snd].
  destruct (perform_all_in_screen c H W _ b
              (draw_rounded_rect_stores_in_screen W H x y w h r) Hb)
    as (b' & E & Hb').
  rewrite E.
  exists b'; split; [reflexivity | split; [exact Hb' |]].
  intros py px Hpy Hpx.
  rewrite (perform_all_pixel c H W _ b b' py px Hb
             (draw_rounded_rect_stores_in_screen W H x y w h r) E Hpy Hpx).
  split; [| split; [| split; [| split]]].
  - destruct (painted _ py px); auto.
  - intros Hout.
    destruct (painted (draw_rounded_rect_stores W H x y w h r) py px) eqn:Hp;
      [| reflexivity].
    exfalso; apply Hout.
    pose proof (painted_inside _ _ _ _ _ py px
                  (draw_rounded_rect_stores_inside W H x y w h r) Hp).
    lia.
  - intros Hx Hy Hcross.
    now rewrite (cross_is_painted W H x y w h r py px Hpy Hpx Hx Hy Hcross).
  - intros Hc -> ->.
    now rewrite (corner_pixel_is_not_painted W H x y w h r Hc).
  - intros Hc -> ->.
    now rewrite (column_past_the_width_is_painted W H x y w h r Hc Hpy Hpx).
Qed.

End RoundedRectanglePixels.

(* ===================================================================== *)
(** * The rectangle of the first NumPy engine                             *)
(* ===================================================================== *)

(** X11.  [draw_rounded_rect] of roboeyes_fast.py never raises and keeps
    the shape of the buffer; it paints exactly the pixels of the screen
    in rows [y - h // 2 .. y + h // 2 - 1] and columns [x - w // 2 .. x +
    w // 2 - 1]: a plain rectangle around the centre [(x, y)], no corner
    is rounded, and an odd width or height loses one column or row. *)
Theorem simple_rect_paints_the_centred_block :
  forall (W H : Z) (b : grid) (x y w h : Z) (c : color),
    shaped H W b ->
    shaped H W (Simple.draw_rounded_rect W H b x y w h c)
    /\ forall py px,
        0 <= py < H -> 0 <= px < W ->
        pixel (Simple.draw_rounded_rect W H b x y w h c) py px
        = if (y - h / 2 <=? py) && (py <? y + h / 2)
             && (x - w / 2 <=? px) && (px <? x + w / 2)
          then c else pixel b py px.
Proof.
  intros W H b x y w h c Hb; unfold Simple.draw_rounded_rect; cbv zeta.
  destruct ((Z.min W (x + w / 2) <=? Z.max 0 (x - w / 2))
            || (Z.min H (y + h / 2) <=? Z.max 0 (y - h / 2))) eqn:Hg.
  - split; [exact Hb |]; intros py px Hy Hx.
    apply orb_true_iff in Hg.
    destruct (y - h / 2 <=? py) eqn:H1, (py <? y + h / 2) eqn:H2,
             (x - w / 2 <=? px) eqn:H3, (px <? x + w / 2) eqn:H4;
      try reflexivity.
    apply Z.leb_le in H1, H3; apply Z.ltb_lt in H2, H4.
    destruct Hg as [Hg | Hg]; apply Z.leb_le in Hg; lia.
  - apply orb_false_iff in Hg as [Hgx Hgy].
    apply Z.leb_gt in Hgx, Hgy.
    assert (Hin : in_screen H W
                    (Block (Z.max 0 (y - h / 2)) (Z.min H (y + h / 2))
                           (Z.max 0 (x - w / 2)) (Z.min W (x + w / 2))))
      by (cbn; lia).
    split; [now apply assign_block_shaped |].
    intros py px Hy Hx.
    rewrite (perform_pixel c H W b _ _ py px Hb Hin eq_refl Hy Hx).
    cbn [covers].
    replace (Z.max 0 (y - h / 2) <=? py) with (y - h / 2 <=? py)
      by (destruct (Z.leb_spec (y - h / 2) py),
                   (Z.leb_spec (Z.max 0 (y - h / 2)) py); lia || reflexivity).
    replace (py <? Z.min H (y + h / 2)) with (py <? y + h / 2)
      by (destruct (Z.ltb_spec py (y + h / 2)),
                   (Z.ltb_spec py (Z.min H (y + h / 2))); lia || reflexivity).
    replace (Z.max 0 (x - w / 2) <=? px) with (x - w / 2 <=? px)
      by (destruct (Z.leb_spec (x - w / 2) px),
                   (Z.leb_spec (Z.max 0 (x - w / 2)) px); lia || reflexivity).
    replace (px <? Z.min W (x + w / 2)) with (px <? x + w / 2)
      by (destruct (Z.ltb_spec px (x + w / 2)),
                   (Z.ltb_spec px (Z.min W (x + w / 2))); lia || reflexivity).
    reflexivity.
Qed.

(* ===================================================================== *)
(** * Further properties of the sequence scheduler                        *)
(* ===================================================================== *)

Section SchedulerMore.
Variable Owner : Type.

Lemma mark_due_app :
  forall start ticks (l1 l2 : list (StepData Owner)),
    mark_due start ticks (l1 ++ l2)
    = mark_due start ticks l1 ++ mark_due start ticks l2.
Proof. intros; unfold mark_due; apply map_app. Qed.

Lemma update_steps_raise :
  forall start ticks (before : list (StepData Owner)) s after o o1 o2 e,
    run_callbacks (filter (due start ticks) before) o = Ok o1 ->
    due start ticks s = true ->
    callback s o1 = Raise e o2 ->
    update_steps start ticks (before ++ s :: after) o
    = Raise e (mark_due start ticks before ++ s :: after, o2).
Proof.
  intros start ticks before; induction before as [| b t IH];
    intros s after o o1 o2 e Hrun Hdue Hraise.
  - simpl in Hrun; injection Hrun as <-.
    unfold due in Hdue; apply andb_prop in Hdue as [Hd Ht].
    apply negb_true_iff in Hd, Ht.
    simpl; unfold StepData_update; now rewrite Hd, Ht, Hraise.
  - simpl in Hrun |- *; unfold due at 1 in Hrun; unfold due at 1.
    unfold StepData_update.
    destruct (done b) eqn:Hd; simpl in Hrun |- *.
    + now rewrite (IH s after o o1 o2 e Hrun Hdue Hraise).
    + destruct (ticks - start <? ms_timing b) eqn:Ht; simpl in Hrun |- *.
      * now rewrite (IH s after o o1 o2 e Hrun Hdue Hraise).
      * destruct (callback b o) as [o' | e' o']; simpl in Hrun |- *;
          [| discriminate Hrun].
        now rewrite (IH s after o' o1 o2 e Hrun Hdue Hraise).
Qed.

(** X9.  A raising callback.  When the callback of a due step raises, the
    update stops there with that exception: the due steps before it have
    run and are marked fired, the step itself is not marked (the next
    update will call it again), the steps after it and the sequences
    after this one have not been looked at. *)
Theorem raising_callback_leaves_its_step_pending :
  forall (start ticks : Z) (before : list (StepData Owner))
         (s : StepData Owner) (after : list (StepData Owner))
         (rest : list (Sequence Owner)) (o o1 o2 : Owner) (e : exn),
    run_callbacks (filter (due start ticks) before) o = Ok o1 ->
    due start ticks s = true ->
    callback s o1 = Raise e o2 ->
    let q := {| steps := before ++ s :: after; _start := Some start |} in
    let q' := {| steps := mark_due start ticks before ++ s :: after;
                 _start := Some start |} in
    Sequence_update ticks q o = Raise e (q', o2)
    /\ Sequences_update ticks (q :: rest) o = Raise e (q' :: rest, o2)
    /\ due start ticks (nth (length before) (steps q') s) = true.
Proof.
  intros start ticks before s after rest o o1 o2 e Hrun Hdue Hraise q q'.
  assert (E : Sequence_update ticks q o = Raise e (q', o2)).
  { unfold Sequence_update, q; cbn [_start steps].
    now rewrite (update_steps_raise _ _ _ _ _ _ _ _ _ Hrun Hdue Hraise). }
  split; [exact E | split].
  - cbn [Sequences_update]; now rewrite E.
  - unfold q'; cbn [steps].
    rewrite app_nth2 by (unfold mark_due; rewrite length_map; lia).
    unfold mark_due; rewrite length_map, Nat.sub_diag; exact Hdue.
Qed.

Lemma run_callbacks_unfired :
  forall start ticks (l : list (StepData Owner)) o,
    run_callbacks (filter (due start ticks) (map unfired l)) o
    = run_callbacks (filter (fun s => ms_timing s <=? ticks - start) l) o.
Proof.
  intros start ticks l; induction l as [| s t IH]; intros o; [reflexivity |].
  cbn [map filter]; unfold due at 1; cbn [unfired done ms_timing negb andb].
  rewrite <- Z.leb_antisym.
  destruct (ms_timing s <=? ticks - start); [| apply IH].
  cbn [run_callbacks unfired callback].
  destruct (callback s o); cbn [bind]; [apply IH | reflexivity].
Qed.

Lemma mark_due_unfired :
  forall start ticks (l : list (StepData Owner)),
    mark_due start ticks (map unfired l)
    = map (fun s => if ms_timing s <=? ticks - start
                    then fired s else unfired s) l.
Proof.
  intros start ticks l; unfold mark_due; rewrite map_map; apply map_ext.
  intros s; unfold due; cbn [unfired done ms_timing negb andb].
  rewrite <- Z.leb_antisym.
  now destruct (ms_timing s <=? ticks - start).
Qed.

(** X10.  [reset()] and [start()].  A reset sequence reports [done] and
    ignores updates; started again at [now], an update at [ticks] runs
    the callbacks of all steps with [ms_timing <= ticks - now] in
    registration order, whether or not they had fired before the reset,
    and marks exactly those fired; the sequence is [done] once every step
    is that old. *)
Theorem reset_then_start_replays_the_sequence :
  forall (q : Sequence Owner) (now ticks : Z) (o o' : Owner),
    run_callbacks
      (filter (fun s => ms_timing s <=? ticks - now) (steps q)) o = Ok o' ->
    let replayed :=
      {| steps := map (fun s => if ms_timing s <=? ticks - now
                                then fired s else unfired s) (steps q);
         _start := Some now |} in
    Sequence_done (Sequence_reset q) = true
    /\ Sequence_update ticks (Sequence_reset q) o = Ok (Sequence_reset q, o)
    /\ Sequence_update ticks (Sequence_start now (Sequence_reset q)) o
       = Ok (replayed, o')
    /\ (Sequence_done replayed = true
        <-> Forall (fun s => ms_timing s <= ticks - now) (steps q)).
Proof.
  intros q now ticks o o' Hrun replayed.
  split; [reflexivity | split; [reflexivity | split]].
  - unfold Sequence_update, Sequence_start, Sequence_reset; cbn [_start steps].
    rewrite <- run_callbacks_unfired in Hrun.
    rewrite (update_steps_fires_due _ now ticks _ o o' Hrun).
    cbn [within fst snd]; unfold replayed; now rewrite mark_due_unfired.
  - unfold Sequence_done, replayed; cbn [_start steps].
    rewrite forallb_forall, Forall_forall; split.
    + intros H s Hs.
      specialize (H _ (in_map _ _ _ Hs)); cbv beta in H.
      destruct (ms_timing s <=? ticks - now) eqn:Ht;
        [now apply Z.leb_le | discriminate H].
    + intros H s' Hs'; apply in_map_iff in Hs' as (s & <- & Hs).
      apply H, Z.leb_le in Hs; now rewrite Hs.
Qed.

End SchedulerMore.

(** ** All sequences of an engine *)

Section SchedulerAll.
Variable Owner : Type.

Lemma run_callbacks_app :
  forall (l1 l2 : list (StepData Owner)) o,
    run_callbacks (l1 ++ l2) o = run_callbacks l1 o >>= run_callbacks l2.
Proof.
  intros l1 l2; induction l1 as [| s t IH]; intros o; [reflexivity |].
  cbn [app run_callbacks].
  destruct (callback s o) as [o1 | e o1]; cbn [bind]; [apply IH | reflexivity].
Qed.

Lemma Sequence_update_advanced :
  forall ticks (q : Sequence Owner) o o',
    run_callbacks (pending ticks q) o = Ok o' ->
    Sequence_update ticks q o = Ok (advanced ticks q, o').
Proof.
  intros ticks q o o' Hrun; unfold Sequence_update, pending, advanced in *.
  destruct (_start q) as [start |] eqn:Hs.
  - now rewrite (update_steps_fires_due _ start ticks _ o o' Hrun).
  - now injection Hrun as <-.
Qed.

Lemma pending_advanced :
  forall ticks (q : Sequence Owner), pending ticks (advanced ticks q) = [].
Proof.
  intros ticks q; unfold pending, advanced.
  destruct (_start q) as [start |] eqn:Hs; cbn [_start steps];
    [apply mark_due_nothing_left | now rewrite Hs].
Qed.

Lemma Sequences_update_advanced :
  forall ticks (qs : list (Sequence Owner)) o o',
    run_callbacks (flat_map (pending ticks) qs) o = Ok o' ->
    Sequences_update ticks qs o = Ok (map (advanced ticks) qs, o').
Proof.
  intros ticks qs; induction qs as [| q t IH]; intros o o' Hrun.
  - now injection Hrun as <-.
  - cbn [flat_map] in Hrun; rewrite run_callbacks_app in Hrun.
    destruct (run_callbacks (pending ticks q) o) as [o1 | e o1] eqn:E1;
      [| discriminate Hrun].
    change (run_callbacks (flat_map (pending ticks) t) o1 = Ok o') in Hrun.
    cbn [Sequences_update map].
    rewrite (Sequence_update_advanced ticks q o o1 E1), (IH o1 o' Hrun).
    reflexivity.
Qed.

(** X17.  [Sequences.update].  When no callback raises, one update runs
    the callbacks of the due steps of all started sequences, sequence by
    sequence in the order the sequences were added (and inside a sequence
    in the order of its steps, not of their timings), and marks these
    steps fired; a second update at the same clock value runs nothing;
    and [Sequences.done] holds afterwards exactly when every step of every
    started sequence has fired or was due. *)
Theorem Sequences_update_runs_the_due_steps_in_order :
  forall (ticks : Z) (qs : list (Sequence Owner)) (o o' : Owner),
    run_callbacks (flat_map (pending ticks) qs) o = Ok o' ->
    Sequences_update ticks qs o = Ok (map (advanced ticks) qs, o')
    /\ Sequences_update ticks (map (advanced ticks) qs) o'
       = Ok (map (advanced ticks) qs, o')
    /\ (Sequences_done (map (advanced ticks) qs) = true
        <-> forall q start s,
              In q qs -> _start q = Some start -> In s (steps q) ->
              done s = true \/ ms_timing s <= ticks - start).
Proof.
  intros ticks qs o o' Hrun; split; [| split].
  - now apply Sequences_update_advanced.
  - assert (Hnone : forall l : list (Sequence Owner),
               flat_map (pending ticks) (map (advanced ticks) l) = []).
    { intros l; induction l as [| q t IH]; [reflexivity |].
      cbn [map flat_map]; now rewrite pending_advanced, IH. }
    assert (Hidem : forall l : list (Sequence Owner),
               map (advanced ticks) (map (advanced ticks) l)
               = map (advanced ticks) l).
    { intros l; rewrite map_map; apply map_ext; intros q.
      unfold advanced; destruct (_start q) as [start |] eqn:Hs;
        cbn [_start steps]; [| now rewrite Hs].
      f_equal; unfold mark_due; rewrite map_map; apply map_ext; intros s.
      destruct (due start ticks s) eqn:Hd;
        [now rewrite fired_never_due | now rewrite Hd]. }
    rewrite <- (Hidem qs) at 2.
    apply Sequences_update_advanced; now rewrite Hnone.
  - unfold Sequences_done; rewrite forallb_forall; split.
    + intros H q start s Hq Hs Hin.
      specialize (H _ (in_map (advanced ticks) _ _ Hq)).
      unfold Sequence_done, advanced in H; rewrite Hs in H.
      cbn [_start steps] in H; rewrite forallb_forall in H.
      specialize (H _ (in_map _ _ _ Hin)); cbv beta in H.
      unfold due in H.
      destruct (done s) eqn:Hd; [now left | right].
      cbn [negb andb] in H.
      destruct (ticks - start <? ms_timing s) eqn:Ht;
        cbn [negb] in H; [rewrite Hd in H; discriminate H |].
      apply Z.ltb_ge in Ht; exact Ht.
    + intros H q' Hq'; apply in_map_iff in Hq' as (q & <- & Hq).
      unfold Sequence_done, advanced.
      destruct (_start q) as [start |] eqn:Hs; cbn [_start steps];
        [| now rewrite Hs].
      rewrite forallb_forall; intros s' Hs'.
      unfold mark_due in Hs'; apply in_map_iff in Hs' as (s & <- & Hin).
      unfold due.
      destruct (H q start s Hq Hs Hin) as [Hd | Ht].
      * now rewrite Hd.
      * destruct (done s) eqn:Hd; cbn [negb andb]; [exact Hd |].
        replace (ticks - start <? ms_timing s) with false
          by (symmetry; apply Z.ltb_ge; exact Ht).
        reflexivity.
Qed.

End SchedulerAll.

(* ===================================================================== *)
(** * Further properties of the engine                                    *)
(* ===================================================================== *)

(** ** The macro animations of a tick *)

Lemma randint_range :
  forall a b roll v, randint a b roll = Some v -> a <= v <= b.
Proof.
  intros a b roll v; unfold randint.
  destruct (b <? a) eqn:E; [discriminate |].
  apply Z.ltb_ge in E; intros H; injection H as <-.
  pose proof (Z.mod_pos_bound roll (b - a + 1) ltac:(lia)); lia.
Qed.

Lemma randint_None :
  forall a b roll, randint a b roll = None <-> b < a.
Proof.
  intros a b roll; unfold randint.
  destruct (b <? a) eqn:E.
  - apply Z.ltb_lt in E; tauto.
  - apply Z.ltb_ge in E; split; [discriminate | lia].
Qed.

Section MacroFacts.
Context {F : Type} {FO : FloatOps F}.

(** What a tick can end in: the auto blinker raised, the idle macro
    raised, or everything ran and the result is the flickered state up to
    the canvas. *)
Lemma draw_eyes_cases :
  forall now d s,
    wf s ->
    (exists e s2,
        auto_blink now d (interpolate (cleared s)) = Raise e s2
        /\ draw_eyes now d s = Raise e s2)
    \/ (exists s2 e s3,
           auto_blink now d (interpolate (cleared s)) = Ok s2
           /\ idle_macro now d (confused_macro now (laugh_macro now s2))
              = Raise e s3
           /\ draw_eyes now d s = Raise e s3)
    \/ (exists s2 s3 s',
           auto_blink now d (interpolate (cleared s)) = Ok s2
           /\ idle_macro now d (confused_macro now (laugh_macro now s2))
              = Ok s3
           /\ draw_eyes now d s = Ok s'
           /\ wf s' /\ repainted (flicker s3) s'
           /\ render (flicker s3) = Ok s').
Proof.
  intros now d s Hwf; unfold draw_eyes; fold (cleared s).
  pose proof (wf_auto_blink now d _ (wf_interpolate _ (wf_cleared _ Hwf)))
    as Hwf2.
  destruct (auto_blink now d (interpolate (cleared s))) as [s2 | e s2] eqn:E1;
    cbn [bind final] in *;
    [| left; exists e, s2; split; reflexivity].
  right.
  pose proof (wf_idle_macro now d _
                (wf_confused_macro now _ (wf_laugh_macro now _ Hwf2)))
    as Hwf3.
  destruct (idle_macro now d (confused_macro now (laugh_macro now s2)))
    as [s3 | e s3] eqn:E2; cbn [bind final] in *;
    [| left; exists s2, e, s3; split; [| split]; [reflexivity | exact E2 |];
       reflexivity].
  right.
  destruct (render_paints (flicker s3) (wf_flicker _ Hwf3))
    as (s4 & E & Hwf4 & Hrep).
  exists s2, s3, s4.
  split; [reflexivity | split; [exact E2 | split; [exact E |]]].
  split; [exact Hwf4 | split; [exact Hrep | exact E]].
Qed.

(** A property that holds when the auto blinker is through, and that the
    later stages keep, holds at the end of the tick. *)
Lemma draw_eyes_after_auto_blink :
  forall (P : RoboEyes -> Prop) (now : Z) (d : dice),
    (forall s b t tn a an h hn, P s -> P (canvas b t tn a an h hn s)) ->
    (forall s, P s -> P (laugh_macro now s)) ->
    (forall s, P s -> P (confused_macro now s)) ->
    (forall s, P s -> P (final (idle_macro now d s))) ->
    (forall s, P s -> P (flicker s)) ->
    forall s,
      wf s -> P (final (auto_blink now d (interpolate (cleared s)))) ->
      P (final (draw_eyes now d s)).
Proof.
  intros P now d Hcanvas Hlaugh Hconf Hidle Hflick s Hwf HP.
  destruct (draw_eyes_cases now d s Hwf)
    as [(e & s2 & E1 & E) | [(s2 & e & s3 & E1 & E2 & E)
                            | (s2 & s3 & s' & E1 & E2 & E & _ & Hrep & _)]];
    rewrite E; rewrite E1 in HP; cbn [final] in *.
  - exact HP.
  - pose proof (Hidle _ (Hconf _ (Hlaugh _ HP))) as H3.
    now rewrite E2 in H3.
  - pose proof (Hidle _ (Hconf _ (Hlaugh _ HP))) as H3.
    rewrite E2 in H3; cbn [final] in H3.
    destruct Hrep as (b & t & tn & a & an & h & hn & ->).
    apply Hcanvas, Hflick, H3.
Qed.

End MacroFacts.


(** ** The auto blinker *)

(** Everything before the macros of a tick, by the attributes it
    assigns. *)
Lemma interpolate_smoothed :
  forall s,
  exists lo ro lh ly rh ry lhn rhn lw rw sp lx rxn ryn rx lr rr b,
    interpolate (cleared s)
    = smoothed s lo ro lh ly rh ry lhn rhn lw rw sp lx rxn ryn rx lr rr b.
Proof.
  intros s; destruct s; crunch; do 18 eexists; reflexivity.
Qed.

(** Replace [interpolate (cleared s)] in the goal by [s] with these
    attributes assigned. *)
Ltac after_smoothing s :=
  let E := fresh "E" in
  destruct (interpolate_smoothed s)
    as (?lo & ?ro & ?lh & ?ly & ?rh & ?ry & ?lhn & ?rhn & ?lw & ?rw & ?sp
        & ?lx & ?rxn & ?ryn & ?rx & ?lr & ?rr & ?b & E);
  rewrite E; clear E.

(** Turn the outcomes of [randint] in the context into bounds. *)
Ltac decide_draws :=
  repeat match goal with
         | Hr : randint _ _ _ = None |- _ => apply randint_None in Hr
         | Hr : randint _ _ _ = Some _ |- _ => apply randint_range in Hr
         end.

Section AutoBlinkFacts.
Context {F : Type} {FO : FloatOps F}.

(** X3.  The auto blinker.  With the auto blinker on and a non-negative
    variation, a tick at or after [blink_timer] ends with both eyes told to
    close and to open again and with [blink_timer] moved to [now +
    (blink_interval + k) * 1000] for a whole [k] in [0 ..
    blink_interval_variation]; a tick before [blink_timer] leaves the
    timer and the [open] flags alone. *)
Theorem auto_blinker_fires_and_reschedules :
  forall (now : Z) (d : dice) (s : RoboEyes),
    wf s -> autoblinker s = true -> 0 <= blink_interval_variation s ->
    let s' := final (draw_eyes now d s) in
    (blink_timer s <= now ->
     eye_l_height_next s' = 1 /\ eye_r_height_next s' = 1
     /\ eye_l_open s' = true /\ eye_r_open s' = true
     /\ exists k,
         0 <= k <= blink_interval_variation s
         /\ blink_timer s' = now + blink_interval s * 1000 + k * 1000)
    /\ (now < blink_timer s ->
        blink_timer s' = blink_timer s
        /\ eye_l_open s' = eye_l_open s /\ eye_r_open s' = eye_r_open s).
Proof.
  intros now d s Hwf Hon Hvar s'; subst s'; split; intros Hdue.
  - apply (draw_eyes_after_auto_blink
             (fun s1 =>
                eye_l_height_next s1 = 1 /\ eye_r_height_next s1 = 1
                /\ eye_l_open s1 = true /\ eye_r_open s1 = true
                /\ exists k,
                    0 <= k <= blink_interval_variation s
                    /\ blink_timer s1
                       = now + blink_interval s * 1000 + k * 1000) now d).
    + intros s0 b t tn a an h hn; revert s0; stage_keeps.
    + stage_keeps.
    + stage_keeps.
    + stage_keeps.
    + stage_keeps.
    + exact Hwf.
    + clear Hwf; after_smoothing s.
      destruct s; cbn in Hon, Hvar, Hdue |- *; subst.
      crunch; decide_tests; decide_draws; try lia;
        (repeat (split; [reflexivity |]));
        match goal with
        | Hr : 0 <= ?z <= _ |- _ => exists z; split; [lia | reflexivity]
        end.
  - apply (draw_eyes_after_auto_blink
             (fun s1 =>
                blink_timer s1 = blink_timer s
                /\ eye_l_open s1 = eye_l_open s
                /\ eye_r_open s1 = eye_r_open s) now d).
    + intros s0 b t tn a an h hn; revert s0; stage_keeps.
    + stage_keeps.
    + stage_keeps.
    + stage_keeps.
    + stage_keeps.
    + exact Hwf.
    + clear Hwf; after_smoothing s.
      destruct s; cbn in Hon, Hvar, Hdue |- *; subst.
      crunch; decide_tests; try lia; repeat split.
Qed.

End AutoBlinkFacts.

(** ** Idle mode *)

(** The stages of a tick, by the attributes they assign. *)

Lemma auto_blink_blinked :
  forall now d s,
  exists lhn rhn lo ro bt,
    final (auto_blink now d s) = blinked s lhn rhn lo ro bt.
Proof.
  intros now d s; destruct s; crunch; do 5 eexists; reflexivity.
Qed.

Lemma auto_blink_returns :
  forall now d s,
    (autoblinker s = true -> 0 <= blink_interval_variation s) ->
    exists s', auto_blink now d s = Ok s'.
Proof.
  intros now d s; destruct s; cbn; intros H; crunch; eauto.
  decide_draws; specialize (H eq_refl); lia.
Qed.

Lemma macros_animated :
  forall now s,
  exists vf va lt ltg lg hf ha ct ctg cf,
    confused_macro now (laugh_macro now s)
    = animated s vf va lt ltg lg hf ha ct ctg cf.
Proof.
  intros now s; destruct s; crunch; do 10 eexists; reflexivity.
Qed.

Lemma flicker_flickered :
  forall s,
  exists lx rx ly ry ha va, flicker s = flickered s lx rx ly ry ha va.
Proof.
  intros s; destruct s; crunch; do 6 eexists; reflexivity.
Qed.

Section IdleFacts.
Context {F : Type} {FO : FloatOps F}.

(** The state the idle macro of a tick runs on. *)
Lemma draw_eyes_before_idle :
  forall now d s,
    wf s ->
    (autoblinker s = true -> 0 <= blink_interval_variation s) ->
    exists lo ro lh ly rh ry lhn rhn lw rw sp lx rxn ryn rx lr rr b
           lhn' rhn' lo' ro' bt vf va lt ltg lg hf ha ct ctg cf,
      let s2 :=
        animated
          (blinked
             (smoothed s lo ro lh ly rh ry lhn rhn lw rw sp lx rxn ryn rx
                       lr rr b)
             lhn' rhn' lo' ro' bt)
          vf va lt ltg lg hf ha ct ctg cf in
      match idle_macro now d s2 with
      | Raise e s3 => draw_eyes now d s = Raise e s3
      | Ok s3 =>
          exists lx' rx' ly' ry' ha' va' b' t tn a an h hn,
            draw_eyes now d s
            = Ok (canvas b' t tn a an h hn
                         (flickered s3 lx' rx' ly' ry' ha' va'))
      end.
Proof.
  intros now d s Hwf Hab.
  destruct (interpolate_smoothed s)
    as (lo & ro & lh & ly & rh & ry & lhn & rhn & lw & rw & sp & lx & rxn
        & ryn & rx & lr & rr & b & Es).
  destruct (auto_blink_returns now d (interpolate (cleared s))) as (s2 & E2).
  { rewrite Es; destruct s; exact Hab. }
  destruct (auto_blink_blinked now d (interpolate (cleared s)))
    as (lhn' & rhn' & lo' & ro' & bt & Eb).
  rewrite E2 in Eb; cbn [final] in Eb; rewrite Es in Eb.
  destruct (macros_animated now s2)
    as (vf & va & lt & ltg & lg & hf & ha & ct & ctg & cf & Em).
  exists lo, ro, lh, ly, rh, ry, lhn, rhn, lw, rw, sp, lx, rxn, ryn, rx, lr,
    rr, b, lhn', rhn', lo', ro', bt, vf, va, lt, ltg, lg, hf, ha, ct, ctg, cf.
  cbv zeta; rewrite <- Eb, <- Em; clear Es Eb Em.
  destruct (draw_eyes_cases now d s Hwf)
    as [(e & s2' & E1 & E) | [(s2' & e & s3 & E1 & E3 & E)
                            | (s2' & s3 & s' & E1 & E3 & E & _ & Hrep & _)]].
  - rewrite E2 in E1; discriminate E1.
  - rewrite E2 in E1; injection E1 as <-; rewrite E3; exact E.
  - rewrite E2 in E1; injection E1 as <-; rewrite E3.
    destruct Hrep as (b' & t & tn & a & an & h & hn & ->).
    destruct (flicker_flickered s3) as (lx' & rx' & ly' & ry' & ha' & va' & Ef).
    rewrite Ef in E.
    exists lx', rx', ly', ry', ha', va', b', t, tn, a, an, h, hn; exact E.
Qed.

End IdleFacts.

Section IdleTheorem.
Context {F : Type} {FO : FloatOps F}.


End IdleTheorem.

(** ** The confused and the laugh macro *)

Section ViewFacts.
Context {F : Type} {FO : FloatOps F}.

(** A tick that returns, seen through a projection [view] of the state
    that only the laugh and confused macros act on. *)
Lemma draw_eyes_view :
  forall (V : Type) (view : RoboEyes -> V) (step : V -> V) (now : Z) (d : dice),
    (forall s, view (interpolate (cleared s)) = view s) ->
    (forall s, view (final (auto_blink now d s)) = view s) ->
    (forall s, view (confused_macro now (laugh_macro now s)) = step (view s)) ->
    (forall s, view (final (idle_macro now d s)) = view s) ->
    (forall s, view (flicker s) = view s) ->
    (forall s b t tn a an h hn, view (canvas b t tn a an h hn s) = view s) ->
    forall s s',
      wf s -> draw_eyes now d s = Ok s' ->
      view s' = step (view s) /\ wf s'.
Proof.
  intros V view step now d Hi Hb Hm Hidle Hf Hc s s' Hwf E.
  destruct (draw_eyes_cases now d s Hwf)
    as [(e & s2 & E1 & E') | [(s2 & e & s3 & E1 & E2 & E')
                             | (s2 & s3 & s1 & E1 & E2 & E' & Hwf' & Hrep & _)]];
    rewrite E in E'; try discriminate E'.
  injection E' as ->; split; [| exact Hwf'].
  destruct Hrep as (b & t & tn & a & an & h & hn & ->).
  rewrite Hc, Hf.
  pose proof (Hidle (confused_macro now (laugh_macro now s2))) as H3.
  rewrite E2 in H3; cbn [final] in H3; rewrite H3, Hm.
  pose proof (Hb (interpolate (cleared s))) as H2.
  rewrite E1 in H2; cbn [final] in H2; now rewrite H2, Hi.
Qed.

Lemma tick_confusion :
  forall now d s s',
    wf s -> draw_eyes now d s = Ok s' ->
    confusion s' = macro_step 20 now (confusion s) /\ wf s'.
Proof.
  intros now d; apply draw_eyes_view.
  - intros s; after_smoothing s; destruct s; reflexivity.
  - intros s; destruct s; crunch; reflexivity.
  - intros s; destruct s; unfold macro_step; crunch; reflexivity.
  - intros s; destruct s; crunch; reflexivity.
  - intros s; destruct s; crunch; reflexivity.
  - intros s b t tn a an h hn; destruct s; reflexivity.
Qed.

Lemma tick_laughter :
  forall now d s s',
    wf s -> draw_eyes now d s = Ok s' ->
    laughter s' = macro_step 5 now (laughter s) /\ wf s'.
Proof.
  intros now d; apply draw_eyes_view.
  - intros s; after_smoothing s; destruct s; reflexivity.
  - intros s; destruct s; crunch; reflexivity.
  - intros s; destruct s; unfold macro_step; crunch; reflexivity.
  - intros s; destruct s; crunch; reflexivity.
  - intros s; destruct s; crunch; reflexivity.
  - intros s b t tn a an h hn; destruct s; reflexivity.
Qed.

(** While the duration has not passed, the ticks leave a running macro
    as it is. *)
Lemma macro_step_running :
  forall amplitude now0 duration now,
    now - now0 < duration ->
    macro_step amplitude now (true, false, now0, duration, (true, amplitude))
    = (true, false, now0, duration, (true, amplitude)).
Proof.
  intros amplitude now0 duration now H; unfold macro_step.
  destruct (now - now0 >=? duration) eqn:E; [| reflexivity].
  rewrite Z.geb_leb in E; apply Z.leb_le in E; lia.
Qed.

Lemma run_ticks_cons :
  forall now d rest s,
    run_ticks ((now, d) :: rest) s = draw_eyes now d s >>= run_ticks rest.
Proof. reflexivity. Qed.

Lemma ticks_view_running :
  forall (view : RoboEyes -> bool * bool * Z * Z * (bool * Z)) amplitude,
    (forall now d s s',
        wf s -> draw_eyes now d s = Ok s' ->
        view s' = macro_step amplitude now (view s) /\ wf s') ->
    forall now0 duration inputs s s',
      wf s ->
      view s = (true, false, now0, duration, (true, amplitude)) ->
      Forall (fun i => fst i - now0 < duration) inputs ->
      run_ticks inputs s = Ok s' ->
      view s' = (true, false, now0, duration, (true, amplitude)) /\ wf s'.
Proof.
  intros view amplitude Htick now0 duration inputs.
  induction inputs as [| [now d] rest IH]; intros s s' Hwf Hv Hall E.
  - injection E as <-; now split.
  - rewrite run_ticks_cons in E.
    destruct (draw_eyes now d s) as [s1 | e s1] eqn:E1; [| discriminate E].
    change (run_ticks rest s1 = Ok s') in E.
    destruct (Htick now d s s1 Hwf E1) as [Hv1 Hwf1].
    inversion Hall as [| i l Hnow Hrest]; subst; cbn [fst] in Hnow.
    rewrite Hv, (macro_step_running _ _ _ _ Hnow) in Hv1.
    exact (IH s1 s' Hwf1 Hv1 Hrest E).
Qed.

(** X5.  [confuse()].  The first tick after the call switches the
    horizontal flicker on with amplitude 20; the eyes keep shaking through
    every later tick taken less than [confused_animation_duration] after
    that first tick; the first tick at or after it switches the flicker
    off with amplitude 0 and re-arms the macro (whatever flicker the client
    had set with [horiz_flicker] is gone). *)
Theorem confuse_shakes_for_its_duration :
  forall (now : Z) (d : dice) (s s1 : RoboEyes)
         (inputs : list (Z * dice)) (s2 : RoboEyes),
    wf s -> confused_toggle s = true ->
    draw_eyes now d (confuse s) = Ok s1 ->
    Forall (fun i => fst i - now < confused_animation_duration s) inputs ->
    run_ticks inputs s1 = Ok s2 ->
    (h_flicker s2 = true /\ h_flicker_amplitude s2 = 20
     /\ _confused s2 = true)
    /\ forall later d' s3,
        confused_animation_duration s <= later - now ->
        draw_eyes later d' s2 = Ok s3 ->
        h_flicker s3 = false /\ h_flicker_amplitude s3 = 0
        /\ _confused s3 = false /\ confused_toggle s3 = true.
Proof.
  intros now d s s1 inputs s2 Hwf Htg E1 Hall E2.
  assert (Hwf0 : wf (confuse s)) by (destruct s; exact Hwf).
  destruct (tick_confusion now d _ s1 Hwf0 E1) as [Hv1 Hwf1].
  assert (Hv0 : confusion (confuse s)
                = (true, true, confused_animation_timer s,
                   confused_animation_duration s,
                   (h_flicker s, h_flicker_amplitude s))).
  { destruct s; cbn in Htg |- *; now subst. }
  rewrite Hv0 in Hv1; cbn in Hv1.
  destruct (ticks_view_running confusion 20 tick_confusion now
              (confused_animation_duration s) inputs s1 s2 Hwf1 Hv1 Hall E2)
    as [Hv2 Hwf2].
  split.
  - destruct s2; cbn in Hv2; injection Hv2 as -> _ _ _ -> ->; auto.
  - intros later d' s3 Hlate E3.
    destruct (tick_confusion later d' s2 s3 Hwf2 E3) as [Hv3 _].
    rewrite Hv2 in Hv3; unfold macro_step in Hv3.
    destruct (later - now >=? confused_animation_duration s) eqn:Hc.
    + destruct s3; cbn in Hv3; injection Hv3 as -> -> _ _ -> ->; auto.
    + rewrite Z.geb_leb in Hc; apply Z.leb_gt in Hc; lia.
Qed.

(** X6.  [laugh()].  The same for the vertical flicker, with amplitude 5
    and [laugh_animation_duration]. *)
Theorem laugh_bounces_for_its_duration :
  forall (now : Z) (d : dice) (s s1 : RoboEyes)
         (inputs : list (Z * dice)) (s2 : RoboEyes),
    wf s -> laugh_toggle s = true ->
    draw_eyes now d (laugh s) = Ok s1 ->
    Forall (fun i => fst i - now < laugh_animation_duration s) inputs ->
    run_ticks inputs s1 = Ok s2 ->
    (v_flicker s2 = true /\ v_flicker_amplitude s2 = 5 /\ _laugh s2 = true)
    /\ forall later d' s3,
        laugh_animation_duration s <= later - now ->
        draw_eyes later d' s2 = Ok s3 ->
        v_flicker s3 = false /\ v_flicker_amplitude s3 = 0
        /\ _laugh s3 = false /\ laugh_toggle s3 = true.
Proof.
  intros now d s s1 inputs s2 Hwf Htg E1 Hall E2.
  assert (Hwf0 : wf (laugh s)) by (destruct s; exact Hwf).
  destruct (tick_laughter now d _ s1 Hwf0 E1) as [Hv1 Hwf1].
  assert (Hv0 : laughter (laugh s)
                = (true, true, laugh_animation_timer s,
                   laugh_animation_duration s,
                   (v_flicker s, v_flicker_amplitude s))).
  { destruct s; cbn in Htg |- *; now subst. }
  rewrite Hv0 in Hv1; cbn in Hv1.
  destruct (ticks_view_running laughter 5 tick_laughter now
              (laugh_animation_duration s) inputs s1 s2 Hwf1 Hv1 Hall E2)
    as [Hv2 Hwf2].
  split.
  - destruct s2; cbn in Hv2; injection Hv2 as -> _ _ _ -> ->; auto.
  - intros later d' s3 Hlate E3.
    destruct (tick_laughter later d' s2 s3 Hwf2 E3) as [Hv3 _].
    rewrite Hv2 in Hv3; unfold macro_step in Hv3.
    destruct (later - now >=? laugh_animation_duration s) eqn:Hc.
    + destruct s3; cbn in Hv3; injection Hv3 as -> -> _ _ -> ->; auto.
    + rewrite Z.geb_leb in Hc; apply Z.leb_gt in Hc; lia.
Qed.

End ViewFacts.

(** ** The colours of a frame *)

Lemma pixel_clear :
  forall H W c b py px,
    shaped H W b -> 0 <= py < H -> 0 <= px < W ->
    pixel (clear c b) py px = c.
Proof.
  intros H W c b py px Hb Hy Hx.
  pose proof (shaped_row H W b py Hb Hy) as Hrow.
  destruct Hb as [Hlen _]; unfold pixel, clear, len in *.
  change (@nil color) with (map (fun _ : color => c) (@nil color)) at 1.
  rewrite (map_nth (map (fun _ : color => c))).
  rewrite (nth_indep _ (0, 0, 0) ((fun _ : color => c) (0, 0, 0)))
    by (rewrite length_map; lia).
  now rewrite (map_nth (fun _ : color => c)).
Qed.

Lemma retouched_refl : forall H W A b, retouched H W A b b.
Proof. intros H W A b py px _ _; now left. Qed.

Lemma retouched_trans :
  forall H W A b1 b2 b3,
    retouched H W A b1 b2 -> retouched H W A b2 b3 -> retouched H W A b1 b3.
Proof.
  intros H W A b1 b2 b3 H12 H23 py px Hy Hx.
  destruct (H23 py px Hy Hx) as [E | Ha]; [| now right].
  rewrite E; destruct (H12 py px Hy Hx) as [E' | Ha]; [now left | now right].
Qed.

Lemma retouched_weaken :
  forall H W (A B : color -> Z -> Z -> Prop) b b',
    (forall c py px, A c py px -> B c py px) ->
    retouched H W A b b' -> retouched H W B b b'.
Proof.
  intros H W A B b b' HAB Hr py px Hy Hx.
  destruct (Hr py px Hy Hx) as [E | Ha]; [now left | right; now apply HAB].
Qed.

(** What the canvas assignments leave alone. *)
Lemma repainted_same :
  forall s s',
    repainted s s' ->
    screen_height s' = screen_height s /\ screen_width s' = screen_width s
    /\ bgcolor s' = bgcolor s /\ fgcolor s' = fgcolor s
    /\ forall py px, in_an_eye s' py px <-> in_an_eye s py px.
Proof.
  intros s s' (b & t & tn & a & an & h & hn & ->).
  destruct s; cbn; repeat split; auto.
Qed.

Lemma tints_weaken :
  forall (A B : color -> Z -> Z -> Prop) s m,
    (forall c py px, A c py px -> B c py px) -> tints A s m -> tints B s m.
Proof.
  intros A B s m HAB (s' & E & Hwf & Hrep & Hr).
  exists s'; repeat (split; [assumption |]).
  eapply retouched_weaken; eauto.
Qed.

Lemma tints_bind :
  forall A s m k,
    tints A s m ->
    (forall s1, wf s1 -> repainted s s1 -> tints A s1 (k s1)) ->
    tints A s (m >>= k).
Proof.
  intros A s m k (s1 & -> & Hwf & Hrep & Hr) Hk; simpl.
  destruct (Hk s1 Hwf Hrep) as (s2 & E & Hwf2 & Hrep2 & Hr2).
  destruct (repainted_same s s1 Hrep) as (Eh & Ew & _).
  rewrite Eh, Ew in Hr2.
  exists s2; split; [exact E | split; [exact Hwf2 | split]].
  - eapply repainted_trans; eauto.
  - eapply retouched_trans; eauto.
Qed.

Lemma tints_Ok : forall A s, wf s -> tints A s (Ok s).
Proof.
  intros A s Hwf; exists s; split; [reflexivity | split; [exact Hwf |]].
  split; [apply repainted_refl | apply retouched_refl].
Qed.

Lemma paint_tints :
  forall (A : color -> Z -> Z -> Prop) c l s,
    wf s -> Forall (in_screen (screen_height s) (screen_width s)) l ->
    (forall py px, painted l py px = true -> A c py px) ->
    tints A s (paint c l s).
Proof.
  intros A c l s Hwf Hl HA; unfold paint.
  destruct (perform_all_in_screen c _ _ l (buffer s) Hl Hwf) as (b & E & Hb).
  rewrite E; exists (with_buffer b s); split; [reflexivity | split; [| split]].
  - destruct s; exact Hb.
  - apply repainted_buffer.
  - intros py px Hy Hx.
    replace (buffer (with_buffer b s)) with b by (destruct s; reflexivity).
    rewrite (perform_all_pixel c _ _ l (buffer s) b py px Hwf Hl E Hy Hx).
    destruct (painted l py px) eqn:Hp; [right; now apply HA | now left].
Qed.

Lemma rrect_tints :
  forall x y w h r c s,
    wf s ->
    tints (fun c' py px => c' = c /\ eye_box x y w h py px) s
          (rrect x y w h r c s).
Proof.
  intros x y w h r c s Hwf; unfold rrect; apply paint_tints; auto.
  - apply draw_rounded_rect_stores_in_screen.
  - intros py px Hp; split; [reflexivity |].
    pose proof (painted_inside _ _ _ _ _ py px
                  (draw_rounded_rect_stores_inside _ _ x y w h r) Hp).
    unfold eye_box; lia.
Qed.

(** A stage that first assigns eyelid values ([f]) and then paints. *)
Lemma tints_after :
  forall A s f m,
    wf s -> repainted s (f s) -> wf (f s) -> buffer (f s) = buffer s ->
    tints A (f s) m -> tints A s m.
Proof.
  intros A s f m Hwf Hrep Hwf' Hbuf (s1 & E & Hwf1 & Hrep1 & Hr).
  destruct (repainted_same s (f s) Hrep) as (Eh & Ew & _).
  rewrite Eh, Ew, Hbuf in Hr.
  exists s1; split; [exact E | split; [exact Hwf1 | split; [| exact Hr]]].
  eapply repainted_trans; eauto.
Qed.

Section FrameFacts.
Context {F : Type} {FO : FloatOps F}.

Lemma triangle_tints :
  forall x0 y0 x1 y1 x2 y2 c s,
    wf s ->
    tints (fun c' _ _ => c' = c) s (triangle x0 y0 x1 y1 x2 y2 c s).
Proof.
  intros; unfold triangle; apply paint_tints; auto.
  apply fill_triangle_stores_in_screen.
Qed.

Lemma draw_eye_shapes_tints :
  forall s, wf s -> tints (frame_colors s) s (draw_eye_shapes s).
Proof.
  intros s Hwf; unfold draw_eye_shapes.
  apply tints_bind.
  - eapply tints_weaken; [| now apply rrect_tints].
    intros c py px [-> Hbox]; right; split; [reflexivity | now left].
  - intros s1 Hwf1 Hrep.
    destruct (repainted_same s s1 Hrep) as (_ & _ & _ & Efg & _).
    assert (Hfields :
              _cyclops s1 = _cyclops s
              /\ eye_r_x s1 = eye_r_x s /\ eye_r_y s1 = eye_r_y s
              /\ eye_r_width_current s1 = eye_r_width_current s
              /\ eye_r_height_current s1 = eye_r_height_current s).
    { destruct Hrep as (b & t & tn & a & an & h & hn & ->).
      destruct s; cbn; auto. }
    destruct Hfields as (Ec & Ex & Ey & Ew & Eh).
    destruct (_cyclops s1) eqn:Hc; cbn [negb]; [now apply tints_Ok |].
    eapply tints_weaken; [| now apply rrect_tints].
    intros c py px [-> Hbox]; right; split; [exact Efg |].
    right; split; [now rewrite <- Ec |].
    now rewrite <- Ex, <- Ey, <- Ew, <- Eh.
Qed.

Lemma triangle_bg_tints :
  forall x0 y0 x1 y1 x2 y2 s0 s,
    wf s -> bgcolor s = bgcolor s0 ->
    tints (fun c _ _ => c = bgcolor s0) s
          (triangle x0 y0 x1 y1 x2 y2 (bgcolor s) s).
Proof. intros until s; intros Hwf ->; now apply triangle_tints. Qed.

Lemma rrect_bg_tints :
  forall x y w h r s0 s,
    wf s -> bgcolor s = bgcolor s0 ->
    tints (fun c _ _ => c = bgcolor s0) s (rrect x y w h r (bgcolor s) s).
Proof.
  intros until s; intros Hwf ->.
  eapply tints_weaken; [| now apply rrect_tints].
  now intros c py px [-> _].
Qed.

Ltac eyelid_stage s Hwf :=
  match goal with
  | |- tints ?A s (if negb (_cyclops ?s') then _ else _) =>
      apply (tints_after A s (fun _ => s'));
        [exact Hwf
        | unfold repainted; eyelid_assignment s
        | destruct s; exact Hwf
        | destruct s; reflexivity
        | ]
  | |- tints ?A s (rrect _ _ _ _ _ _ ?s' >>= _) =>
      apply (tints_after A s (fun _ => s'));
        [exact Hwf
        | unfold repainted; eyelid_assignment s
        | destruct s; exact Hwf
        | destruct s; reflexivity
        | ]
  end;
  match goal with
  | |- tints _ ?s' _ =>
      assert (Hwf' : wf s') by (destruct s; exact Hwf);
      assert (Hbg : bgcolor s' = bgcolor s) by (destruct s; reflexivity)
  end.

Ltac same_bg Hrep Hbg :=
  let E := fresh "E" in
  destruct (repainted_same _ _ Hrep) as (_ & _ & E & _);
  now rewrite E.

Lemma tired_eyelids_tints :
  forall s, wf s -> tints (fun c _ _ => c = bgcolor s) s (tired_eyelids s).
Proof.
  intros s Hwf; unfold tired_eyelids; cbv zeta.
  eyelid_stage s Hwf.
  match goal with
  | |- tints _ ?s' _ =>
      destruct (negb (_cyclops s'));
        (apply tints_bind;
         [now apply triangle_bg_tints
         | intros s1 Hwf1 Hrep; apply triangle_bg_tints;
           [exact Hwf1 | same_bg Hrep Hbg]])
  end.
Qed.

Lemma angry_eyelids_tints :
  forall s, wf s -> tints (fun c _ _ => c = bgcolor s) s (angry_eyelids s).
Proof.
  intros s Hwf; unfold angry_eyelids; cbv zeta.
  eyelid_stage s Hwf.
  match goal with
  | |- tints _ ?s' _ =>
      destruct (negb (_cyclops s'));
        (apply tints_bind;
         [now apply triangle_bg_tints
         | intros s1 Hwf1 Hrep; apply triangle_bg_tints;
           [exact Hwf1 | same_bg Hrep Hbg]])
  end.
Qed.

Lemma happy_eyelids_tints :
  forall s, wf s -> tints (fun c _ _ => c = bgcolor s) s (happy_eyelids s).
Proof.
  intros s Hwf; unfold happy_eyelids; cbv zeta.
  eyelid_stage s Hwf.
  apply tints_bind; [now apply rrect_bg_tints |].
  intros s1 Hwf1 Hrep; destruct (negb (_cyclops s1));
    [| now apply tints_Ok].
  apply rrect_bg_tints; [exact Hwf1 | same_bg Hrep Hbg].
Qed.

Lemma wf_mood_targets : forall s, wf s -> wf (mood_targets s).
Proof. intros s H; destruct s; unfold wf in *; crunch; exact H. Qed.

Lemma buffer_mood_targets : forall s, buffer (mood_targets s) = buffer s.
Proof. intros s; destruct s; crunch; reflexivity. Qed.

Lemma render_tints :
  forall s, wf s -> tints (frame_colors s) s (render s).
Proof.
  intros s Hwf; unfold render.
  apply tints_bind; [apply tints_bind; [apply tints_bind |] |].
  - now apply draw_eye_shapes_tints.
  - intros s1 Hwf1 Hrep.
    apply (tints_after _ s1 mood_targets);
      [exact Hwf1 | apply mood_targets_repainted | now apply wf_mood_targets
      | apply buffer_mood_targets |].
    eapply tints_weaken;
      [| apply tired_eyelids_tints; now apply wf_mood_targets].
    intros c py px ->; left.
    destruct (repainted_same _ _ (mood_targets_repainted s1))
      as (_ & _ & -> & _).
    now destruct (repainted_same _ _ Hrep) as (_ & _ & -> & _).
  - intros s1 Hwf1 Hrep.
    eapply tints_weaken; [| now apply angry_eyelids_tints].
    intros c py px ->; left.
    now destruct (repainted_same _ _ Hrep) as (_ & _ & -> & _).
  - intros s1 Hwf1 Hrep.
    eapply tints_weaken; [| now apply happy_eyelids_tints].
    intros c py px ->; left.
    now destruct (repainted_same _ _ Hrep) as (_ & _ & -> & _).
Qed.

(** The buffer is the background colour throughout. *)
Lemma stages_keep_background :
  forall now d s,
    wf s ->
    let P := fun s1 : RoboEyes =>
               forall py px,
                 0 <= py < screen_height s1 -> 0 <= px < screen_width s1 ->
                 pixel (buffer s1) py px = bgcolor s1 in
    P (cleared s)
    /\ (forall s1, P s1 -> P (interpolate s1))
    /\ (forall s1, P s1 -> P (final (auto_blink now d s1)))
    /\ (forall s1, P s1 -> P (confused_macro now (laugh_macro now s1)))
    /\ (forall s1, P s1 -> P (final (idle_macro now d s1)))
    /\ (forall s1, P s1 -> P (flicker s1)).
Proof.
  intros now d s Hwf P; subst P; cbv beta.
  split; [| repeat split].
  - intros py px Hy Hx.
    replace (buffer (cleared s)) with (clear (bgcolor s) (buffer s))
      by (destruct s; reflexivity).
    replace (bgcolor (cleared s)) with (bgcolor s) by (destruct s; reflexivity).
    replace (screen_height (cleared s)) with (screen_height s) in Hy
      by (destruct s; reflexivity).
    replace (screen_width (cleared s)) with (screen_width s) in Hx
      by (destruct s; reflexivity).
    now apply (pixel_clear _ _ _ _ py px Hwf).
  - stage_keeps.
  - stage_keeps.
  - stage_keeps.
  - stage_keeps.
  - stage_keeps.
Qed.

(** X7.  The colours of a frame.  After a tick that returns, every pixel
    of the buffer outside the boxes of the eyes (the right eye counts
    outside cyclops mode only) has the background colour, and every pixel
    inside them the foreground or the background colour. *)
Theorem frame_is_background_outside_the_eyes :
  forall (now : Z) (d : dice) (s s' : RoboEyes),
    wf s -> draw_eyes now d s = Ok s' ->
    forall py px,
      0 <= py < screen_height s' -> 0 <= px < screen_width s' ->
      pixel (buffer s') py px = bgcolor s'
      \/ (pixel (buffer s') py px = fgcolor s' /\ in_an_eye s' py px).
Proof.
  intros now d s s' Hwf E py px Hy Hx.
  destruct (stages_keep_background now d s Hwf)
    as (H0 & Hint & Hab & Hmac & Hidle & Hfl).
  destruct (draw_eyes_cases now d s Hwf)
    as [(e & s2 & E1 & E') | [(s2 & e & s3 & E1 & E2 & E')
                             | (s2 & s3 & s1 & E1 & E2 & E' & Hwf' & Hrep & Er)]];
    rewrite E in E'; try discriminate E'.
  injection E' as <-.
  assert (H3 : forall py px,
             0 <= py < screen_height (flicker s3) ->
             0 <= px < screen_width (flicker s3) ->
             pixel (buffer (flicker s3)) py px = bgcolor (flicker s3)).
  { apply Hfl.
    pose proof (Hidle _ (Hmac _ (Hab _ (Hint _ H0)))) as H.
    rewrite E1 in H; cbn [final] in H; rewrite E2 in H; exact H. }
  assert (Hwf3 : wf (flicker s3)).
  { apply wf_flicker.
    pose proof (wf_idle_macro now d _
                  (wf_confused_macro now _
                     (wf_laugh_macro now _
                        (wf_auto_blink now d _
                           (wf_interpolate _ (wf_cleared _ Hwf)))))) as H.
    rewrite E1 in H; cbn [final] in H; rewrite E2 in H; exact H. }
  destruct (render_tints (flicker s3) Hwf3) as (s4 & E4 & _ & Hrep4 & Hr).
  assert (Es : s4 = s').
  { rewrite Er in E4; now injection E4. }
  subst s4.
  destruct (repainted_same _ _ Hrep4) as (Eh & Ew & Ebg & Efg & Hin).
  rewrite Eh in Hy; rewrite Ew in Hx.
  rewrite Ebg, Efg.
  destruct (Hr py px Hy Hx) as [Hsame | [Hc | [Hc Hbox]]].
  - left; rewrite Hsame; now apply H3.
  - now left.
  - right; split; [exact Hc | now apply Hin].
Qed.

End FrameFacts.

(** ** Smoothing of widths, spacing and radii *)

(** Halving the distance to a target [t], once more after [k] times. *)
Lemma halving_closed_step :
  forall c t k,
    0 <= k -> t + ((c + t) / 2 - t) / 2 ^ k = t + (c - t) / 2 ^ (k + 1).
Proof.
  intros c t k Hk.
  replace ((c + t) / 2 - t) with ((c - t) / 2).
  - rewrite Z.pow_add_r, Z.pow_1_r by lia.
    rewrite Z.div_div by (try apply Z.pow_pos_nonneg; lia).
    now rewrite (Z.mul_comm 2).
  - replace (c + t) with (c - t + t * 2) by lia.
    rewrite Z.div_add by lia; lia.
Qed.

Section SmoothingFacts.
Context {F : Type} {FO : FloatOps F}.

Lemma tick_halves_sizes :
  forall now d s,
    wf s ->
    let s' := final (draw_eyes now d s) in
    (eye_l_width_current s'
     = (eye_l_width_current s + eye_l_width_next s) / 2
     /\ eye_l_width_next s' = eye_l_width_next s)
    /\ (eye_r_width_current s'
        = (eye_r_width_current s + eye_r_width_next s) / 2
        /\ eye_r_width_next s' = eye_r_width_next s)
    /\ (space_between_current s'
        = (space_between_current s + space_between_next s) / 2
        /\ space_between_next s' = space_between_next s)
    /\ (eye_l_border_radius_current s'
        = (eye_l_border_radius_current s + eye_l_border_radius_next s) / 2
        /\ eye_l_border_radius_next s' = eye_l_border_radius_next s)
    /\ (eye_r_border_radius_current s'
        = (eye_r_border_radius_current s + eye_r_border_radius_next s) / 2
        /\ eye_r_border_radius_next s' = eye_r_border_radius_next s).
Proof.
  intros now d s Hwf s'; subst s'.
  apply (draw_eyes_establishes
           (fun s' =>
              (eye_l_width_current s'
               = (eye_l_width_current s + eye_l_width_next s) / 2
               /\ eye_l_width_next s' = eye_l_width_next s)
              /\ (eye_r_width_current s'
                  = (eye_r_width_current s + eye_r_width_next s) / 2
                  /\ eye_r_width_next s' = eye_r_width_next s)
              /\ (space_between_current s'
                  = (space_between_current s + space_between_next s) / 2
                  /\ space_between_next s' = space_between_next s)
              /\ (eye_l_border_radius_current s'
                  = (eye_l_border_radius_current s
                     + eye_l_border_radius_next s) / 2
                  /\ eye_l_border_radius_next s' = eye_l_border_radius_next s)
              /\ (eye_r_border_radius_current s'
                  = (eye_r_border_radius_current s
                     + eye_r_border_radius_next s) / 2
                  /\ eye_r_border_radius_next s'
                     = eye_r_border_radius_next s)) now d).
  - intros s0 b t tn a an h hn; revert s0; stage_keeps.
  - stage_keeps.
  - stage_keeps.
  - stage_keeps.
  - stage_keeps.
  - stage_keeps.
  - exact Hwf.
  - clear Hwf; destruct s; crunch; repeat split.
Qed.

(** X8.  Smoothing.  Over [n] ticks that return, each of the five
    smoothed sizes (the two widths, the spacing, the two border radii) is
    where halving the distance to its target [n] times (rounding down)
    puts it: [next + (current - next) / 2 ^ n]; the targets themselves are
    not touched. *)
Theorem sizes_halve_their_distance_each_tick :
  forall (inputs : list (Z * dice)) (s s' : RoboEyes),
    wf s -> run_ticks inputs s = Ok s' ->
    let n := Z.of_nat (length inputs) in
    eye_l_width_current s'
    = eye_l_width_next s
      + (eye_l_width_current s - eye_l_width_next s) / 2 ^ n
    /\ eye_r_width_current s'
       = eye_r_width_next s
         + (eye_r_width_current s - eye_r_width_next s) / 2 ^ n
    /\ space_between_current s'
       = space_between_next s
         + (space_between_current s - space_between_next s) / 2 ^ n
    /\ eye_l_border_radius_current s'
       = eye_l_border_radius_next s
         + (eye_l_border_radius_current s - eye_l_border_radius_next s)
           / 2 ^ n
    /\ eye_r_border_radius_current s'
       = eye_r_border_radius_next s
         + (eye_r_border_radius_current s - eye_r_border_radius_next s)
           / 2 ^ n
    /\ eye_l_width_next s' = eye_l_width_next s
    /\ eye_r_width_next s' = eye_r_width_next s
    /\ space_between_next s' = space_between_next s
    /\ eye_l_border_radius_next s' = eye_l_border_radius_next s
    /\ eye_r_border_radius_next s' = eye_r_border_radius_next s.
Proof.
  intros inputs; induction inputs as [| [now d] rest IH]; intros s s' Hwf E.
  - injection E as <-; cbn [length Z.of_nat].
    rewrite Z.pow_0_r, !Z.div_1_r; repeat split; lia.
  - rewrite run_ticks_cons in E.
    pose proof (tick_halves_sizes now d s Hwf) as Htick.
    pose proof (proj2 (draw_eyes_establishes (fun _ => True) now d
                         (fun _ _ _ _ _ _ _ _ _ => I) (fun _ _ => I)
                         (fun _ _ => I) (fun _ _ => I) (fun _ _ => I)
                         (fun _ _ => I) s Hwf I)) as Hwf1.
    destruct (draw_eyes now d s) as [s1 | e s1]; [| discriminate E].
    cbv zeta in Htick; cbn [final] in Htick, Hwf1.
    change (run_ticks rest s1 = Ok s') in E.
    specialize (IH s1 s' Hwf1 E); cbv zeta in IH |- *.
    destruct Htick as ((A1 & A2) & (B1 & B2) & (C1 & C2) & (D1 & D2)
                       & (E1 & E2)).
    destruct IH as (I1 & I2 & I3 & I4 & I5 & I6 & I7 & I8 & I9 & I10).
    rewrite A1, A2 in I1; rewrite B1, B2 in I2; rewrite C1, C2 in I3.
    rewrite D1, D2 in I4; rewrite E1, E2 in I5.
    replace (Z.of_nat (length ((now, d) :: rest)))
      with (Z.of_nat (length rest) + 1)
      by (cbn [length]; lia).
    rewrite <- !halving_closed_step by lia.
    repeat split; congruence.
Qed.

End SmoothingFacts.

(** ** What a tick only reads *)

Section SettingsFacts.
Context {F : Type} {FO : FloatOps F}.

Lemma tick_settings :
  forall now d s,
    wf s ->
    settings (final (draw_eyes now d s)) = settings s
    /\ wf (final (draw_eyes now d s)).
Proof.
  intros now d s Hwf.
  apply (draw_eyes_establishes (fun s' => settings s' = settings s) now d).
  - intros s0 b t tn a an h hn; revert s0; stage_keeps.
  - stage_keeps.
  - stage_keeps.
  - stage_keeps.
  - stage_keeps.
  - stage_keeps.
  - exact Hwf.
  - after_smoothing s; destruct s; reflexivity.
Qed.

(** X12.  The settings.  However many ticks run, and whether the last one
    returns or raises, [draw_eyes] writes none of the attributes a client
    configures: screen size and colours, [fps_timer] and [frame_interval],
    position, mood and mood flags, curious and cyclops mode, the default
    geometry, the targets of widths, radii and spacing, and the parameters
    of the auto blinker, of idle mode and of the two macros. *)
Theorem ticks_leave_the_settings :
  forall (inputs : list (Z * dice)) (s : RoboEyes),
    wf s -> settings (final (run_ticks inputs s)) = settings s.
Proof.
  intros inputs; induction inputs as [| [now d] rest IH]; intros s Hwf.
  - reflexivity.
  - rewrite run_ticks_cons.
    destruct (tick_settings now d s Hwf) as [Hs Hwf1].
    destruct (draw_eyes now d s) as [s1 | e s1]; cbn [bind final] in *.
    + now rewrite (IH s1 Hwf1).
    + exact Hs.
Qed.

(** X13.  [update] when a frame is due.  With no sequence started and at
    least [frame_interval] elapsed since [fps_timer], [update] runs one
    [draw_eyes]; if that returns, [fps_timer] becomes the clock value
    read before the drawing, and every later [update] less than
    [frame_interval] after it changes nothing; if it raises, [update]
    raises the same exception with [fps_timer] as it was, so that the
    next [update] draws again. *)
Theorem update_draws_when_due_and_then_waits :
  forall (e : Engine) (ticks now draw_now : Z) (d : dice),
    wf (eyes e) ->
    Forall (fun q => _start q = None) (sequences e) ->
    frame_interval (eyes e) <= now - fps_timer (eyes e) ->
    match draw_eyes draw_now d (eyes e) with
    | Ok s' =>
        let e' := {| eyes := with_fps_timer now s';
                     sequences := sequences e |} in
        update ticks now draw_now d e = Ok e'
        /\ fps_timer (eyes e') = now
        /\ forall ticks' now' draw_now' d',
            now' - now < frame_interval (eyes e) ->
            update ticks' now' draw_now' d' e' = Ok e'
    | Raise ex s' =>
        update ticks now draw_now d e
        = Raise ex {| eyes := s'; sequences := sequences e |}
        /\ fps_timer s' = fps_timer (eyes e)
        /\ frame_interval s' = frame_interval (eyes e)
    end.
Proof.
  intros e ticks now draw_now d Hwf Hidle Hdue.
  destruct (tick_settings draw_now d (eyes e) Hwf) as [Hs _].
  assert (Hup : update ticks now draw_now d e
                = within (fun s' => {| eyes := s'; sequences := sequences e |})
                         (draw_eyes draw_now d (eyes e)
                          >>= fun s' => Ok (with_fps_timer now s'))).
  { unfold update; rewrite (Sequences_update_idle _ ticks _ _ Hidle).
    replace (now - fps_timer (eyes e) >=? frame_interval (eyes e)) with true;
      [reflexivity |].
    symmetry; rewrite Z.geb_leb; now apply Z.leb_le. }
  rewrite Hup; clear Hup.
  destruct (draw_eyes draw_now d (eyes e)) as [s' | ex s'];
    cbn [bind within final] in *.
  - split; [reflexivity | split; [destruct s'; reflexivity |]].
    intros ticks' now' draw_now' d' Hsoon.
    unfold update; cbn [eyes sequences].
    rewrite (Sequences_update_idle _ ticks' _ _ Hidle).
    assert (Hf : fps_timer (with_fps_timer now s') = now
                 /\ frame_interval (with_fps_timer now s')
                    = frame_interval (eyes e)).
    { destruct s', (eyes e); cbn in Hs |- *; split; congruence. }
    destruct Hf as [-> ->].
    replace (now' - now >=? frame_interval (eyes e)) with false;
      [reflexivity |].
    symmetry; rewrite Z.geb_leb; now apply Z.leb_gt.
  - split; [reflexivity |].
    destruct s', (eyes e); cbn in Hs |- *; split; congruence.
Qed.

End SettingsFacts.

(** ** Construction, and closing the eyes *)

Lemma lid_shut_closed_form :
  forall d n h,
    iterate n (lid_step false d) (h, 1)
    = (1 + (h - 1) / 2 ^ Z.of_nat n, 1).
Proof.
  intros d n; induction n as [| k IH]; intros h.
  - cbn [iterate Z.of_nat]; rewrite Z.pow_0_r, Z.div_1_r; f_equal; lia.
  - cbn [iterate]; unfold lid_step at 2; cbn [fst snd andb].
    rewrite IH; f_equal.
    rewrite halving_closed_step by lia.
    now rewrite Nat2Z.inj_succ, <- Z.add_1_r.
Qed.

Lemma close_keeps_quiet :
  forall left right s,
    wf s -> quiet s -> wf (close left right s) /\ quiet (close left right s).
Proof.
  intros left right s Hwf Hq; destruct s, left, right;
    unfold wf, quiet in *; cbn in *; split; assumption.
Qed.

Lemma close_lids :
  forall left right s,
    (blinks_left left right = true ->
     fst (lids (close left right s))
     = (false, eye_l_height_default s, (eye_l_height_current s, 1)))
    /\ (blinks_right left right = true ->
        snd (lids (close left right s))
        = (false, eye_r_height_default s, (eye_r_height_current s, 1))).
Proof.
  intros left right s; destruct s, left, right; cbn; split; intros H;
    try reflexivity; discriminate H.
Qed.

Section ClosingFacts.
Context {F : Type} {FO : FloatOps F}.


(** X15.  Construction, with colours of components within [0 .. 255].
    [FastRoboEyes(...)] raises [ValueError] for a negative width or
    height and does not return for a frame rate of 0.  Whenever it
    returns, neither dimension is negative, the frame rate is not 0 and
    the engine has a buffer of the shape of the screen,
    [frame_interval = 1000 // frame_rate], the default mood with no mood
    flag set, every mode off and both eyes closed (height 1, target 36,
    [open] flags off); the first [draw_eyes] on it returns and leaves both
    eyes half open (height 18), on their way to the default although
    their [open] flags are off. *)
Theorem FastRoboEyes_init_returns_closed_eyes :
  forall (width height frame_rate : Z) (bg fg : color),
    uint8 bg = true -> uint8 fg = true ->
    (width < 0 \/ height < 0 ->
     FastRoboEyes_init width height frame_rate bg fg = inl ValueError)
    /\ (frame_rate = 0 ->
        exists ex, FastRoboEyes_init width height frame_rate bg fg = inl ex)
    /\ forall s,
        FastRoboEyes_init width height frame_rate bg fg = inr s ->
        (0 <= width /\ 0 <= height /\ frame_rate <> 0)
        /\ wf s
        /\ (screen_width s = width /\ screen_height s = height
            /\ bgcolor s = bg /\ fgcolor s = fg
            /\ frame_interval s = 1000 / frame_rate)
        /\ (_mood s = DEFAULT /\ tired s = false /\ angry s = false
            /\ happy s = false /\ _curious s = false /\ _cyclops s = false
            /\ autoblinker s = false /\ idle s = false)
        /\ lids s = ((false, 36, (1, 36)), (false, 36, (1, 36)))
        /\ forall now d,
            exists s',
              draw_eyes now d s = Ok s' /\ wf s'
              /\ lids s' = ((false, 36, (18, 36)), (false, 36, (18, 36))).
Proof.
  intros width height frame_rate bg fg _ _; split; [| split].
  - intros Hneg; unfold FastRoboEyes_init.
    replace ((width <? 0) || (height <? 0)) with true; [reflexivity |].
    symmetry; apply orb_true_iff.
    destruct Hneg as [Hneg | Hneg]; [left | right]; now apply Z.ltb_lt.
  - intros ->; unfold FastRoboEyes_init.
    destruct ((width <? 0) || (height <? 0)); eexists; reflexivity.
  - intros s E0.
    destruct (FastRoboEyes_init_good _ _ _ _ _ _ E0) as [Hwf _].
    destruct (FastRoboEyes_init_lids _ _ _ _ _ _ E0) as [Hq Hl].
    assert (Htick : forall now d,
               exists s',
                 draw_eyes now d s = Ok s' /\ wf s'
                 /\ lids s' = ((false, 36, (18, 36)), (false, 36, (18, 36)))).
    { intros now d.
      destruct (quiet_tick now d s Hwf Hq) as (s' & E & Hwf' & _ & Hl').
      exists s'; split; [exact E | split; [exact Hwf' |]].
      now rewrite Hl', Hl. }
    unfold FastRoboEyes_init in E0.
    destruct ((width <? 0) || (height <? 0)) eqn:Hneg; [discriminate E0 |].
    apply orb_false_iff in Hneg as [Hw Hh]; apply Z.ltb_ge in Hw, Hh.
    destruct (frame_rate =? 0) eqn:Hr; [discriminate E0 |].
    apply Z.eqb_neq in Hr.
    split; [auto |]; split; [exact Hwf |].
    split; [| split; [| split; [exact Hl | exact Htick]]];
      injection E0 as <-; repeat split; reflexivity.
Qed.

End ClosingFacts.

(** ** Curious mode *)

Section CuriousFacts.
Context {F : Type} {FO : FloatOps F}.

Lemma curious_tick :
  forall now d s,
    wf s ->
    _curious s = true -> autoblinker s = false -> idle s = false ->
    eye_l_x_next s <= 10 ->
    eye_l_height_next s = eye_l_height_default s ->
    exists s',
      draw_eyes now d s = Ok s' /\ wf s'
      /\ (_curious s' = true /\ autoblinker s' = false /\ idle s' = false
          /\ eye_l_x_next s' <= 10
          /\ eye_l_height_next s' = eye_l_height_default s')
      /\ eye_l_height_default s' = eye_l_height_default s
      /\ eye_l_height_offset s' = 8
      /\ eye_l_height_current s'
         = (eye_l_height_current s + (eye_l_height_default s + 8)) / 2.
Proof.
  intros now d s Hwf Hc Hb Hi Hx Hn.
  destruct (draw_eyes_returns now d s Hwf Hb Hi) as [s' E].
  exists s'; split; [exact E |].
  assert (H : ((_curious (final (draw_eyes now d s)) = true
                /\ autoblinker (final (draw_eyes now d s)) = false
                /\ idle (final (draw_eyes now d s)) = false
                /\ eye_l_x_next (final (draw_eyes now d s)) <= 10
                /\ eye_l_height_next (final (draw_eyes now d s))
                   = eye_l_height_default (final (draw_eyes now d s)))
               /\ eye_l_height_default (final (draw_eyes now d s))
                  = eye_l_height_default s
               /\ eye_l_height_offset (final (draw_eyes now d s)) = 8
               /\ eye_l_height_current (final (draw_eyes now d s))
                  = (eye_l_height_current s
                     + (eye_l_height_default s + 8)) / 2)
              /\ wf (final (draw_eyes now d s)));
    [| rewrite E in H; cbn [final] in H; destruct H as [H1 H2];
       split; [exact H2 | exact H1]].
  clear E.
  apply (draw_eyes_establishes
           (fun s' =>
              (_curious s' = true /\ autoblinker s' = false /\ idle s' = false
               /\ eye_l_x_next s' <= 10
               /\ eye_l_height_next s' = eye_l_height_default s')
              /\ eye_l_height_default s' = eye_l_height_default s
              /\ eye_l_height_offset s' = 8
              /\ eye_l_height_current s'
                 = (eye_l_height_current s
                    + (eye_l_height_default s + 8)) / 2) now d).
  - intros s0 b t tn a an h hn; revert s0; stage_keeps.
  - intros s0; destruct s0; cbn; intros H; crunch; try exact H;
      destruct H as ((_ & H & _) & _); discriminate H.
  - stage_keeps.
  - stage_keeps.
  - intros s0; destruct s0; cbn; intros H; crunch; try exact H;
      destruct H as ((_ & _ & H & _) & _); discriminate H.
  - stage_keeps.
  - exact Hwf.
  - clear Hwf; destruct s; cbn in Hc, Hb, Hi, Hx, Hn |- *; subst.
    crunch; decide_tests; try lia;
      (split; [repeat split; (reflexivity || lia) |]);
      (split; [reflexivity |]); (split; [reflexivity |]);
      f_equal; lia.
Qed.


End CuriousFacts.

(** ** The eyelids of the moods *)

Lemma lidded_bind :
  forall v1 v2 s m k,
    lidded v1 s m ->
    (forall s1, wf s1 -> repainted s s1 -> eyelid_values s1 = v1 ->
                lidded v2 s1 (k s1)) ->
    lidded v2 s (m >>= k).
Proof.
  intros v1 v2 s m k (s1 & -> & Hwf & Hrep & Hv) Hk; simpl.
  destruct (Hk s1 Hwf Hrep Hv) as (s2 & E & Hwf2 & Hrep2 & Hv2).
  exists s2; split; [exact E | split; [exact Hwf2 | split; [| exact Hv2]]].
  eapply repainted_trans; eauto.
Qed.

Lemma lidded_Ok : forall s, wf s -> lidded (eyelid_values s) s (Ok s).
Proof.
  intros s Hwf; exists s; split; [reflexivity | split; [exact Hwf |]].
  split; [apply repainted_refl | reflexivity].
Qed.

Lemma paint_lidded :
  forall c l s,
    wf s -> Forall (in_screen (screen_height s) (screen_width s)) l ->
    lidded (eyelid_values s) s (paint c l s).
Proof.
  intros c l s Hwf Hl; unfold paint.
  destruct (perform_all_in_screen c _ _ l (buffer s) Hl Hwf) as (b & E & Hb).
  rewrite E; exists (with_buffer b s); split; [reflexivity | split; [| split]].
  - destruct s; exact Hb.
  - apply repainted_buffer.
  - destruct s; reflexivity.
Qed.

Lemma rrect_lidded :
  forall x y w h r c s,
    wf s -> lidded (eyelid_values s) s (rrect x y w h r c s).
Proof.
  intros; unfold rrect; apply paint_lidded; auto.
  apply draw_rounded_rect_stores_in_screen.
Qed.

Lemma lidded_after :
  forall v s f m,
    wf s -> repainted s (f s) -> wf (f s) -> lidded v (f s) m -> lidded v s m.
Proof.
  intros v s f m Hwf Hrep Hwf' (s1 & E & Hwf1 & Hrep1 & Hv).
  exists s1; split; [exact E | split; [exact Hwf1 | split; [| exact Hv]]].
  eapply repainted_trans; eauto.
Qed.

Lemma lidded_as :
  forall v v' s m, v = v' -> lidded v s m -> lidded v' s m.
Proof. now intros v v' s m ->. Qed.

Section EyelidFacts.
Context {F : Type} {FO : FloatOps F}.

Lemma triangle_lidded :
  forall x0 y0 x1 y1 x2 y2 c s,
    wf s -> lidded (eyelid_values s) s (triangle x0 y0 x1 y1 x2 y2 c s).
Proof.
  intros; unfold triangle; apply paint_lidded; auto.
  apply fill_triangle_stores_in_screen.
Qed.

Lemma draw_eye_shapes_lidded :
  forall s, wf s -> lidded (eyelid_values s) s (draw_eye_shapes s).
Proof.
  intros s Hwf; unfold draw_eye_shapes.
  apply (lidded_bind (eyelid_values s)); [now apply rrect_lidded |].
  intros s1 Hwf1 _ <-; destruct (negb (_cyclops s1));
    [now apply rrect_lidded | now apply lidded_Ok].
Qed.

Ltac lid_stage s Hwf :=
  match goal with
  | |- lidded ?v s (if negb (_cyclops ?s') then _ else _) =>
      apply (lidded_after v s (fun _ => s'));
        [exact Hwf
        | unfold repainted; eyelid_assignment s
        | destruct s; exact Hwf
        | ]
  | |- lidded ?v s (rrect _ _ _ _ _ _ ?s' >>= _) =>
      apply (lidded_after v s (fun _ => s'));
        [exact Hwf
        | unfold repainted; eyelid_assignment s
        | destruct s; exact Hwf
        | ]
  end;
  match goal with
  | |- lidded _ ?s' _ =>
      assert (Hwf' : wf s') by (destruct s; exact Hwf);
      apply (lidded_as (eyelid_values s')); [destruct s; reflexivity |]
  end.

Lemma tired_eyelids_lidded :
  forall s,
    wf s ->
    lidded (((eyelids_tired_height s + eyelids_tired_height_next s) / 2,
             eyelids_tired_height_next s),
            (eyelids_angry_height s, eyelids_angry_height_next s),
            (eyelids_happy_bottom_offset s,
             eyelids_happy_bottom_offset_next s))
           s (tired_eyelids s).
Proof.
  intros s Hwf; unfold tired_eyelids; cbv zeta.
  lid_stage s Hwf.
  match goal with
  | |- lidded ?v ?s' _ =>
      destruct (negb (_cyclops s'));
        (apply (lidded_bind v);
         [now apply triangle_lidded
         | intros s1 Hwf1 _ <-; now apply triangle_lidded])
  end.
Qed.

Lemma angry_eyelids_lidded :
  forall s,
    wf s ->
    lidded ((eyelids_tired_height s, eyelids_tired_height_next s),
            ((eyelids_angry_height s + eyelids_angry_height_next s) / 2,
             eyelids_angry_height_next s),
            (eyelids_happy_bottom_offset s,
             eyelids_happy_bottom_offset_next s))
           s (angry_eyelids s).
Proof.
  intros s Hwf; unfold angry_eyelids; cbv zeta.
  lid_stage s Hwf.
  match goal with
  | |- lidded ?v ?s' _ =>
      destruct (negb (_cyclops s'));
        (apply (lidded_bind v);
         [now apply triangle_lidded
         | intros s1 Hwf1 _ <-; now apply triangle_lidded])
  end.
Qed.

Lemma happy_eyelids_lidded :
  forall s,
    wf s ->
    lidded ((eyelids_tired_height s, eyelids_tired_height_next s),
            (eyelids_angry_height s, eyelids_angry_height_next s),
            ((eyelids_happy_bottom_offset s
              + eyelids_happy_bottom_offset_next s) / 2,
             eyelids_happy_bottom_offset_next s))
           s (happy_eyelids s).
Proof.
  intros s Hwf; unfold happy_eyelids; cbv zeta.
  lid_stage s Hwf.
  match goal with
  | |- lidded ?v ?s' _ =>
      apply (lidded_bind v); [now apply rrect_lidded |];
      intros s1 Hwf1 _ <-; destruct (negb (_cyclops s1));
        [now apply rrect_lidded | now apply lidded_Ok]
  end.
Qed.

Lemma mood_targets_values :
  forall s,
    wf s ->
    wf (mood_targets s)
    /\ eyelid_values (mood_targets s)
       = ((eyelids_tired_height s,
           if angry s then 0
           else if tired s then eye_l_height_current s / 2 else 0),
          (eyelids_angry_height s,
           if angry s then eye_l_height_current s / 2 else 0),
          (eyelids_happy_bottom_offset s,
           if happy s then eye_l_height_current s / 2 else 0)).
Proof.
  intros s Hwf; split.
  - destruct s; unfold wf in *; crunch; exact Hwf.
  - clear Hwf; destruct s; crunch; reflexivity.
Qed.

Lemma render_lidded :
  forall s,
    wf s ->
    lidded (eyelid_step (tired s) (angry s) (happy s)
                        (eye_l_height_current s) (eyelid_values s))
           s (render s).
Proof.
  intros s Hwf; unfold render.
  set (tn := if angry s then 0
             else if tired s then eye_l_height_current s / 2 else 0).
  set (an := if angry s then eye_l_height_current s / 2 else 0).
  set (pn := if happy s then eye_l_height_current s / 2 else 0).
  apply (lidded_bind
           (((eyelids_tired_height s + tn) / 2, tn),
            ((eyelids_angry_height s + an) / 2, an),
            (eyelids_happy_bottom_offset s,  pn)));
    [apply (lidded_bind
              (((eyelids_tired_height s + tn) / 2, tn),
               (eyelids_angry_height s, an),
               (eyelids_happy_bottom_offset s, pn)));
     [apply (lidded_bind (eyelid_values s)) |] |].
  - now apply draw_eye_shapes_lidded.
  - intros s1 Hwf1 Hrep Hv.
    assert (Hsame : tired s1 = tired s /\ angry s1 = angry s
                    /\ happy s1 = happy s
                    /\ eye_l_height_current s1 = eye_l_height_current s).
    { destruct Hrep as (b & t & t' & a & a' & h & h' & ->).
      destruct s; cbn; auto. }
    destruct Hsame as (Ht & Ha & Hh & Hc).
    destruct (mood_targets_values s1 Hwf1) as [Hwf2 Hv2].
    rewrite Ht, Ha, Hh, Hc in Hv2; fold tn an pn in Hv2.
    apply (lidded_after _ s1 mood_targets);
      [exact Hwf1 | apply mood_targets_repainted | exact Hwf2 |].
    eapply lidded_as; [| now apply tired_eyelids_lidded].
    unfold eyelid_values in Hv, Hv2 |- *.
    injection Hv as E1 E2 E3 E4 E5 E6.
    injection Hv2 as G1 G2 G3 G4 G5 G6.
    congruence.
  - intros s1 Hwf1 _ Hv.
    eapply lidded_as; [| now apply angry_eyelids_lidded].
    unfold eyelid_values in Hv; injection Hv as E1 E2 E3 E4 E5 E6.
    congruence.
  - intros s1 Hwf1 _ Hv.
    eapply lidded_as; [| now apply happy_eyelids_lidded].
    unfold eyelid_values in Hv |- *; injection Hv as E1 E2 E3 E4 E5 E6.
    unfold eyelid_step; fold tn an pn; congruence.
Qed.

End EyelidFacts.

Section EyelidTheorem.
Context {F : Type} {FO : FloatOps F}.

Lemma tick_eyelids :
  forall now d s s',
    wf s -> draw_eyes now d s = Ok s' ->
    eyelid_values s'
    = eyelid_step (tired s) (angry s) (happy s) (eye_l_height_current s')
                  (eyelid_values s).
Proof.
  intros now d s s' Hwf E.
  set (view := fun s1 : RoboEyes =>
                 (tired s1, angry s1, happy s1, eyelid_values s1)).
  assert (H0 : view (interpolate (cleared s)) = view s)
    by (subst view; cbv beta; after_smoothing s; destruct s; reflexivity).
  assert (Hb : forall s1, view (final (auto_blink now d s1)) = view s1)
    by (intros s1; subst view; destruct s1; crunch; reflexivity).
  assert (Hm : forall s1,
             view (confused_macro now (laugh_macro now s1)) = view s1)
    by (intros s1; subst view; destruct s1; crunch; reflexivity).
  assert (Hi : forall s1, view (final (idle_macro now d s1)) = view s1)
    by (intros s1; subst view; destruct s1; crunch; reflexivity).
  assert (Hf : forall s1, view (flicker s1) = view s1)
    by (intros s1; subst view; destruct s1; crunch; reflexivity).
  destruct (draw_eyes_cases now d s Hwf)
    as [(e & s2 & E1 & E') | [(s2 & e & s3 & E1 & E2 & E')
                             | (s2 & s3 & s1 & E1 & E2 & E' & Hwf' & Hrep & Er)]];
    rewrite E in E'; try discriminate E'.
  injection E' as <-.
  assert (Hv : view (flicker s3) = view s).
  { rewrite Hf.
    pose proof (Hi (confused_macro now (laugh_macro now s2))) as H3.
    rewrite E2 in H3; cbn [final] in H3; rewrite H3, Hm.
    pose proof (Hb (interpolate (cleared s))) as H2.
    rewrite E1 in H2; cbn [final] in H2; now rewrite H2. }
  assert (Hwf3 : wf (flicker s3)).
  { apply wf_flicker.
    pose proof (wf_idle_macro now d _
                  (wf_confused_macro now _
                     (wf_laugh_macro now _
                        (wf_auto_blink now d _
                           (wf_interpolate _ (wf_cleared _ Hwf)))))) as H.
    rewrite E1 in H; cbn [final] in H; rewrite E2 in H; exact H. }
  destruct (render_lidded (flicker s3) Hwf3) as (s4 & E4 & _ & _ & Hl).
  rewrite Er in E4; injection E4 as <-.
  assert (Hh : eye_l_height_current s' = eye_l_height_current (flicker s3)).
  { destruct Hrep as (b & t & tn & a & an & h & hn & ->).
    destruct (flicker s3); reflexivity. }
  subst view; cbv beta in Hv.
  assert (Ht : tired (flicker s3) = tired s) by congruence.
  assert (Ha : angry (flicker s3) = angry s) by congruence.
  assert (Hp : happy (flicker s3) = happy s) by congruence.
  assert (Hvals : eyelid_values (flicker s3) = eyelid_values s)
    by congruence.
  now rewrite Hl, Hh, Ht, Ha, Hp, Hvals.
Qed.

(** X18.  The eyelids of the moods.  A tick that returns moves each of
    the three eyelid values half way (rounding down) to its target: half
    the left eye's height of that tick for the eyelid of the mood whose
    flag is set (the angry flag overriding the tired one), 0 for the
    others.  So with no mood flag set, [n] ticks leave each eyelid value
    at its old value divided by [2 ^ n]: the eyelids of a mood that was
    left retract by halving. *)
Theorem eyelids_follow_the_mood :
  forall (s : RoboEyes),
    wf s ->
    (forall now d s',
        draw_eyes now d s = Ok s' ->
        eyelid_values s'
        = eyelid_step (tired s) (angry s) (happy s)
                      (eye_l_height_current s') (eyelid_values s))
    /\ (forall inputs s',
           tired s = false -> angry s = false -> happy s = false ->
           run_ticks inputs s = Ok s' ->
           eyelids_tired_height s'
           = eyelids_tired_height s / 2 ^ Z.of_nat (length inputs)
           /\ eyelids_angry_height s'
              = eyelids_angry_height s / 2 ^ Z.of_nat (length inputs)
           /\ eyelids_happy_bottom_offset s'
              = eyelids_happy_bottom_offset s / 2 ^ Z.of_nat (length inputs)).
Proof.
  intros s Hwf; split.
  - intros now d s'; now apply tick_eyelids.
  - intros inputs; revert s Hwf.
    induction inputs as [| [now d] rest IH]; intros s Hwf s' Ht Ha Hp E.
    + injection E as <-; cbn [length Z.of_nat].
      now rewrite Z.pow_0_r, !Z.div_1_r.
    + rewrite run_ticks_cons in E.
      destruct (tick_settings now d s Hwf) as [Hs Hwf1].
      pose proof (tick_eyelids now d s) as Hstep.
      destruct (draw_eyes now d s) as [s1 | e s1]; [| discriminate E].
      change (run_ticks rest s1 = Ok s') in E.
      cbn [final] in Hs, Hwf1.
      specialize (Hstep s1 Hwf eq_refl).
      rewrite Ht, Ha, Hp in Hstep.
      assert (Hflags : tired s1 = false /\ angry s1 = false
                       /\ happy s1 = false).
      { destruct s, s1; cbn in Hs, Ht, Ha, Hp |- *.
        injection Hs as; subst; auto. }
      destruct Hflags as (Ht1 & Ha1 & Hp1).
      destruct (IH s1 Hwf1 s' Ht1 Ha1 Hp1 E) as (I1 & I2 & I3).
      assert (Hhalf : eyelids_tired_height s1 = eyelids_tired_height s / 2
                      /\ eyelids_angry_height s1 = eyelids_angry_height s / 2
                      /\ eyelids_happy_bottom_offset s1
                         = eyelids_happy_bottom_offset s / 2).
      { unfold eyelid_values, eyelid_step in Hstep.
        injection Hstep as -> _ -> _ -> _.
        now rewrite !Z.add_0_r. }
      destruct Hhalf as (-> & -> & ->) in I1, I2, I3.
      replace (Z.of_nat (length ((now, d) :: rest)))
        with (1 + Z.of_nat (length rest)) by (cbn [length]; lia).
      rewrite Z.pow_add_r, Z.pow_1_r by lia.
      rewrite <- !Z.div_div by (try apply Z.pow_pos_nonneg; lia).
      auto.
Qed.

End EyelidTheorem.

(** ** The way to a position *)

Section PositionFacts.
Context {F : Type} {FO : FloatOps F}.

Lemma steady_tick :
  forall now d s,
    wf s ->
    idle s = false -> h_flicker s = false -> _confused s = false ->
    let s' := final (draw_eyes now d s) in
    ((idle s' = false /\ h_flicker s' = false /\ _confused s' = false)
     /\ eye_l_x_next s' = eye_l_x_next s
     /\ eye_l_x s' = (eye_l_x s + eye_l_x_next s) / 2)
    /\ wf s'.
Proof.
  intros now d s Hwf Hi Hf Hc s'; subst s'.
  apply (draw_eyes_establishes
           (fun s' =>
              (idle s' = false /\ h_flicker s' = false /\ _confused s' = false)
              /\ eye_l_x_next s' = eye_l_x_next s
              /\ eye_l_x s' = (eye_l_x s + eye_l_x_next s) / 2) now d).
  - intros s0 b t tn a an h hn; revert s0; stage_keeps.
  - stage_keeps.
  - stage_keeps.
  - intros s0; destruct s0; cbn; intros H; crunch; try exact H;
      destruct H as ((_ & _ & H) & _); discriminate H.
  - intros s0; destruct s0; cbn; intros H; crunch; try exact H;
      destruct H as ((H & _) & _); discriminate H.
  - intros s0; destruct s0; cbn; intros H; crunch; try exact H;
      destruct H as ((_ & H & _) & _); discriminate H.
  - exact Hwf.
  - clear Hwf; destruct s; cbn in Hi, Hf, Hc |- *; subst.
    crunch; repeat split.
Qed.

(** X19.  The way to a position.  With idle mode off, the horizontal
    flicker off and no confused animation requested, [n] ticks that return
    leave the target of the left eye where it is and put the eye's
    horizontal position at [eye_l_x_next + (eye_l_x - eye_l_x_next) / 2 ^
    n]: the distance to the target is halved, rounding down, each tick, so
    the eye arrives at a target to its left and stops one pixel short of a
    target to its right. *)
Theorem left_eye_halves_its_way_to_the_target :
  forall (inputs : list (Z * dice)) (s s' : RoboEyes),
    wf s ->
    idle s = false -> h_flicker s = false -> _confused s = false ->
    run_ticks inputs s = Ok s' ->
    eye_l_x_next s' = eye_l_x_next s
    /\ eye_l_x s'
       = eye_l_x_next s
         + (eye_l_x s - eye_l_x_next s) / 2 ^ Z.of_nat (length inputs).
Proof.
  intros inputs; induction inputs as [| [now d] rest IH];
    intros s s' Hwf Hi Hf Hc E.
  - injection E as <-; split; [reflexivity |].
    cbn [length Z.of_nat]; rewrite Z.pow_0_r, Z.div_1_r; lia.
  - rewrite run_ticks_cons in E.
    pose proof (steady_tick now d s Hwf Hi Hf Hc) as Htick.
    destruct (draw_eyes now d s) as [s1 | e s1]; [| discriminate E].
    change (run_ticks rest s1 = Ok s') in E.
    cbv zeta in Htick; cbn [final] in Htick.
    destruct Htick as (((Hi1 & Hf1 & Hc1) & Hn1 & Hx1) & Hwf1).
    destruct (IH s1 s' Hwf1 Hi1 Hf1 Hc1 E) as [Hn' Hx'].
    rewrite Hn1 in Hn', Hx'; split; [exact Hn' |].
    rewrite Hx', Hx1.
    replace (Z.of_nat (length ((now, d) :: rest)))
      with (Z.of_nat (length rest) + 1) by (cbn [length]; lia).
    now rewrite <- halving_closed_step by lia.
Qed.

End PositionFacts.

(* ===================================================================== *)
(** * The further theorems at work on sample inputs                       *)
(* ===================================================================== *)

Lemma draw_rounded_rect_pixels_witness :
  shaped 64 128 blank
  /\ (forall n, 0 <= n < 2 ^ 52 -> isqrt (F := Q) n = Z.sqrt n)
  /\ clamp_radius 36 9 8 < 2 ^ 26
  /\ exists b',
      draw_rounded_rect (F := Q) 128 64 blank 10 20 36 9 8 light_blue = Ok b'
      /\ pixel b' 20 10 = black
      /\ pixel b' 22 20 = light_blue
      /\ pixel b' 24 46 = light_blue
      /\ pixel b' 40 10 = black.
Proof.
  assert (Hexact : forall n, 0 <= n < 2 ^ 52 -> isqrt (F := Q) n = Z.sqrt n)
    by (intros; reflexivity).
  assert (Hsmall : clamp_radius 36 9 8 < 2 ^ 26) by (vm_compute; reflexivity).
  split; [exact blank_shaped | split; [exact Hexact | split; [exact Hsmall |]]].
  destruct (draw_rounded_rect_pixels (F := Q) 128 64 blank light_blue
              10 20 36 9 8 blank_shaped Hexact Hsmall)
    as (b' & E & _ & Hpix).
  exists b'; split; [exact E |].
  assert (Hr : 1 <= clamp_radius 36 9 8) by (vm_compute; discriminate).
  split; [| split; [| split]].
  - exact (proj1 (proj2 (proj2 (proj2
             (Hpix 20 10 ltac:(lia) ltac:(lia))))) Hr eq_refl eq_refl).
  - apply (proj1 (proj2 (proj2 (Hpix 22 20 ltac:(lia) ltac:(lia)))));
      [lia | lia | left; vm_compute; split; [discriminate | reflexivity]].
  - exact (proj2 (proj2 (proj2 (proj2
             (Hpix 24 46 ltac:(lia) ltac:(lia))))) Hr eq_refl eq_refl).
  - apply (proj1 (proj2 (Hpix 40 10 ltac:(lia) ltac:(lia)))); lia.
Defined.

Lemma fill_triangle_pixels_witness :
  shaped 64 128 blank
  /\ pixel (final (fill_triangle (F := Q) 128 64 blank 10 10 30 10 10 20
                                 light_blue)) 9 12 = black
  /\ pixel (final (fill_triangle (F := Q) 128 64 blank 10 10 30 10 10 20
                                 light_blue)) 21 12 = black.
Proof.
  split; [exact blank_shaped |].
  destruct (fill_triangle_pixels (F := Q) 128 64 blank light_blue
              10 10 30 10 10 20 blank_shaped) as (_ & Hpix).
  split.
  - apply (proj2 (Hpix 9 12 ltac:(lia) ltac:(lia))); left; vm_compute;
      reflexivity.
  - apply (proj2 (Hpix 21 12 ltac:(lia) ltac:(lia))); right; vm_compute;
      reflexivity.
Defined.

Lemma auto_blinker_fires_and_reschedules_witness :
  exists s0,
    FastRoboEyes_init 128 64 60 black light_blue = inr s0
    /\ wf (set_auto_blinker true (Some 4) (Some 2) s0)
    /\ autoblinker (set_auto_blinker true (Some 4) (Some 2) s0) = true
    /\ 0 <= blink_interval_variation
              (set_auto_blinker true (Some 4) (Some 2) s0)
    /\ blink_timer (set_auto_blinker true (Some 4) (Some 2) s0) <= 50
    /\ exists k,
        0 <= k <= 2
        /\ blink_timer
             (final (draw_eyes (F := Q) 50 still
                               (set_auto_blinker true (Some 4) (Some 2) s0)))
           = 50 + 4 * 1000 + k * 1000.
Proof.
  eexists; split; [reflexivity |].
  match goal with
  | |- wf ?s /\ _ =>
      assert (Hwf : wf s) by exact blank_shaped;
      assert (Hon : autoblinker s = true) by reflexivity;
      assert (Hvar : 0 <= blink_interval_variation s) by (cbn; lia);
      assert (Hdue : blink_timer s <= 50) by (cbn; lia);
      pose proof (proj1 (auto_blinker_fires_and_reschedules
                           (F := Q) 50 still s Hwf Hon Hvar) Hdue) as H
  end.
  split; [exact Hwf | split; [exact Hon | split; [exact Hvar |]]].
  split; [exact Hdue |].
  exact (proj2 (proj2 (proj2 (proj2 H)))).
Defined.


Lemma confuse_shakes_for_its_duration_witness :
  exists s0,
    FastRoboEyes_init 128 64 60 black light_blue = inr s0
    /\ wf s0 /\ confused_toggle s0 = true
    /\ exists s1 s2 s3,
        draw_eyes (F := Q) 0 still (confuse s0) = Ok s1
        /\ Forall (fun i => fst i - 0 < confused_animation_duration s0)
                  [(100, still); (499, still)]
        /\ run_ticks (F := Q) [(100, still); (499, still)] s1 = Ok s2
        /\ (h_flicker s2 = true /\ h_flicker_amplitude s2 = 20
            /\ _confused s2 = true)
        /\ draw_eyes (F := Q) 500 still s2 = Ok s3
        /\ (h_flicker s3 = false /\ h_flicker_amplitude s3 = 0
            /\ _confused s3 = false /\ confused_toggle s3 = true).
Proof.
  eexists; split; [reflexivity |].
  match goal with
  | |- wf ?s /\ _ =>
      assert (Hwf : wf s) by exact blank_shaped;
      assert (Htg : confused_toggle s = true) by reflexivity;
      set (s0 := s) in *
  end.
  split; [exact Hwf | split; [exact Htg |]].
  assert (E1 : exists s1, draw_eyes (F := Q) 0 still (confuse s0) = Ok s1)
    by (eexists; vm_compute; reflexivity).
  destruct E1 as [s1 E1]; exists s1.
  assert (Hall : Forall (fun i : Z * dice =>
                           fst i - 0 < confused_animation_duration s0)
                        [(100, still); (499, still)])
    by (repeat constructor).
  assert (E2 : exists s2,
             run_ticks (F := Q) [(100, still); (499, still)]
                       (final (draw_eyes (F := Q) 0 still (confuse s0)))
             = Ok s2)
    by (eexists; vm_compute; reflexivity).
  rewrite E1 in E2; cbn [final] in E2.
  destruct E2 as [s2 E2]; exists s2.
  assert (E3 : exists s3,
             draw_eyes (F := Q) 500 still
               (final (run_ticks (F := Q) [(100, still); (499, still)]
                         (final (draw_eyes (F := Q) 0 still (confuse s0)))))
             = Ok s3)
    by (eexists; vm_compute; reflexivity).
  rewrite E1 in E3; cbn [final] in E3; rewrite E2 in E3; cbn [final] in E3.
  destruct E3 as [s3 E3]; exists s3.
  destruct (confuse_shakes_for_its_duration
              (F := Q) 0 still s0 s1 _ s2 Hwf Htg E1 Hall E2) as [Hon Hoff].
  split; [exact E1 | split; [exact Hall | split; [exact E2 |]]].
  split; [exact Hon | split; [exact E3 |]].
  apply (Hoff 500 still s3); [cbn; lia | exact E3].
Defined.

Lemma laugh_bounces_for_its_duration_witness :
  exists s0,
    FastRoboEyes_init 128 64 60 black light_blue = inr s0
    /\ wf s0 /\ laugh_toggle s0 = true
    /\ exists s1 s2 s3,
        draw_eyes (F := Q) 0 still (laugh s0) = Ok s1
        /\ Forall (fun i => fst i - 0 < laugh_animation_duration s0)
                  [(100, still); (499, still)]
        /\ run_ticks (F := Q) [(100, still); (499, still)] s1 = Ok s2
        /\ (v_flicker s2 = true /\ v_flicker_amplitude s2 = 5
            /\ _laugh s2 = true)
        /\ draw_eyes (F := Q) 500 still s2 = Ok s3
        /\ (v_flicker s3 = false /\ v_flicker_amplitude s3 = 0
            /\ _laugh s3 = false /\ laugh_toggle s3 = true).
Proof.
  eexists; split; [reflexivity |].
  match goal with
  | |- wf ?s /\ _ =>
      assert (Hwf : wf s) by exact blank_shaped;
      assert (Htg : laugh_toggle s = true) by reflexivity;
      set (s0 := s) in *
  end.
  split; [exact Hwf | split; [exact Htg |]].
  assert (E1 : exists s1, draw_eyes (F := Q) 0 still (laugh s0) = Ok s1)
    by (eexists; vm_compute; reflexivity).
  destruct E1 as [s1 E1]; exists s1.
  assert (Hall : Forall (fun i : Z * dice =>
                           fst i - 0 < laugh_animation_duration s0)
                        [(100, still); (499, still)])
    by (repeat constructor).
  assert (E2 : exists s2,
             run_ticks (F := Q) [(100, still); (499, still)]
                       (final (draw_eyes (F := Q) 0 still (laugh s0)))
             = Ok s2)
    by (eexists; vm_compute; reflexivity).
  rewrite E1 in E2; cbn [final] in E2.
  destruct E2 as [s2 E2]; exists s2.
  assert (E3 : exists s3,
             draw_eyes (F := Q) 500 still
               (final (run_ticks (F := Q) [(100, still); (499, still)]
                         (final (draw_eyes (F := Q) 0 still (laugh s0)))))
             = Ok s3)
    by (eexists; vm_compute; reflexivity).
  rewrite E1 in E3; cbn [final] in E3; rewrite E2 in E3; cbn [final] in E3.
  destruct E3 as [s3 E3]; exists s3.
  destruct (laugh_bounces_for_its_duration
              (F := Q) 0 still s0 s1 _ s2 Hwf Htg E1 Hall E2) as [Hon Hoff].
  split; [exact E1 | split; [exact Hall | split; [exact E2 |]]].
  split; [exact Hon | split; [exact E3 |]].
  apply (Hoff 500 still s3); [cbn; lia | exact E3].
Defined.

Lemma frame_is_background_outside_the_eyes_witness :
  exists s0,
    FastRoboEyes_init 128 64 60 black light_blue = inr s0
    /\ wf s0
    /\ exists s',
        draw_eyes (F := Q) 0 still s0 = Ok s'
        /\ (0 <= 3 < screen_height s' /\ 0 <= 5 < screen_width s')
        /\ (pixel (buffer s') 3 5 = bgcolor s'
            \/ (pixel (buffer s') 3 5 = fgcolor s' /\ in_an_eye s' 3 5)).
Proof.
  eexists; split; [reflexivity |].
  match goal with
  | |- wf ?s /\ _ =>
      assert (Hwf : wf s) by exact blank_shaped; set (s0 := s) in *
  end.
  split; [exact Hwf |].
  assert (E : exists s', draw_eyes (F := Q) 0 still s0 = Ok s')
    by (eexists; vm_compute; reflexivity).
  destruct E as [s' E]; exists s'.
  assert (Hdim : screen_height (final (draw_eyes (F := Q) 0 still s0)) = 64
                 /\ screen_width (final (draw_eyes (F := Q) 0 still s0)) = 128)
    by (vm_compute; split; reflexivity).
  rewrite E in Hdim; cbn [final] in Hdim; destruct Hdim as [Hh Hw].
  assert (Hy : 0 <= 3 < screen_height s') by (rewrite Hh; lia).
  assert (Hx : 0 <= 5 < screen_width s') by (rewrite Hw; lia).
  split; [exact E | split; [split; [exact Hy | exact Hx] |]].
  exact (frame_is_background_outside_the_eyes
           (F := Q) 0 still s0 s' Hwf E 3 5 Hy Hx).
Defined.

Lemma sizes_halve_their_distance_each_tick_witness :
  exists s0,
    FastRoboEyes_init 128 64 60 black light_blue = inr s0
    /\ wf (eyes_width (Some 20) (Some 50) s0)
    /\ exists s',
        run_ticks (F := Q) [(0, still); (16, still); (32, still)]
                  (eyes_width (Some 20) (Some 50) s0) = Ok s'
        /\ eye_l_width_current s' = 22 /\ eye_r_width_current s' = 48.
Proof.
  eexists; split; [reflexivity |].
  match goal with
  | |- wf ?s /\ _ =>
      assert (Hwf : wf s) by exact blank_shaped; set (s1 := s) in *
  end.
  split; [exact Hwf |].
  assert (E : exists s',
             run_ticks (F := Q) [(0, still); (16, still); (32, still)] s1
             = Ok s')
    by (eexists; vm_compute; reflexivity).
  destruct E as [s' E]; exists s'; split; [exact E |].
  pose proof (sizes_halve_their_distance_each_tick (F := Q) _ s1 s' Hwf E)
    as H.
  cbv zeta in H; destruct H as (Hl & Hr & _).
  split; [exact Hl | exact Hr].
Defined.

Lemma raising_callback_leaves_its_step_pending_witness :
  let failing := {| done := false; ms_timing := 20;
                    callback := fun log : list Z => Raise IndexError log |} in
  let first := {| done := false; ms_timing := 0; callback := note 1 |} in
  let last := {| done := false; ms_timing := 10; callback := note 3 |} in
  run_callbacks (filter (due 1000 1060) [first]) [] = Ok [1]
  /\ due 1000 1060 failing = true
  /\ callback failing [1] = Raise IndexError [1]
  /\ Sequence_update 1060
       {| steps := [first; failing; last]; _start := Some 1000 |} []
     = Raise IndexError
             ({| steps := [fired first; failing; last];
                 _start := Some 1000 |}, [1]).
Proof.
  intros failing first last.
  assert (H1 : run_callbacks (filter (due 1000 1060) [first]) [] = Ok [1])
    by reflexivity.
  assert (H2 : due 1000 1060 failing = true) by reflexivity.
  assert (H3 : callback failing [1] = Raise IndexError [1]) by reflexivity.
  split; [exact H1 | split; [exact H2 | split; [exact H3 |]]].
  exact (proj1 (raising_callback_leaves_its_step_pending
                  (list Z) 1000 1060 [first] failing [last] [] [] [1] [1]
                  IndexError H1 H2 H3)).
Defined.

Lemma reset_then_start_replays_the_sequence_witness :
  let played := {| steps := map fired (steps three_notes);
                   _start := Some 1000 |} in
  run_callbacks
    (filter (fun s => ms_timing s <=? 5060 - 5000) (steps played)) []
  = Ok [1; 3]
  /\ Sequence_update 5060 (Sequence_start 5000 (Sequence_reset played)) []
     = Ok ({| steps :=
                map (fun s => if ms_timing s <=? 5060 - 5000
                              then fired s else unfired s) (steps played);
              _start := Some 5000 |}, [1; 3]).
Proof.
  intros played.
  assert (H : run_callbacks
                (filter (fun s => ms_timing s <=? 5060 - 5000) (steps played))
                [] = Ok [1; 3]) by reflexivity.
  split; [exact H |].
  exact (proj1 (proj2 (proj2 (reset_then_start_replays_the_sequence
                                (list Z) played 5000 5060 [] [1; 3] H)))).
Defined.

Lemma simple_rect_paints_the_centred_block_witness :
  shaped 64 128 blank
  /\ pixel (Simple.draw_rounded_rect 128 64 blank 60 32 81 20 light_blue)
           22 20 = light_blue
  /\ pixel (Simple.draw_rounded_rect 128 64 blank 60 32 81 20 light_blue)
           22 100 = black.
Proof.
  split; [exact blank_shaped |].
  pose proof (proj2 (simple_rect_paints_the_centred_block
                       128 64 blank 60 32 81 20 light_blue blank_shaped))
    as H.
  split.
  - exact (H 22 20 ltac:(lia) ltac:(lia)).
  - exact (H 22 100 ltac:(lia) ltac:(lia)).
Defined.

Lemma ticks_leave_the_settings_witness :
  exists s0,
    FastRoboEyes_init 128 64 60 black light_blue = inr s0
    /\ wf (mood_setter HAPPY s0)
    /\ settings (final (run_ticks (F := Q) [(0, still); (16, still)]
                                  (mood_setter HAPPY s0)))
       = settings (mood_setter HAPPY s0).
Proof.
  eexists; split; [reflexivity |].
  match goal with
  | |- wf ?s /\ _ => assert (Hwf : wf s) by exact blank_shaped
  end.
  split; [exact Hwf |].
  exact (ticks_leave_the_settings (F := Q) _ _ Hwf).
Defined.

Lemma update_draws_when_due_and_then_waits_witness :
  exists s0,
    FastRoboEyes_init 128 64 60 black light_blue = inr s0
    /\ wf s0
    /\ frame_interval s0 <= 20 - fps_timer s0
    /\ exists s',
        draw_eyes (F := Q) 21 still s0 = Ok s'
        /\ update (F := Q) 19 20 21 still {| eyes := s0; sequences := [] |}
           = Ok {| eyes := with_fps_timer 20 s'; sequences := [] |}
        /\ update (F := Q) 29 30 31 still
                  {| eyes := with_fps_timer 20 s'; sequences := [] |}
           = Ok {| eyes := with_fps_timer 20 s'; sequences := [] |}.
Proof.
  eexists; split; [reflexivity |].
  match goal with
  | |- wf ?s /\ _ =>
      assert (Hwf : wf s) by exact blank_shaped; set (s0 := s) in *
  end.
  assert (Hdue : frame_interval s0 <= 20 - fps_timer s0)
    by (vm_compute; discriminate).
  split; [exact Hwf | split; [exact Hdue |]].
  assert (E : exists s', draw_eyes (F := Q) 21 still s0 = Ok s')
    by (eexists; vm_compute; reflexivity).
  destruct E as [s' E]; exists s'; split; [exact E |].
  pose proof (update_draws_when_due_and_then_waits
                (F := Q) {| eyes := s0; sequences := [] |} 19 20 21 still
                Hwf (Forall_nil _) Hdue) as H.
  cbn [eyes sequences] in H; rewrite E in H; cbv zeta in H.
  destruct H as (Hup & _ & Hwait).
  split; [exact Hup |].
  apply Hwait; vm_compute; reflexivity.
Defined.



Lemma Sequences_update_runs_the_due_steps_in_order_witness :
  let second := {| steps := [ {| done := false; ms_timing := 30;
                                callback := note 7 |} ];
                   _start := Some 1020 |} in
  let asleep := {| steps := [ {| done := false; ms_timing := 0;
                                callback := note 9 |} ];
                   _start := None |} in
  run_callbacks (flat_map (pending 1060) [three_notes; asleep; second]) []
  = Ok [1; 3; 7]
  /\ Sequences_update 1060 [three_notes; asleep; second] []
     = Ok (map (advanced 1060) [three_notes; asleep; second], [1; 3; 7])
  /\ Sequences_done (map (advanced 1060) [three_notes; asleep; second])
     = false.
Proof.
  intros second asleep.
  assert (H : run_callbacks
                (flat_map (pending 1060) [three_notes; asleep; second]) []
              = Ok [1; 3; 7]) by reflexivity.
  split; [exact H | split; [| reflexivity]].
  exact (proj1 (Sequences_update_runs_the_due_steps_in_order
                  (list Z) 1060 [three_notes; asleep; second] [] [1; 3; 7] H)).
Defined.

Lemma eyelids_follow_the_mood_witness :
  exists s0,
    FastRoboEyes_init 128 64 60 black light_blue = inr s0
    /\ wf (mood_setter TIRED s0)
    /\ exists s',
        draw_eyes (F := Q) 0 still (mood_setter TIRED s0) = Ok s'
        /\ eye_l_height_current s' = 18
        /\ eyelid_values s' = ((4, 9), (0, 0), (0, 0)).
Proof.
  eexists; split; [reflexivity |].
  match goal with
  | |- wf ?s /\ _ =>
      assert (Hwf : wf s) by exact blank_shaped; set (s1 := s) in *
  end.
  split; [exact Hwf |].
  assert (E : exists s', draw_eyes (F := Q) 0 still s1 = Ok s')
    by (eexists; vm_compute; reflexivity).
  destruct E as [s' E]; exists s'; split; [exact E |].
  assert (Hh : eye_l_height_current (final (draw_eyes (F := Q) 0 still s1))
               = 18) by (vm_compute; reflexivity).
  rewrite E in Hh; cbn [final] in Hh.
  split; [exact Hh |].
  rewrite (proj1 (eyelids_follow_the_mood (F := Q) s1 Hwf) 0 still s' E), Hh.
  reflexivity.
Defined.

Lemma left_eye_halves_its_way_to_the_target_witness :
  exists s0,
    FastRoboEyes_init 128 64 60 black light_blue = inr s0
    /\ (let s := position_setter (Some Direction.E) s0 in
        wf s /\ idle s = false /\ h_flicker s = false /\ _confused s = false
        /\ exists s',
            run_ticks (F := Q)
                      [(0, still); (16, still); (32, still); (48, still);
                       (64, still)] s = Ok s'
            /\ eye_l_x_next s' = 46 /\ eye_l_x s' = 45).
Proof.
  eexists; split; [reflexivity |].
  match goal with
  | |- let s := ?t in _ => set (s := t); cbv zeta
  end.
  assert (Hwf : wf s) by exact blank_shaped.
  assert (Hi : idle s = false) by reflexivity.
  assert (Hf : h_flicker s = false) by reflexivity.
  assert (Hc : _confused s = false) by reflexivity.
  repeat (split; [assumption |]).
  assert (E : exists s',
             run_ticks (F := Q)
                       [(0, still); (16, still); (32, still); (48, still);
                        (64, still)] s = Ok s')
    by (eexists; vm_compute; reflexivity).
  destruct E as [s' E]; exists s'; split; [exact E |].
  exact (left_eye_halves_its_way_to_the_target (F := Q) _ s s' Hwf Hi Hf Hc E).
Defined.

Lemma FastRoboEyes_init_returns_closed_eyes_witness :
  uint8 black = true /\ uint8 light_blue = true
  /\ FastRoboEyes_init (-1) 64 60 black light_blue = inl ValueError
  /\ exists s0,
      FastRoboEyes_init 128 64 60 black light_blue = inr s0
      /\ lids s0 = ((false, 36, (1, 36)), (false, 36, (1, 36)))
      /\ exists s',
          draw_eyes (F := Q) 0 still s0 = Ok s'
          /\ lids s' = ((false, 36, (18, 36)), (false, 36, (18, 36))).
Proof.
  split; [reflexivity | split; [reflexivity | split]].
  - apply (proj1 (FastRoboEyes_init_returns_closed_eyes
                    (F := Q) (-1) 64 60 black light_blue eq_refl eq_refl)).
    left; lia.
  - eexists; split; [reflexivity |].
    match goal with
    | |- lids ?s = _ /\ _ =>
        destruct (proj2 (proj2 (FastRoboEyes_init_returns_closed_eyes
                                  (F := Q) 128 64 60 black light_blue
                                  eq_refl eq_refl)) s eq_refl)
          as (_ & _ & _ & _ & Hl & Ht)
    end.
    split; [exact Hl |].
    destruct (Ht 0 still) as (s' & E & _ & Hl').
    exists s'; split; [exact E | exact Hl'].
Defined.

